(** * AgentOS core: context tracker, session store and workflow scheduler

    A shallow embedding of the TypeScript sources
    - [core/context-tracker.ts]  (token estimation, brackets, budget),
    - [core/session-store.ts]    (event-log cap on save),
    - [core/session-manager.ts]  (crash detection, titles, stale sessions),
    - [core/session-continuity.ts] (handoff document),
    - [core/decision-log.ts]     (decision ids),
    - [core/workflow-engine.ts]  (resume, waves, retry, gates, phase lifecycle),
    followed by the properties of the specification, each settled on the
    embedded code, and by further properties of the same code. *)

From Stdlib Require Import ZArith QArith Qminmax List Bool Lia Lqa.
From Stdlib Require DecimalString DecimalNat.
From stdpp Require Import base gmap strings list.

Import ListNotations.
Local Open Scope string_scope.
Local Open Scope list_scope.
Local Open Scope Z_scope.

(** ** Data model ([types/session.ts], [types/workflow.ts], [types/runner.ts]) *)

(** [SessionStatus = 'idle' | 'running' | 'paused' | 'completed' | 'failed'] *)
Inductive SessionStatus : Set :=
  | idle | running | paused | completed | failed.

Definition SessionStatus_eqb (a b : SessionStatus) : bool :=
  match a, b with
  | idle, idle | running, running | paused, paused
  | completed, completed | failed, failed => true
  | _, _ => false
  end.

(** [ContextBrackets = ['FRESH', 'MODERATE', 'DEPLETED', 'CRITICAL']] *)
Inductive ContextBracket : Set :=
  | FRESH | MODERATE | DEPLETED | CRITICAL.

(** Free-form [data] payload of an event: a flat JSON object. *)
Inductive JsonValue : Type :=
  | JStr (s : string)
  | JInt (n : Z)
  | JNum (q : Q)
  | JBool (b : bool)
  | JUndefined.

(** [SessionEvent]: [timestamp] is an ISO string in the source; it is kept
    here as the epoch milliseconds [new Date(timestamp).getTime()] reads
    back from it.  [type] is a plain string ([z.string()]). *)
Record SessionEvent : Type := mkEvent {
  ev_timestamp : Z;
  ev_type : string;
  ev_agent : string;
  ev_phase : option string;
  ev_data : list (string * JsonValue)
}.

Record SessionState : Type := mkSession {
  sessionId : string;
  workflowId : string;
  activeMission : string;
  currentAgent : string;
  currentPhase : string;
  status : SessionStatus;
  startedAt : Z;
  title : option string;
  promptCount : Z;
  lastActivity : option Z;
  contextBracket : ContextBracket;
  tokens : Z;
  costUsd : Q;
  events : list SessionEvent
}.

(** [gate: z.enum(['user_approval', 'auto_pass', 'user_acceptance'])] *)
Inductive Gate : Set :=
  | user_approval | auto_pass | user_acceptance.

Record WorkflowPhase : Type := mkPhase {
  ph_id : string;
  ph_name : string;
  ph_agent : string;
  ph_task : string;
  ph_next : option string;
  ph_gate : option Gate;
  ph_decision : option (list (string * string));
  ph_dependsOn : option (list string);
  ph_retry : Z;
  ph_timeoutMs : option Z
}.

Record WorkflowDefinition : Type := mkWorkflow {
  wf_id : string;
  wf_name : string;
  phases : list WorkflowPhase
}.

Record RunnerResult : Type := mkResult {
  output : string;
  exitCode : Z;
  tokensUsed : Z;
  rr_costUsd : Q;
  error : option string;
  durationMs : Z
}.

Record CrashInfo : Type := mkCrashInfo {
  ci_sessionId : string;
  ci_lastActivity : Z;
  minutesSinceActivity : Z;
  lastPhase : string;
  lastAgent : string
}.

(** Field assignments on the session object. *)
Definition with_events (s : SessionState) (evs : list SessionEvent) : SessionState :=
  mkSession (sessionId s) (workflowId s) (activeMission s) (currentAgent s)
    (currentPhase s) (status s) (startedAt s) (title s) (promptCount s)
    (lastActivity s) (contextBracket s) (tokens s) (costUsd s) evs.

Definition with_status (s : SessionState) (st : SessionStatus) : SessionState :=
  mkSession (sessionId s) (workflowId s) (activeMission s) (currentAgent s)
    (currentPhase s) st (startedAt s) (title s) (promptCount s)
    (lastActivity s) (contextBracket s) (tokens s) (costUsd s) (events s).

Definition with_lastActivity (s : SessionState) (t : Z) : SessionState :=
  mkSession (sessionId s) (workflowId s) (activeMission s) (currentAgent s)
    (currentPhase s) (status s) (startedAt s) (title s) (promptCount s)
    (Some t) (contextBracket s) (tokens s) (costUsd s) (events s).

Definition with_current (s : SessionState) (agent phase : string) : SessionState :=
  mkSession (sessionId s) (workflowId s) (activeMission s) agent
    phase (status s) (startedAt s) (title s) (promptCount s)
    (lastActivity s) (contextBracket s) (tokens s) (costUsd s) (events s).

Definition with_promptCount (s : SessionState) (n : Z) : SessionState :=
  mkSession (sessionId s) (workflowId s) (activeMission s) (currentAgent s)
    (currentPhase s) (status s) (startedAt s) (title s) n
    (lastActivity s) (contextBracket s) (tokens s) (costUsd s) (events s).

Definition with_contextBracket (s : SessionState) (b : ContextBracket) : SessionState :=
  mkSession (sessionId s) (workflowId s) (activeMission s) (currentAgent s)
    (currentPhase s) (status s) (startedAt s) (title s) (promptCount s)
    (lastActivity s) b (tokens s) (costUsd s) (events s).

Definition with_metrics (s : SessionState) (tk : Z) (cost : Q) : SessionState :=
  mkSession (sessionId s) (workflowId s) (activeMission s) (currentAgent s)
    (currentPhase s) (status s) (startedAt s) (title s) (promptCount s)
    (lastActivity s) (contextBracket s) tk cost (events s).

(** [session.events.push(e)] *)
Definition push_event (s : SessionState) (e : SessionEvent) : SessionState :=
  with_events s (events s ++ [e]).

(** ** JavaScript array helpers *)

Module Js.

(** [arr.slice(start)] for an integral [start]: a negative [start] counts
    from the end and is clamped at 0, a non-negative one is clamped at the
    length.  (JavaScript's [-0] is [0]: [slice(-0)] is the whole array.) *)
Definition slice_from {A} (start : Z) (arr : list A) : list A :=
  let len := Z.of_nat (length arr) in
  let k := if start <? 0 then Z.max (len + start) 0 else Z.min start len in
  drop (Z.to_nat k) arr.

(** [arr.indexOf(x)], [-1] when absent. *)
Fixpoint indexOf {A} (eqb : A -> A -> bool) (x : A) (arr : list A) : Z :=
  match arr with
  | [] => -1
  | y :: rest =>
      if eqb y x then 0
      else let i := indexOf eqb x rest in if i <? 0 then -1 else i + 1
  end.

(** [arr.splice(start, 1)], the array left behind: a negative [start]
    counts from the end (so [splice(-1, 1)] drops the last element). *)
Definition splice1 {A} (start : Z) (arr : list A) : list A :=
  let len := Z.of_nat (length arr) in
  let k := if start <? 0 then Z.max (len + start) 0 else Z.min start len in
  take (Z.to_nat k) arr ++ drop (S (Z.to_nat k)) arr.

(** [arr.findIndex(p)], [-1] when no element satisfies [p]. *)
Fixpoint findIndex {A} (p : A -> bool) (arr : list A) : Z :=
  match arr with
  | [] => -1
  | y :: rest =>
      if p y then 0
      else let i := findIndex p rest in if i <? 0 then -1 else i + 1
  end.

End Js.

(** ** Session store ([core/session-store.ts]) *)

Module SessionStore.

(** [maxEvents || 200]: [undefined] and [0] both fall back to 200. *)
Definition limit_of (maxEvents : option Z) : Z :=
  match maxEvents with
  | None => 200
  | Some n => if n =? 0 then 200 else n
  end.

(** The in-memory part of [save]: the event log is trimmed before the
    record is serialised.  [events[0]] of an empty array is [undefined]:
    with an empty log and a negative limit the source builds the array
    [[undefined]], which is no list of events; that outcome is [None]. *)
Definition trim_events (evs : list SessionEvent) (maxEvents : option Z)
  : option (list SessionEvent) :=
  let limit := limit_of maxEvents in
  if Z.of_nat (length evs) >? limit then
    match evs with
    | first :: _ => Some (first :: Js.slice_from (- (limit - 1)) evs)
    | [] => None
    end
  else Some evs.

(** [save(session, maxEvents)]: returns the mutated session object and the
    sessions directory with the record written under its id. *)
Definition save (dir : gmap string SessionState) (session : SessionState)
    (maxEvents : option Z) : option (SessionState * gmap string SessionState) :=
  match trim_events (events session) maxEvents with
  | Some evs =>
      let session' := with_events session evs in
      Some (session', <[sessionId session' := session']> dir)
  | None => None
  end.

End SessionStore.

(** ** Session manager ([core/session-manager.ts]) *)

Module SessionManager.

Definition DEFAULT_CRASH_MINUTES : Q := 30.

(** [detectCrashedSession(session, crashMinutes = 30)].  [now] is
    [Date.now()]; [Math.floor(elapsed / 60_000)] is [Z.div], which rounds
    towards minus infinity for a positive divisor.  [crashMinutes] is any
    finite number (the configuration schema says [z.number()]), so it is a
    rational here, and [minutes < crashMinutes] compares the whole minutes
    with it.  The function reads the session and returns a fresh
    [CrashInfo] or [null]; it assigns to no field of [session]. *)
Definition detectCrashedSession (now : Z) (session : SessionState)
    (crashMinutes : option Q) : option CrashInfo :=
  let crashMinutes := default DEFAULT_CRASH_MINUTES crashMinutes in
  if existsb (SessionStatus_eqb (status session)) [completed; paused; failed; idle]
  then None
  else
    let lastActivity :=
      match lastActivity session with
      | Some t => t
      | None => startedAt session
      end in
    let elapsed := now - lastActivity in
    let minutes := elapsed / 60000 in
    if negb (Qle_bool crashMinutes (inject_Z minutes)) then None
    else Some {| ci_sessionId := sessionId session;
                 ci_lastActivity := lastActivity;
                 minutesSinceActivity := minutes;
                 lastPhase := currentPhase session;
                 lastAgent := currentAgent session |}.

End SessionManager.

(** ** Context tracker ([core/context-tracker.ts]) *)

Module ContextTracker.

(** *** Token estimation *)

(** A JavaScript string is a sequence of UTF-16 code units; the regular
    expressions of the source carry no [u] flag and so work on code units. *)
Definition jsString := list Z.

Definition in_range (lo hi c : Z) : bool := (lo <=? c) && (c <=? hi).

Definition is_upper (c : Z) : bool := in_range 65 90 c.    (* [A-Z] *)
Definition is_lower (c : Z) : bool := in_range 97 122 c.   (* [a-z] *)
Definition is_digit (c : Z) : bool := in_range 48 57 c.    (* \d *)
Definition is_word (c : Z) : bool :=                       (* [a-zA-Z0-9_] *)
  is_lower c || is_upper c || is_digit c || (c =? 95).
Definition is_non_ascii (c : Z) : bool := negb (in_range 0 127 c).

(** [\s]: tab, LF, VT, FF, CR, space, NBSP, U+1680, U+2000..U+200A,
    U+2028, U+2029, U+202F, U+205F, U+3000, U+FEFF. *)
Definition is_space (c : Z) : bool :=
  in_range 9 13 c || (c =? 32) || (c =? 160) || (c =? 5760)
  || in_range 8192 8202 c || (c =? 8232) || (c =? 8233) || (c =? 8239)
  || (c =? 8287) || (c =? 12288) || (c =? 65279).

(** [Math.ceil(n / d)] on a length [n] and a small positive [d]. *)
Definition ceil_div (n d : Z) : Z := (n + d - 1) / d.

Definition len (s : jsString) : Z := Z.of_nat (length s).

Definition is_empty (s : jsString) : bool :=
  match s with [] => true | _ => false end.

(** [text.split('\n')]; [cur] is the piece being read. *)
Fixpoint split_newline (cur s : jsString) : list jsString :=
  match s with
  | [] => [cur]
  | c :: s' =>
      if c =? 10 then cur :: split_newline [] s'
      else split_newline (cur ++ [c]) s'
  end.

(** [line.split(/(\s+)/)]: the pieces between whitespace runs alternate
    with the captured runs themselves; a line that starts (ends) with
    whitespace yields an empty first (last) piece.  [inWs] tells whether
    [cur] is a whitespace run. *)
Fixpoint split_spaces (inWs : bool) (cur s : jsString) : list jsString :=
  match s with
  | [] => if inWs then [cur; []] else [cur]
  | c :: s' =>
      if is_space c then
        if inWs then split_spaces true (cur ++ [c]) s'
        else cur :: split_spaces true [c] s'
      else
        if inWs then cur :: split_spaces false [c] s'
        else split_spaces false (cur ++ [c]) s'
  end.

(** [seg.split(/([^a-zA-Z0-9_])/)]: every character outside the word class
    is a separator and is captured as a piece of its own. *)
Fixpoint split_punct (cur s : jsString) : list jsString :=
  match s with
  | [] => [cur]
  | c :: s' =>
      if is_word c then split_punct (cur ++ [c]) s'
      else cur :: [c] :: split_punct [] s'
  end.

(** [word.split(/(?=[A-Z][a-z])/)]: cut before an upper-case letter that a
    lower-case letter follows; an empty match at the start of the current
    piece is skipped by [split], so no piece is empty. *)
Fixpoint split_camel (cur s : jsString) : list jsString :=
  match s with
  | [] => [cur]
  | c :: s' =>
      if negb (is_empty cur) && is_upper c
         && match s' with d :: _ => is_lower d | [] => false end
      then cur :: split_camel [c] s'
      else split_camel (cur ++ [c]) s'
  end.

(** [word.split('_')] *)
Fixpoint split_underscore (cur s : jsString) : list jsString :=
  match s with
  | [] => [cur]
  | c :: s' =>
      if c =? 95 then cur :: split_underscore [] s'
      else split_underscore (cur ++ [c]) s'
  end.

(** [.filter(Boolean)] on strings drops the empty ones. *)
Definition filter_nonempty (l : list jsString) : list jsString :=
  List.filter (fun s => negb (is_empty s)) l.

(** [(sum, part) => sum + (part.length <= 6 ? 1 : Math.ceil(part.length / 5))] *)
Definition subword_sum (parts : list jsString) : Z :=
  fold_left (fun sum part =>
               sum + (if len part <=? 6 then 1 else ceil_div (len part) 5))
            parts 0.

Definition estimateWordTokens (word : jsString) : Z :=
  if is_empty word then 0
  else
    let n := len word in
    if n <=? 3 then 1
    else if n <=? 6 then 1
    else
      let camelParts := filter_nonempty (split_camel [] word) in
      if Z.of_nat (length camelParts) >? 1 then subword_sum camelParts
      else if existsb (Z.eqb 95) word then
        subword_sum (filter_nonempty (split_underscore [] word))
      else if n <=? 10 then 2
      else ceil_div n 5.

(** One [part] of the inner loop of [estimateTokens], added to the running
    total [tokens]. *)
Definition add_part (tokens : Z) (part : jsString) : Z :=
  if is_empty part then tokens
  else if (len part =? 1) && existsb (fun c => negb (is_word c)) part then
    tokens + 1
  else if forallb is_digit part then
    tokens + Z.max 1 (ceil_div (len part) 3)
  else
    let nonAsciiCount := len (List.filter is_non_ascii part) in
    if nonAsciiCount >? 0 then
      let asciiPart := List.filter (fun c => negb (is_non_ascii c)) part in
      let tokens := tokens + nonAsciiCount * 2 in
      if len asciiPart >? 0 then tokens + estimateWordTokens asciiPart
      else tokens
    else tokens + estimateWordTokens part.

(** One [seg] of the middle loop. *)
Definition add_segment (tokens : Z) (seg : jsString) : Z :=
  if is_empty seg then tokens
  else if forallb is_space seg then
    tokens + Z.max 1 (ceil_div (len seg) 4)
  else fold_left add_part (split_punct [] seg) tokens.

(** One [line] of the outer loop. *)
Definition add_line (tokens : Z) (line : jsString) : Z :=
  fold_left add_segment (split_spaces false [] line) tokens.

(** [estimateTokens(text)].  The total is an integer, so the final
    [Math.ceil] leaves it as it is. *)
Definition estimateTokens (text : jsString) : Z :=
  if is_empty text then 0
  else
    let lines := split_newline [] text in
    let tokens := Z.of_nat (length lines) - 1 in
    fold_left add_line lines tokens.

(** *** Context brackets *)

Record BracketConfig : Type := mkBracket {
  bracket : ContextBracket;
  minPercent : Q;
  maxPercent : Q;
  tokenBudget : Z;
  includeSessionHistory : bool;
  includeArtifactIndex : bool;
  includeGotchas : bool;
  handoffWarning : bool
}.

Definition FRESH_CONFIG    := mkBracket FRESH    60 100 4000  false false false false.
Definition MODERATE_CONFIG := mkBracket MODERATE 40 60  6000  true  true  false false.
Definition DEPLETED_CONFIG := mkBracket DEPLETED 25 40  8000  true  true  true  false.
Definition CRITICAL_CONFIG := mkBracket CRITICAL 0  25  10000 true  true  true  true.

Definition BRACKET_CONFIGS : list BracketConfig :=
  [FRESH_CONFIG; MODERATE_CONFIG; DEPLETED_CONFIG; CRITICAL_CONFIG].

Definition DEFAULT_MAX_CONTEXT : Q := 200000.
Definition TOKENS_PER_ROUND : Q := 3500.

(** [estimateContextPercent(promptCount, maxContext = 200_000)].  The
    source computes in IEEE doubles; the embedding computes the same
    expression in exact rationals.  The two differ by the rounding of the
    product, the quotient and the difference, which can move a value that
    lies within a rounding error of a bracket boundary onto it, and at
    [maxContext = 0], where the source divides by zero (the quotient is
    an infinity or NaN) and the rational quotient is [0].  The properties
    below that relate the result to [promptCount] and [maxContext] assume
    a positive window and stay away from the boundaries. *)
Definition estimateContextPercent (promptCount : Q) (maxContext : option Q) : Q :=
  let maxContext := default DEFAULT_MAX_CONTEXT maxContext in
  let usedTokens := (promptCount * TOKENS_PER_ROUND)%Q in
  Qmax 0 (Qmin 100 (100 - (usedTokens / maxContext) * 100))%Q.

(** [percent >= config.minPercent && percent <= config.maxPercent] *)
Definition contains (percent : Q) (config : BracketConfig) : bool :=
  Qle_bool (minPercent config) percent && Qle_bool percent (maxPercent config).

(** The loop of [getBracket] over [[...BRACKET_CONFIGS].reverse()], with
    its fall-through [return BRACKET_CONFIGS[0]]. *)
Definition bracket_for (percent : Q) : BracketConfig :=
  match List.find (contains percent) (rev BRACKET_CONFIGS) with
  | Some config => config
  | None => nth 0 BRACKET_CONFIGS FRESH_CONFIG
  end.

Definition getBracket (promptCount : Q) (maxContext : option Q) : BracketConfig :=
  let percent := estimateContextPercent promptCount maxContext in
  bracket_for percent.

(** *** Token budget enforcement *)

(** [PromptSection].  [priority] takes the values of [SectionPriority]
    (0 = protected, larger = removed earlier) and [tokens] is a count
    produced by [estimateTokens]; both are natural numbers. *)
Record PromptSection : Type := mkSection {
  sec_name : string;
  sec_content : string;
  priority : N;
  sec_tokens : N
}.

(** The array handed to [enforceTokenBudget] holds object references and
    the loop compares them with [!==]; a section is therefore a reference
    into a heap of section objects, and one object may occur twice. *)
Definition ref := nat.
Definition Heap := ref -> PromptSection.

Section Budget.
Variable heap : Heap.

(** [sections.reduce((sum, s) => sum + s.tokens, 0)] *)
Definition total_tokens (sections : list ref) : Z :=
  fold_left (fun sum s => sum + Z.of_N (sec_tokens (heap s))) sections 0.

(** [.sort((a, b) => b.priority - a.priority)]: descending priority;
    [Array.prototype.sort] is stable, so equal priorities keep their
    order.  Written as the stable insertion sort. *)
Fixpoint insert_desc (x : ref) (sorted : list ref) : list ref :=
  match sorted with
  | [] => [x]
  | y :: rest =>
      if (priority (heap x) <? priority (heap y))%N
      then y :: insert_desc x rest
      else x :: sorted
  end.

Definition sort_desc (l : list ref) : list ref :=
  fold_right insert_desc [] l.

(** The [for (const toRemove of removable)] loop with its state
    [remaining], [currentTokens]. *)
Fixpoint removal_loop (budget : Z) (removable remaining : list ref)
    (currentTokens : Z) : list ref :=
  match removable with
  | [] => remaining
  | toRemove :: rest =>
      if currentTokens <=? budget then remaining
      else
        removal_loop budget rest
          (List.filter (fun s => negb (Nat.eqb s toRemove)) remaining)
          (currentTokens - Z.of_N (sec_tokens (heap toRemove)))
  end.

Definition enforceTokenBudget (sections : list ref) (budget : Z) : list ref :=
  let totalTokens := total_tokens sections in
  if totalTokens <=? budget then sections
  else
    let removable :=
      sort_desc (List.filter (fun s => (0 <? priority (heap s))%N) sections) in
    removal_loop budget removable sections totalTokens.
End Budget.

End ContextTracker.

(** ** JavaScript string helpers (ASCII) *)

Module JsString.

Definition lower_ascii (c : Ascii.ascii) : Ascii.ascii :=
  let n := Ascii.nat_of_ascii c in
  if ((65 <=? n) && (n <=? 90))%nat then Ascii.ascii_of_nat (n + 32) else c.

(** [s.toLowerCase()] on ASCII text. *)
Fixpoint toLowerCase (s : string) : string :=
  match s with
  | EmptyString => EmptyString
  | String c rest => String (lower_ascii c) (toLowerCase rest)
  end.

(** [hay.includes(needle)] *)
Fixpoint includes (needle hay : string) : bool :=
  String.prefix needle hay
  || match hay with
     | EmptyString => false
     | String _ rest => includes needle rest
     end.

Fixpoint drop_chars (n : nat) (s : string) : string :=
  match n, s with
  | S n', String _ rest => drop_chars n' rest
  | _, _ => s
  end.

(** [s.replace(needle, '')]: the first occurrence is removed. *)
Fixpoint remove_first (needle s : string) : string :=
  if String.prefix needle s then drop_chars (String.length needle) s
  else match s with
       | EmptyString => EmptyString
       | String c rest => String c (remove_first needle rest)
       end.

(** A string is truthy when it is not empty. *)
Definition truthy (s : string) : bool :=
  match s with EmptyString => false | _ => true end.

(** An integer inside a template literal: its decimal digits, with a
    minus sign when negative. *)
Definition of_int (n : Z) : string :=
  DecimalString.NilZero.string_of_int (Z.to_int n).

End JsString.

(** ** Session continuity ([core/session-continuity.ts]) *)

Module SessionContinuity.

(** The handoff document, kept as the values interpolated into the
    template of [generateContinueHere] rather than as rendered text. *)
Record Handoff : Type := mkHandoff {
  h_session_id : string;
  h_workflow : string;
  h_phase : string;
  h_agent : string;
  h_timestamp : Z;
  h_reason : string;
  h_completed : list (string * string * option Z);  (* id, agent, duration ms *)
  h_remaining : list (string * string);             (* name, agent *)
  h_tokens : Z;
  h_cost : Q;
  h_events : nat;
  h_next : option (string * string * string)        (* name, agent, task *)
}.

Definition data_str (e : SessionEvent) (key : string) : option string :=
  match List.find (fun kv => String.eqb (fst kv) key) (ev_data e) with
  | Some (_, JStr v) => Some v
  | _ => None
  end.

Definition is_completion (e : SessionEvent) : bool :=
  String.eqb (ev_type e) "PHASE_COMPLETE"
  || (String.eqb (ev_type e) "STEP_COMPLETE"
      && match data_str e "status" with
         | Some v => String.eqb v "completed"
         | None => false
         end).

(** [e.phase || e.data?.step], then [.filter(Boolean)] *)
Definition completion_id (e : SessionEvent) : option string :=
  match ev_phase e with
  | Some p => if JsString.truthy p then Some p else data_str e "step"
  | None => data_str e "step"
  end.

Definition completedPhases (evs : list SessionEvent) : list string :=
  flat_map (fun e => match completion_id e with
                     | Some p => if JsString.truthy p then [p] else []
                     | None => []
                     end)
           (List.filter is_completion evs).

Definition str_in (x : string) (l : list string) : bool :=
  existsb (String.eqb x) l.

Definition phase_is (id : string) (e : SessionEvent) : bool :=
  match ev_phase e with Some p => String.eqb p id | None => false end.

Definition duration_of (evs : list SessionEvent) (id : string) : option Z :=
  let startEv := List.find (fun e => String.eqb (ev_type e) "PHASE_START" && phase_is id e) evs in
  let endEv :=
    List.find (fun e =>
      (String.eqb (ev_type e) "PHASE_COMPLETE" || String.eqb (ev_type e) "STEP_COMPLETE")
      && (phase_is id e
          || match data_str e "step" with Some v => String.eqb v id | None => false end))
      evs in
  match startEv, endEv with
  | Some a, Some b => Some (ev_timestamp b - ev_timestamp a)
  | _, _ => None
  end.

(** The document [generateContinueHere(session, workflow, dir, reason)]
    writes to [state/.handoff.md]. *)
Definition generateContinueHere (now : Z) (session : SessionState)
    (workflow : WorkflowDefinition) (reason : string) : Handoff :=
  let evs := events session in
  let done := completedPhases evs in
  {| h_session_id := sessionId session;
     h_workflow := workflowId session;
     h_phase := currentPhase session;
     h_agent := currentAgent session;
     h_timestamp := now;
     h_reason := reason;
     h_completed :=
       map (fun p => (ph_id p, ph_agent p, duration_of evs (ph_id p)))
           (List.filter (fun p => str_in (ph_id p) done) (phases workflow));
     h_remaining :=
       map (fun p => (ph_name p, ph_agent p))
           (List.filter (fun p => negb (str_in (ph_id p) done)) (phases workflow));
     h_tokens := tokens session;
     h_cost := costUsd session;
     h_events := length evs;
     h_next :=
       match List.find (fun p => String.eqb (ph_id p) (currentPhase session))
                       (phases workflow) with
       | Some p => Some (ph_name p, ph_agent p, ph_task p)
       | None => None
       end |}.

End SessionContinuity.

(** ** Workflow engine ([core/workflow-engine.ts]) *)

Module WorkflowEngine.

Import SessionContinuity.

(** *** External collaborators and the world the engine acts on

    The prompt compiler, the model resolver and the executor are given by
    an environment; the file system is a record of the files the engine
    writes.  Two collaborators may throw: [executor.run], whose exception
    [executePrompt] catches, and [compiler.compile], which rejects when
    the agent or the task file of a phase is missing and whose exception
    nothing catches, so that it leaves [preparePhase] and the function
    that called it.  The file system itself does not fail. *)

(** How an awaited call ends: with a value, or by throwing. *)
Inductive Settled (A : Type) : Type :=
  | Fulfilled (a : A)
  | Rejected (reason : string).

Arguments Fulfilled {A} a.
Arguments Rejected {A} reason.

(** What one call of [executor.run] does. *)
Inductive RunOutcome : Type :=
  | Returns (r : RunnerResult)
  | Throws (message : string).

Record Env : Type := mkEnv {
  crash_detection_minutes : Q;       (* config.settings.session *)
  maxCtx : Q;                        (* getMaxContextForRunner(config.project.runner) *)
  executor_manual : bool;            (* createExecutor(runner).name === 'manual' *)
  executor_run : nat -> RunOutcome;  (* outcome of the k-th call of executor.run *)
  compile_prompt : string -> string -> Settled string;
                                     (* agentId, taskId: the prompt path *)
  resolved_model : string -> option string      (* resolveModel(..., agent, ...) *)
}.

Inductive Effect : Type :=
  | ESleep (ms : Z)                  (* setTimeout(r, backoffMs) *)
  | ERun (promptPath : string)       (* executor.run(promptPath, ...) *)
  | ECompile (agentId taskId : string)
  | EGotcha (message : string)       (* gotchas.recordError *)
  | EHook (name : string).           (* hooks.emit *)

Record DashboardEntry : Type := mkDashboardEntry {
  d_mission : string;
  d_title : option string;
  d_status : SessionStatus;
  d_agent : string;
  d_phase : string;
  d_bracket : ContextBracket;
  d_promptCount : Z;
  d_tokens : Z;
  d_cost : Q;
  d_lastUpdate : Z
}.

Record Decision : Type := mkDecision {
  dec_title : string;
  dec_context : string;
  dec_decision : string;
  dec_agent : string;
  dec_sessionId : string;
  dec_phase : option string
}.

Record World : Type := mkWorld {
  now : Z;                                  (* the clock [new Date()] reads *)
  session : SessionState;                   (* the session object all helpers share *)
  sessions : gmap string SessionState;      (* state/sessions/<id>.json *)
  dashboard : gmap string DashboardEntry;   (* state/dashboard.json *)
  handoff : option Handoff;                 (* state/.handoff.md *)
  decisions : list Decision;                (* state/decisions.yaml *)
  runs : nat;                               (* calls of executor.run so far *)
  trace : list Effect
}.

(** State passing with failure: [None] stands for an outcome outside the
    model (an ill-formed event log, or the recursion bound reached). *)
Definition M (A : Type) : Type := World -> option (A * World).

Definition ret {A} (a : A) : M A := fun w => Some (a, w).

Definition bind {A B} (m : M A) (k : A -> M B) : M B :=
  fun w => match m w with
           | Some (a, w') => k a w'
           | None => None
           end.

Definition fail {A} : M A := fun _ => None.

Notation "'do' x <- m ; k" := (bind m (fun x => k))
  (at level 10, x name, m at level 100, k at level 200).
Notation "'exec' m ; k" := (bind m (fun _ => k))
  (at level 10, m at level 100, k at level 200).

Definition get_session : M SessionState := fun w => Some (session w, w).
Definition get_now : M Z := fun w => Some (now w, w).

Definition modify_session (f : SessionState -> SessionState) : M unit :=
  fun w => Some (tt, mkWorld (now w) (f (session w)) (sessions w) (dashboard w)
                       (handoff w) (decisions w) (runs w) (trace w)).

Definition emit (e : Effect) : M unit :=
  fun w => Some (tt, mkWorld (now w) (session w) (sessions w) (dashboard w)
                       (handoff w) (decisions w) (runs w) (trace w ++ [e])).

(** [await new Promise(r => setTimeout(r, ms))] *)
Definition sleep (ms : Z) : M unit :=
  fun w => Some (tt, mkWorld (now w + ms) (session w) (sessions w) (dashboard w)
                       (handoff w) (decisions w) (runs w) (trace w ++ [ESleep ms])).

(** [this.store.save(session)]: no [maxEvents] is ever passed here. *)
Definition store_save : M unit :=
  fun w => match SessionStore.save (sessions w) (session w) None with
           | Some (s', dir') =>
               Some (tt, mkWorld (now w) s' dir' (dashboard w)
                           (handoff w) (decisions w) (runs w) (trace w))
           | None => None
           end.

(** [this.store.updateDashboard(session)] *)
Definition store_updateDashboard : M unit :=
  fun w =>
    let s := session w in
    let entry := mkDashboardEntry (activeMission s) (title s) (status s)
                   (currentAgent s) (currentPhase s) (contextBracket s)
                   (promptCount s) (tokens s) (costUsd s) (now w) in
    Some (tt, mkWorld (now w) s (sessions w) (<[sessionId s := entry]> (dashboard w))
                (handoff w) (decisions w) (runs w) (trace w)).

(** [generateContinueHere(session, workflow, this.agentosDir, reason)] *)
Definition write_handoff (workflow : WorkflowDefinition) (reason : string) : M unit :=
  fun w =>
    let doc := generateContinueHere (now w) (session w) workflow reason in
    Some (tt, mkWorld (now w) (session w) (sessions w) (dashboard w)
                (Some doc) (decisions w) (runs w) (trace w)).

(** [this.decisions.record(entry)], which itself emits [decision:recorded]. *)
Definition decisions_record (d : Decision) : M unit :=
  fun w => Some (tt, mkWorld (now w) (session w) (sessions w) (dashboard w)
                       (handoff w) (decisions w ++ [d]) (runs w)
                       (trace w ++ [EHook "decision:recorded"])).

(** [executor.run(promptPath, this.baseDir, phase.timeoutMs, model)] *)
Definition call_executor (env : Env) (promptPath : string) : M RunOutcome :=
  fun w => Some (executor_run env (runs w),
                 mkWorld (now w) (session w) (sessions w) (dashboard w)
                   (handoff w) (decisions w) (S (runs w))
                   (trace w ++ [ERun promptPath])).

(** *** Completed phases and wave planning *)

Definition is_phase_complete (e : SessionEvent) : bool :=
  String.eqb (ev_type e) "PHASE_COMPLETE".

(** [session.events.filter(e => e.type === 'PHASE_COMPLETE').map(e => e.phase)] *)
Definition completedPhases (evs : list SessionEvent) : list (option string) :=
  map ev_phase (List.filter is_phase_complete evs).

(** [completedPhases.includes(id)] (and [has(id)] on the set built from
    the same array): an [undefined] entry equals no phase id. *)
Definition includes (done : list (option string)) (id : string) : bool :=
  existsb (fun o => match o with
                    | Some x => String.eqb x id
                    | None => false
                    end) done.

#[export] Instance Gate_eq_dec : EqDecision Gate.
Proof. solve_decision. Defined.

#[export] Instance WorkflowPhase_eq_dec : EqDecision WorkflowPhase.
Proof. solve_decision. Defined.

(** Elements of [remaining] are compared by [indexOf] as object
    references.  Every [p] looked up is an element of [wave], a filtered
    copy of [remaining] in the same order, and all copies of a phase with
    equal fields pass or fail the filter together; the first element equal
    to [p] field by field is thus the one the source removes. *)
Definition same_phase (a b : WorkflowPhase) : bool := bool_decide (a = b).

Definition deps (p : WorkflowPhase) : list string :=
  default [] (ph_dependsOn p).

(** [deps.every(d => completed.has(d))] *)
Definition eligible (completed : gset string) (p : WorkflowPhase) : bool :=
  forallb (fun d => bool_decide (d ∈ completed)) (deps p).

(** [for (const p of wave) { completed.add(p.id); remaining.splice(remaining.indexOf(p), 1); }] *)
Fixpoint take_wave (wave : list WorkflowPhase) (completed : gset string)
    (remaining : list WorkflowPhase) : gset string * list WorkflowPhase :=
  match wave with
  | [] => (completed, remaining)
  | p :: wave' =>
      take_wave wave' ({[ph_id p]} ∪ completed)
        (Js.splice1 (Js.indexOf same_phase p remaining) remaining)
  end.

(** The [while (remaining.length > 0)] loop.  The second component tells
    whether the circular-dependency warning was printed. *)
Fixpoint waves_loop (fuel : nat) (completed : gset string)
    (remaining : list WorkflowPhase) (waves : list (list WorkflowPhase))
  : option (list (list WorkflowPhase) * bool) :=
  match remaining with
  | [] => Some (waves, false)
  | _ :: _ =>
      match fuel with
      | O => None
      | S fuel' =>
          let wave := List.filter (eligible completed) remaining in
          if (length wave =? 0)%nat then
            Some (waves ++ map (fun p => [p]) remaining, true)
          else
            let '(completed', remaining') := take_wave wave completed remaining in
            waves_loop fuel' completed' remaining' (waves ++ [wave])
      end
  end.

Definition calculateWaves (phs : list WorkflowPhase)
  : option (list (list WorkflowPhase) * bool) :=
  waves_loop (length phs) ∅ phs [].

(** [workflow.phases.some(p => p.dependsOn && p.dependsOn.length > 0)] *)
Definition hasDependsOn (workflow : WorkflowDefinition) : bool :=
  existsb (fun p => match ph_dependsOn p with
                    | Some (_ :: _) => true
                    | _ => false
                    end) (phases workflow).

(** *** Shared helpers of the phase lifecycle *)

Definition bracket_name (b : ContextBracket) : string :=
  match b with
  | FRESH => "FRESH" | MODERATE => "MODERATE"
  | DEPLETED => "DEPLETED" | CRITICAL => "CRITICAL"
  end.

(** [preparePhase]: returns [promptPath] and [model], or throws what
    [compiler.compile] throws, after the PHASE_START event has been saved
    and [step:start] emitted. *)
Definition preparePhase (env : Env) (phase : WorkflowPhase)
  : M (Settled (string * option string)) :=
  do t <- get_now;
  exec modify_session (fun s =>
    let s := with_current s (ph_agent phase) (ph_id phase) in
    let s := with_promptCount s (promptCount s + 1) in
    let s := with_lastActivity s t in
    let b := ContextTracker.getBracket (inject_Z (promptCount s)) (Some (maxCtx env)) in
    let s := with_contextBracket s (ContextTracker.bracket b) in
    push_event s
      (mkEvent t "PHASE_START" (ph_agent phase) (Some (ph_id phase))
         [("name", JStr (ph_name phase)); ("task", JStr (ph_task phase));
          ("bracket", JStr (bracket_name (ContextTracker.bracket b)))]));
  exec store_save;
  exec emit (EHook "step:start");
  let taskId := JsString.remove_first ".yaml" (JsString.remove_first ".md" (ph_task phase)) in
  exec emit (ECompile (ph_agent phase) taskId);
  match compile_prompt env (ph_agent phase) taskId with
  | Fulfilled promptPath =>
      ret (Fulfilled (promptPath, resolved_model env (ph_agent phase)))
  | Rejected reason => ret (Rejected reason)
  end.

(** A phase id between double quotes, as the templates print it. *)
Definition quoted (s : string) : string :=
  let dq := String (Ascii.ascii_of_nat 34) EmptyString in
  dq ++ s ++ dq.

Definition pauseAtGate (phase : WorkflowPhase) (workflow : WorkflowDefinition) : M unit :=
  do t <- get_now;
  exec modify_session (fun s =>
    push_event (with_status s paused)
      (mkEvent t "GATE_PAUSE" (ph_agent phase) (Some (ph_id phase))
         [("gate", JStr "user_approval")]));
  exec store_save;
  exec store_updateDashboard;
  exec write_handoff workflow "paused (gate: user_approval)";
  exec emit (EHook "session:pause");
  do s <- get_session;
  decisions_record
    (mkDecision ("Gate: " ++ ph_name phase)
       ("Phase " ++ quoted (ph_id phase) ++ " requires user approval before proceeding.")
       "Paused for user approval" (ph_agent phase) (sessionId s) (Some (ph_id phase))).

(** [result.error?.slice(0, n)] inside a template literal. *)
Definition error_excerpt (n : nat) (result : RunnerResult) : string :=
  match error result with
  | Some e => String.substring 0 n e
  | None => "undefined"
  end.

Definition handlePhaseFailed (phase : WorkflowPhase) (workflow : WorkflowDefinition)
    (result : RunnerResult) : M unit :=
  do t <- get_now;
  exec modify_session (fun s =>
    push_event (with_status s failed)
      (mkEvent t "PHASE_FAILED" (ph_agent phase) (Some (ph_id phase))
         [("error", match error result with Some e => JStr e | None => JUndefined end);
          ("exitCode", JInt (exitCode result))]));
  exec store_save;
  exec store_updateDashboard;
  exec write_handoff workflow
         ("failed at phase " ++ ph_id phase ++ ": " ++ error_excerpt 100 result);
  exec emit (EHook "step:failed");
  do s <- get_session;
  decisions_record
    (mkDecision ("Failed: " ++ ph_name phase)
       ("Phase " ++ quoted (ph_id phase) ++ " failed with exit code "
        ++ JsString.of_int (exitCode result) ++ ".")
       ("Stopped execution. Error: "
        ++ match error result with
           | Some e => if JsString.truthy (String.substring 0 200 e)
                       then String.substring 0 200 e else "unknown"
           | None => "unknown"
           end)
       (ph_agent phase) (sessionId s) (Some (ph_id phase))).

Definition completePhase (phase : WorkflowPhase) (result : RunnerResult) : M unit :=
  do t <- get_now;
  exec modify_session (fun s =>
    push_event s
      (mkEvent t "PHASE_COMPLETE" (ph_agent phase) (Some (ph_id phase))
         [("tokens", JInt (tokensUsed result)); ("cost", JNum (rr_costUsd result));
          ("durationMs", JInt (durationMs result))]));
  exec store_save;
  exec store_updateDashboard;
  emit (EHook "step:complete").

Definition executePrompt (env : Env) (promptPath : string) (phase : WorkflowPhase)
  : M RunnerResult :=
  if executor_manual env then
    ret (mkResult EmptyString 0 0 0 None 0)
  else
    do outcome <- call_executor env promptPath;
    match outcome with
    | Returns result =>
        do t <- get_now;
        exec modify_session (fun s =>
          with_lastActivity
            (with_metrics s (tokens s + tokensUsed result)
                            (costUsd s + rr_costUsd result)%Q) t);
        exec (if exitCode result =? 0 then ret tt
              else match error result with
                   | Some e => if JsString.truthy e then emit (EGotcha e) else ret tt
                   | None => ret tt
                   end);
        ret result
    | Throws errorMsg =>
        exec emit (EGotcha errorMsg);
        ret (mkResult EmptyString 1 0 0 (Some errorMsg) 0)
    end.

(** [Math.min(1000 * Math.pow(2, attempt - 1), 30_000)] *)
Definition backoffMs (attempt : Z) : Z :=
  Z.min (1000 * 2 ^ (attempt - 1)) 30000.

(** The [do { ... } while (result.exitCode !== 0 && attempt <= maxRetries)]
    loop of [executeWithRetry]; [fuel] bounds the number of iterations. *)
Fixpoint retry_loop (fuel : nat) (env : Env) (promptPath : string)
    (phase : WorkflowPhase) (maxRetries attempt : Z) : M RunnerResult :=
  match fuel with
  | O => fail
  | S fuel' =>
      exec (if attempt >? 0 then sleep (backoffMs attempt) else ret tt);
      do result <- executePrompt env promptPath phase;
      let attempt := attempt + 1 in
      if negb (exitCode result =? 0) && (attempt <=? maxRetries)
      then retry_loop fuel' env promptPath phase maxRetries attempt
      else ret result
  end.

Definition executeWithRetry (env : Env) (promptPath : string) (phase : WorkflowPhase)
  : M RunnerResult :=
  let maxRetries := ph_retry phase in
  retry_loop (S (Z.to_nat maxRetries)) env promptPath phase maxRetries 0.

(** *** Linear execution *)

(** [workflow.phases[phaseIndex]] *)
Definition phase_at (workflow : WorkflowDefinition) (phaseIndex : Z)
  : option WorkflowPhase :=
  if phaseIndex <? 0 then None else phases workflow !! Z.to_nat phaseIndex.

(** [workflow.phases.findIndex(p => p.id === id)] *)
Definition index_of_id (workflow : WorkflowDefinition) (id : string) : Z :=
  Js.findIndex (fun p => String.eqb (ph_id p) id) (phases workflow).

(** Decision routing: the first entry of [phase.decision] whose key occurs
    in the output (both lower-cased) and whose target phase exists. *)
Definition decided_index (workflow : WorkflowDefinition) (phase : WorkflowPhase)
    (result : RunnerResult) : option Z :=
  match ph_decision phase with
  | Some entries =>
      if JsString.truthy (output result) then
        match List.find (fun kv =>
                 JsString.includes (JsString.toLowerCase (fst kv))
                                   (JsString.toLowerCase (output result))
                 && (0 <=? index_of_id workflow (snd kv))) entries with
        | Some kv => Some (index_of_id workflow (snd kv))
        | None => None
        end
      else None
  | None => None
  end.

(** [phase.next] when it names an existing phase. *)
Definition next_index (workflow : WorkflowDefinition) (phase : WorkflowPhase)
  : option Z :=
  match ph_next phase with
  | Some nextPhaseId =>
      if JsString.truthy nextPhaseId && (0 <=? index_of_id workflow nextPhaseId)
      then Some (index_of_id workflow nextPhaseId)
      else None
  | None => None
  end.

Definition is_user_approval (phase : WorkflowPhase) : bool :=
  match ph_gate phase with
  | Some user_approval => true
  | _ => false
  end.

Definition complete_session : M unit :=
  do t <- get_now;
  exec modify_session (fun s =>
    push_event (with_status s completed)
      (mkEvent t "SESSION_COMPLETE" "master" None []));
  exec store_save;
  exec store_updateDashboard;
  emit (EHook "session:complete").

(** [executePhase]; [fuel] bounds the chain of recursive calls, which the
    source leaves unbounded when [next] pointers or decisions form a cycle.
    The call returns, or throws what [preparePhase] throws. *)
Fixpoint executePhase (fuel : nat) (env : Env) (workflow : WorkflowDefinition)
    (phaseIndex : Z) : M (Settled unit) :=
  match fuel with
  | O => fail
  | S fuel' =>
      match phase_at workflow phaseIndex with
      | None => exec complete_session; ret (Fulfilled tt)
      | Some phase =>
          do prepared <- preparePhase env phase;
          match prepared with
          | Rejected reason => ret (Rejected reason)
          | Fulfilled (promptPath, _) =>
              if is_user_approval phase then
                exec pauseAtGate phase workflow; ret (Fulfilled tt)
              else
                do result <- executeWithRetry env promptPath phase;
                if negb (exitCode result =? 0) then
                  exec handlePhaseFailed phase workflow result; ret (Fulfilled tt)
                else
                  exec completePhase phase result;
                  match decided_index workflow phase result with
                  | Some decidedIndex => executePhase fuel' env workflow decidedIndex
                  | None =>
                      match next_index workflow phase with
                      | Some nextIndex => executePhase fuel' env workflow nextIndex
                      | None => executePhase fuel' env workflow (phaseIndex + 1)
                      end
                  end
          end
      end
  end.

(** *** Wave execution *)


(** [waves[wi].filter(p => !completedPhases.has(p.id))] *)
Definition pending (done : list (option string)) (wave : list WorkflowPhase)
  : list WorkflowPhase :=
  List.filter (fun p => negb (includes done (ph_id p))) wave.

(** The waves [executeWaves] runs, in order, as long as none of them
    stops: empty ones are skipped by [continue].  The phases of one wave
    are started together under [Promise.all]; their interleaving is not
    part of the embedding. *)
Definition wave_schedule (evs : list SessionEvent)
    (waves : list (list WorkflowPhase)) : list (list WorkflowPhase) :=
  List.filter (fun wave => negb (length wave =? 0)%nat)
              (map (pending (completedPhases evs)) waves).

(** *** Resume *)

(** How [resume] hands over once its own bookkeeping is done. *)
Inductive Continuation : Type :=
  | Finished                                   (* returns without running a phase *)
  | Linear (phaseIndex : Z)                    (* executePhase(..., nextIndex, ...) *)
  | Waves (schedule : list (list WorkflowPhase)).  (* executeWaves(...) *)

(** [this.store.load(sessionId)] *)
Definition store_load (id : string) : M unit :=
  fun w => match sessions w !! id with
           | Some s => Some (tt, mkWorld (now w) s (sessions w) (dashboard w)
                                   (handoff w) (decisions w) (runs w) (trace w))
           | None => None
           end.

(** [resume] up to the call of [executeWaves] or [executePhase]. *)
Definition resume (env : Env) (workflow : WorkflowDefinition) (id : string)
  : M (option CrashInfo * Continuation) :=
  exec store_load id;
  do s <- get_session;
  if SessionStatus_eqb (status s) completed then ret (None, Finished)
  else
    do t <- get_now;
    let crashInfo :=
      SessionManager.detectCrashedSession t s (Some (crash_detection_minutes env)) in
    let completedPhases := completedPhases (events s) in
    let nextIndex :=
      Js.findIndex (fun p => negb (includes completedPhases (ph_id p)))
                   (phases workflow) in
    if nextIndex <? 0 then
      exec modify_session (fun s => with_status s completed);
      exec store_save;
      ret (None, Finished)
    else
      exec modify_session (fun s =>
        push_event (with_lastActivity (with_status s running) t)
          (mkEvent t "SESSION_RESUME" (currentAgent s) None
             [("crashed", JBool (bool_decide (is_Some crashInfo)))]));
      exec store_save;
      exec emit (EHook "session:resume");
      if hasDependsOn workflow then
        match calculateWaves (phases workflow) with
        | Some (waves, _) =>
            do s' <- get_session;
            ret (crashInfo, Waves (wave_schedule (events s') waves))
        | None => fail
        end
      else ret (crashInfo, Linear nextIndex).

(** The phases whose [preparePhase] runs first after [resume]: the phase
    [executePhase] is called on, or the first wave [executeWaves] runs. *)
Definition resumes_from_waves (schedule : list (list WorkflowPhase))
  : list WorkflowPhase :=
  match schedule with
  | wave :: _ => wave
  | [] => []
  end.

Definition resumes_from (workflow : WorkflowDefinition) (k : Continuation)
  : list WorkflowPhase :=
  match k with
  | Finished => []
  | Linear phaseIndex =>
      match phase_at workflow phaseIndex with
      | Some p => [p]
      | None => []
      end
  | Waves schedule => resumes_from_waves schedule
  end.

End WorkflowEngine.

(** ** Session manager: titles and stale sessions ([core/session-manager.ts]) *)

Module SessionHousekeeping.

Import ContextTracker.

(** [generateSessionTitle(missionName, firstPhaseName?)] on strings of
    UTF-16 code units: [": "] is 58, 32 and ['...'] is three times 46.
    An absent and an empty [firstPhaseName] are both falsy. *)
Definition generateSessionTitle (missionName : jsString)
    (firstPhaseName : option jsString) : jsString :=
  let title := missionName in
  let title :=
    match firstPhaseName with
    | Some name =>
        if negb (is_empty name) && (len title <? 5)
        then title ++ [58; 32] ++ name
        else title
    | None => title
    end in
  if len title >? 50 then take 47 title ++ [46; 46; 46] else title.

Definition DEFAULT_STALE_HOURS : Z := 168.

(** What [JSON.parse(await fs.readFile(filePath))] makes of a file of the
    sessions directory; a file that cannot be read or parsed throws into
    the inner [catch]. *)
Inductive FileContent : Type :=
  | Corrupt
  | Parsed (s : SessionState).

(** [file.endsWith(suffix)] *)
Definition endsWith (suffix file : string) : bool :=
  String.prefix (String.rev suffix) (String.rev file).

(** The body of the [for (const file of files)] loop, on the state
    [cleaned] and the directory. *)
Definition clean_step (now maxAgeMs : Z)
    (st : nat * gmap string FileContent) (file : string)
  : nat * gmap string FileContent :=
  let '(cleaned, dir) := st in
  if negb (endsWith ".json" file) then st
  else
    match dir !! file with
    | Some (Parsed session) =>
        if negb (existsb (SessionStatus_eqb (status session)) [completed; failed])
        then st
        else
          let lastActivity :=
            match lastActivity session with
            | Some t => t
            | None => startedAt session
            end in
          let age := now - lastActivity in
          if age >? maxAgeMs then (S cleaned, delete file dir) else st
    | _ => st
    end.

(** [cleanStaleSessions(sessionsDir, maxAgeHours = 168)]: [files] is the
    listing [fs.readdir] returns, the names of the directory in some
    order.  Returns [cleaned] and the directory left behind. *)
Definition cleanStaleSessions (now : Z) (dir : gmap string FileContent)
    (maxAgeHours : option Z) : nat * gmap string FileContent :=
  let maxAgeHours := default DEFAULT_STALE_HOURS maxAgeHours in
  let files := map fst (map_to_list dir) in
  let maxAgeMs := maxAgeHours * 60 * 60 * 1000 in
  fold_left (clean_step now maxAgeMs) files (0%nat, dir).

End SessionHousekeeping.

(** ** Context tracker: the context window of a runner ([core/context-tracker.ts]) *)

Module RunnerContext.

(** [RUNNER_CONTEXT_WINDOWS], in the order [Object.entries] lists it. *)
Definition RUNNER_CONTEXT_WINDOWS : list (string * Z) :=
  [("claude-code", 200000); ("claude", 200000);
   ("gemini-cli", 1000000); ("gemini", 1000000);
   ("codex-cli", 200000); ("codex", 200000);
   ("copilot", 128000); ("github-copilot", 128000);
   ("cursor", 200000); ("windsurf", 200000);
   ("generic", 128000); ("auto-detect", 200000)].

Definition DEFAULT_MAX_CONTEXT : Z := 200000.

(** [/[\s_]/] on ASCII text: tab, LF, VT, FF, CR, space, underscore. *)
Definition is_space_or_underscore (c : Ascii.ascii) : bool :=
  let n := Ascii.nat_of_ascii c in
  ((9 <=? n) && (n <=? 13))%nat || (n =? 32)%nat || (n =? 95)%nat.

(** [s.replace(/[\s_]/g, '-')] *)
Fixpoint dashes (s : string) : string :=
  match s with
  | EmptyString => EmptyString
  | String c rest =>
      String (if is_space_or_underscore c then Ascii.ascii_of_nat 45 else c)
             (dashes rest)
  end.

(** [runner.toLowerCase().replace(/[\s_]/g, '-')], for a runner name in
    ASCII. *)
Definition key_of (runner : string) : string :=
  dashes (JsString.toLowerCase runner).

(** What the function returns: a number of tokens, or, for the one key
    that the table inherits from [Object.prototype] and that survives the
    normalisation ([constructor]), the function found there. *)
Inductive Window : Type :=
  | Tokens (n : Z)
  | InheritedConstructor.

(** [RUNNER_CONTEXT_WINDOWS[key]]: own entries first, then the prototype
    chain. *)
Definition table_get (key : string) : option Window :=
  match List.find (fun kv => String.eqb (fst kv) key) RUNNER_CONTEXT_WINDOWS with
  | Some (_, v) => Some (Tokens v)
  | None => if String.eqb key "constructor" then Some InheritedConstructor else None
  end.

(** [key.startsWith(k) || k.startsWith(key)] *)
Definition related (key k : string) : bool :=
  String.prefix k key || String.prefix key k.

Definition getMaxContextForRunner (runner : string) : Window :=
  let key := key_of runner in
  match table_get key with
  | Some v => v
  | None =>
      match List.find (fun kv => related key (fst kv)) RUNNER_CONTEXT_WINDOWS with
      | Some (_, v) => Tokens v
      | None => Tokens DEFAULT_MAX_CONTEXT
      end
  end.

End RunnerContext.

(** ** Decision log ([core/decision-log.ts]) *)

Module DecisionLog.

(** A decision as the log holds it: the entry handed to [record] with its
    [id] and [timestamp]. *)
Record Recorded : Type := mkRecorded {
  rec_id : string;
  rec_timestamp : Z;
  rec_entry : WorkflowEngine.Decision
}.

(** [String(n)] for a natural number. *)
Definition decimal (n : nat) : string :=
  DecimalString.NilEmpty.string_of_uint (Nat.to_uint n).

Fixpoint fill (n : nat) (c : Ascii.ascii) : string :=
  match n with
  | O => EmptyString
  | S n' => String c (fill n' c)
  end.

(** [s.padStart(targetLength, c)] for a one-character [c]. *)
Definition padStart (targetLength : nat) (c : Ascii.ascii) (s : string) : string :=
  (fill (targetLength - String.length s) c ++ s)%string.

(** The id given to a decision recorded into a log of [count] decisions. *)
Definition id_of (count : nat) : string :=
  ("DEC-" ++ padStart 3 (Ascii.ascii_of_nat 48) (decimal (count + 1)))%string.

(** [list()]: the decisions of the file, or none when the file is
    missing, is no YAML or holds no [decisions] array. *)
Definition list_decisions (file : option (list Recorded)) : list Recorded :=
  default [] file.

(** [record(entry)]: the decision and the file written back. *)
Definition record (file : option (list Recorded)) (now : Z)
    (entry : WorkflowEngine.Decision) : Recorded * option (list Recorded) :=
  let decisions := list_decisions file in
  let decision := mkRecorded (id_of (length decisions)) now entry in
  (decision, Some (decisions ++ [decision])).

End DecisionLog.

(** * Vocabulary of the properties *)

(** ** The token rule of the specification

    The content-aware rule as section 4.2 of the specification words it,
    for comparison with [ContextTracker.estimateTokens]: the text is cut
    into newlines, whitespace runs, punctuation or symbol characters and
    tokens (runs of word characters and non-ASCII characters), and each
    piece contributes by its kind.  Where the specification leaves a
    detail open (which characters are whitespace, where a CamelCase token
    is cut, which of the word rules comes first) the rule follows the
    code. *)
Module TokenRule.

Import ContextTracker.

Inductive Piece : Type :=
  | PNewline
  | PSpaces (n : Z)              (* a whitespace run and its length *)
  | PPunct                       (* one punctuation or symbol character *)
  | PToken (chars : jsString).   (* a run of word and non-ASCII characters *)

Definition is_punct (c : Z) : bool :=
  negb (is_non_ascii c) && negb (is_word c).

(** Putting one more character in front of the pieces of the rest: a
    whitespace character extends a whitespace run, a punctuation character
    stands alone, any other character extends a token.  [punct] tells
    which characters count as punctuation. *)
Definition push (punct : Z -> bool) (c : Z) (rest : list Piece) : list Piece :=
  if is_space c then
    match rest with
    | PSpaces n :: rest' => PSpaces (n + 1) :: rest'
    | _ => PSpaces 1 :: rest
    end
  else if punct c then PPunct :: rest
  else
    match rest with
    | PToken t :: rest' => PToken (c :: t) :: rest'
    | _ => PToken [c] :: rest
    end.

(** Cutting the text into maximal pieces, from the right. *)
Fixpoint pieces_by (punct : Z -> bool) (s : jsString) : list Piece :=
  match s with
  | [] => []
  | c :: s' =>
      if c =? 10 then PNewline :: pieces_by punct s'
      else push punct c (pieces_by punct s')
  end.

Definition pieces (s : jsString) : list Piece := pieces_by is_punct s.

(** A sub-word: at most 6 characters contribute 1, else [ceil(length/5)]. *)
Definition subword_units (w : jsString) : Z :=
  if len w <=? 6 then 1 else ceil_div (len w) 5.

Definition sum_units (ws : list jsString) : Z :=
  fold_right (fun w acc => subword_units w + acc) 0 ws.

(** An ASCII word: at most 6 characters contribute 1; CamelCase and
    snake_case tokens are split and their sub-words summed; other tokens
    of length 7-10 contribute 2, longer ones [ceil(length/5)]. *)
Definition word_units (w : jsString) : Z :=
  if len w <=? 6 then 1
  else
    let camel := split_camel [] w in
    if (1 <? length camel)%nat then sum_units camel
    else if existsb (Z.eqb 95) w then
      sum_units (filter_nonempty (split_underscore [] w))
    else if len w <=? 10 then 2
    else ceil_div (len w) 5.

(** A token: a digit run contributes [ceil(length/3)]; otherwise every
    non-ASCII character contributes 2, plus the estimate of the ASCII
    remainder of the token. *)
Definition token_units (t : jsString) : Z :=
  if forallb is_digit t then ceil_div (len t) 3
  else
    let ascii := List.filter (fun c => negb (is_non_ascii c)) t in
    2 * len (List.filter is_non_ascii t)
    + (if is_empty ascii then 0 else word_units ascii).

Definition piece_units (p : Piece) : Z :=
  match p with
  | PNewline => 1
  | PSpaces n => ceil_div n 4
  | PPunct => 1
  | PToken t => token_units t
  end.

Definition sum_pieces (ps : list Piece) : Z :=
  fold_right (fun p acc => piece_units p + acc) 0 ps.

Definition estimate_by (punct : Z -> bool) (text : jsString) : Z :=
  sum_pieces (pieces_by punct text).

Definition estimate (text : jsString) : Z := estimate_by is_punct text.

(** The pieces the three nested loops of [estimateTokens] visit: the
    non-empty parts of a segment, the non-empty segments of a line, and
    the lines with a newline between two of them. *)
Definition part_pieces (part : jsString) : list Piece :=
  if is_empty part then []
  else if (len part =? 1) && existsb (fun c => negb (is_word c)) part then [PPunct]
  else [PToken part].

Definition segment_pieces (seg : jsString) : list Piece :=
  if is_empty seg then []
  else if forallb is_space seg then [PSpaces (len seg)]
  else flat_map part_pieces (split_punct [] seg).

Definition line_pieces (line : jsString) : list Piece :=
  flat_map segment_pieces (split_spaces false [] line).

Fixpoint join_lines (ls : list (list Piece)) : list Piece :=
  match ls with
  | [] => []
  | l :: ls' =>
      match ls' with
      | [] => l
      | _ :: _ => l ++ PNewline :: join_lines ls'
      end
  end.

Definition text_pieces (text : jsString) : list Piece :=
  join_lines (map line_pieces (split_newline [] text)).

(** In the code every character outside [[a-zA-Z0-9_]] that is not
    whitespace is a separator. *)
Definition non_word (c : Z) : bool := negb (is_word c).

(** Two neighbouring characters fall into one piece when both are
    whitespace or both are word characters. *)
Definition merges (a b : Z) : bool :=
  negb (b =? 10) && ((is_space a && is_space b) || (is_word a && is_word b)).

End TokenRule.

(** A part cut out by [split_punct]: word characters only, or one
    character outside the word class. *)
Definition part_shape (p : ContextTracker.jsString) : Prop :=
  Forall (fun c => ContextTracker.is_word c = true) p
  \/ exists c, p = [c] /\ ContextTracker.is_word c = false.

(** The timestamp the check measures from: [lastActivity || startedAt]. *)
Definition last_seen (s : SessionState) : Z :=
  default (startedAt s) (lastActivity s).

(** Budget enforcement: cost of a section, the two priority classes, the
    total cost of a list, and the cost of the entries of [rest] whose
    object has already left [remaining]. *)
Definition cost_of (heap : ContextTracker.Heap) (s : ContextTracker.ref) : Z :=
  Z.of_N (ContextTracker.sec_tokens (heap s)).

Definition is_removable (heap : ContextTracker.Heap) (s : ContextTracker.ref) : bool :=
  (0 <? ContextTracker.priority (heap s))%N.

Definition is_protected (heap : ContextTracker.Heap) (s : ContextTracker.ref) : bool :=
  (ContextTracker.priority (heap s) =? 0)%N.

Definition other (r s : ContextTracker.ref) : bool := negb (Nat.eqb s r).

Fixpoint sum_cost_of (heap : ContextTracker.Heap) (l : list ContextTracker.ref) : Z :=
  match l with
  | [] => 0
  | s :: l' => cost_of heap s + sum_cost_of heap l'
  end.

Definition occ (r : ContextTracker.ref) (l : list ContextTracker.ref) : nat :=
  count_occ Nat.eq_dec l r.

Definition mem (r : ContextTracker.ref) (l : list ContextTracker.ref) : bool :=
  existsb (Nat.eqb r) l.

Definition credit_of (heap : ContextTracker.Heap)
    (rest remaining : list ContextTracker.ref) : Z :=
  sum_cost_of heap (List.filter (fun x => negb (mem x remaining)) rest).

(** Wave planning: phase id [d] belongs to a phase placed in a wave of
    index below [k]; and the waves are in topological order when that holds
    of every dependency of every phase of every wave. *)
Definition placed_before (waves : list (list WorkflowPhase)) (k : nat) (d : string)
  : Prop :=
  exists j wave q,
    (j < k)%nat /\ waves !! j = Some wave /\ In q wave /\ ph_id q = d.

Definition topological (waves : list (list WorkflowPhase)) : Prop :=
  forall k wave p d,
    waves !! k = Some wave -> In p wave -> In d (WorkflowEngine.deps p) ->
    placed_before waves k d.

(** The dependencies of a phase list are resolvable and acyclic: every
    dependency is the id of a phase of the list, and the ids can be ranked
    so that each dependency ranks below the phase that depends on it. *)
Definition resolvable_acyclic (phs : list WorkflowPhase) : Prop :=
  exists rank : string -> nat,
    forall p d,
      In p phs -> In d (WorkflowEngine.deps p) ->
      (exists q, In q phs /\ ph_id q = d) /\ (rank d < rank (ph_id p))%nat.

(** Retry: what the [k]-th call of the executor amounts to for
    [executePrompt] (its result and the effects around it), and the effects
    of [n] consecutive attempts, the first of them numbered [attempt]: every
    attempt after attempt 0 starts with its backoff sleep. *)
Definition attempt_result (env : WorkflowEngine.Env) (k : nat) : RunnerResult :=
  if WorkflowEngine.executor_manual env then mkResult EmptyString 0 0 0 None 0
  else match WorkflowEngine.executor_run env k with
       | WorkflowEngine.Returns r => r
       | WorkflowEngine.Throws m => mkResult EmptyString 1 0 0 (Some m) 0
       end.

Definition attempt_effects (env : WorkflowEngine.Env) (promptPath : string)
    (k : nat) : list WorkflowEngine.Effect :=
  if WorkflowEngine.executor_manual env then []
  else WorkflowEngine.ERun promptPath ::
       match WorkflowEngine.executor_run env k with
       | WorkflowEngine.Returns r =>
           if exitCode r =? 0 then []
           else match error r with
                | Some e => if JsString.truthy e then [WorkflowEngine.EGotcha e] else []
                | None => []
                end
       | WorkflowEngine.Throws m => [WorkflowEngine.EGotcha m]
       end.

Fixpoint retry_trace (env : WorkflowEngine.Env) (promptPath : string)
    (k : nat) (attempt : Z) (n : nat) : list WorkflowEngine.Effect :=
  match n with
  | O => []
  | S n' =>
      (if attempt >? 0
       then [WorkflowEngine.ESleep (Z.min (1000 * 2 ^ (attempt - 1)) 30000)]
       else [])
      ++ attempt_effects env promptPath k
      ++ retry_trace env promptPath (S k) (attempt + 1) n'
  end.

(** Calls of [executor.run] recorded in a trace. *)
Definition run_count (tr : list WorkflowEngine.Effect) : nat :=
  length (List.filter (fun e => match e with
                                | WorkflowEngine.ERun _ => true
                                | _ => false
                                end) tr).

(** Sample inputs for the closed instances below: a fresh session, the
    world holding it, an executor that fails twice and then succeeds, and a
    phase with two retries. *)
Definition sample_session : SessionState :=
  mkSession "s1" "wf" "Mission" "master" "build" running 0 None 0 (Some 0) FRESH 0 0
    [mkEvent 0 "SESSION_START" "master" None []].

Definition sample_world : WorkflowEngine.World :=
  WorkflowEngine.mkWorld 1000 sample_session {["s1" := sample_session]} ∅ None [] 0 [].

Definition sample_env : WorkflowEngine.Env :=
  WorkflowEngine.mkEnv 30 200000 false
    (fun k => match k with
              | O | S O => WorkflowEngine.Returns (mkResult "boom" 1 10 0 (Some "err") 5)
              | _ => WorkflowEngine.Returns (mkResult "fine" 0 10 0 None 5)
              end)
    (fun agentId taskId => WorkflowEngine.Fulfilled (agentId ++ "/" ++ taskId)%string)
    (fun _ => None).

(** A session whose log records the phase [build] as completed. *)
Definition built_session : SessionState :=
  mkSession "s1" "wf" "Mission" "master" "build" running 0 None 0 (Some 0) FRESH 0 0
    [mkEvent 0 "SESSION_START" "master" None [];
     mkEvent 1 "PHASE_START" "dev" (Some "build") [];
     mkEvent 2 "PHASE_COMPLETE" "dev" (Some "build") []].

Definition built_world : WorkflowEngine.World :=
  WorkflowEngine.mkWorld 1000 built_session {["s1" := built_session]} ∅ None [] 0 [].

(** A session whose log is full: 200 events, the second of which records
    the phase [build] as completed. *)
Definition full_session : SessionState :=
  mkSession "s1" "wf" "Mission" "master" "build" running 0 None 0 (Some 0) FRESH 0 0
    (mkEvent 0 "SESSION_START" "master" None []
     :: mkEvent 1 "PHASE_COMPLETE" "dev" (Some "build") []
     :: repeat (mkEvent 2 "METRICS" "dev" None []) 198).

Definition full_world : WorkflowEngine.World :=
  WorkflowEngine.mkWorld 1000 full_session {["s1" := full_session]} ∅ None [] 0 [].

Definition sample_phase (id : string) (gate : option Gate)
    (dependsOn : option (list string)) (retry : Z) : WorkflowPhase :=
  mkPhase id id "dev" (id ++ ".md")%string None gate None dependsOn retry None.

(** Resume in wave mode: the phases still to run of the first wave that
    holds a phase whose id is not among [done]. *)
Fixpoint first_pending_wave (done : list (option string))
    (waves : list (list WorkflowPhase)) : list WorkflowPhase :=
  match waves with
  | [] => []
  | wave :: waves' =>
      match WorkflowEngine.pending done wave with
      | [] => first_pending_wave done waves'
      | p :: ps => p :: ps
      end
  end.

(** Resume: the first phase of the list whose id is not among [done]. *)
Definition first_pending (done : list (option string)) (phs : list WorkflowPhase)
  : option WorkflowPhase :=
  List.find (fun p => negb (WorkflowEngine.includes done (ph_id p))) phs.

(** ** Further vocabulary *)

(** The number of characters a piece of text stands for, and the shape of
    the pieces [estimateTokens] meets: whitespace runs are not empty and
    tokens are non-empty runs of word characters. *)
Definition piece_size (p : TokenRule.Piece) : Z :=
  match p with
  | TokenRule.PNewline => 1
  | TokenRule.PSpaces n => n
  | TokenRule.PPunct => 1
  | TokenRule.PToken t => ContextTracker.len t
  end.

Definition piece_ok (p : TokenRule.Piece) : Prop :=
  match p with
  | TokenRule.PSpaces n => 1 <= n
  | TokenRule.PToken t =>
      t <> [] /\ Forall (fun c => ContextTracker.is_word c = true) t
  | _ => True
  end.

Definition sum_sizes (ps : list TokenRule.Piece) : Z :=
  fold_right (fun p acc => piece_size p + acc) 0 ps.

Definition total_len (ws : list ContextTracker.jsString) : Z :=
  fold_right (fun w acc => ContextTracker.len w + acc) 0 ws.

(** A list of sections in descending order of priority. *)
Fixpoint descending (heap : ContextTracker.Heap) (l : list ContextTracker.ref) : Prop :=
  match l with
  | [] => True
  | x :: l' =>
      Forall (fun y => (ContextTracker.priority (heap y)
                        <= ContextTracker.priority (heap x))%N) l'
      /\ descending heap l'
  end.

(** What the attempts of a phase leave untouched: the log, the status and
    the position of the session, the stored records and the documents;
    only the metrics, the time of the last activity and the clock move. *)
Definition same_progress (w w' : WorkflowEngine.World) : Prop :=
  events (WorkflowEngine.session w') = events (WorkflowEngine.session w)
  /\ status (WorkflowEngine.session w') = status (WorkflowEngine.session w)
  /\ sessionId (WorkflowEngine.session w') = sessionId (WorkflowEngine.session w)
  /\ promptCount (WorkflowEngine.session w') = promptCount (WorkflowEngine.session w)
  /\ currentPhase (WorkflowEngine.session w') = currentPhase (WorkflowEngine.session w)
  /\ WorkflowEngine.sessions w' = WorkflowEngine.sessions w
  /\ WorkflowEngine.handoff w' = WorkflowEngine.handoff w
  /\ WorkflowEngine.decisions w' = WorkflowEngine.decisions w.

(** Type and phase of an event, and the two events a phase that succeeds
    adds to the log. *)
Definition event_kind (e : SessionEvent) : string * option string :=
  (ev_type e, ev_phase e).

Definition phase_kinds (p : WorkflowPhase) : list (string * option string) :=
  [("PHASE_START", Some (ph_id p)); ("PHASE_COMPLETE", Some (ph_id p))].

(** A phase that runs and hands over to the phase listed after it: no
    approval gate, no decision routing, no [next] pointer. *)
Definition plain_phase (p : WorkflowPhase) : Prop :=
  WorkflowEngine.is_user_approval p = false
  /\ ph_decision p = None
  /\ ph_next p = None.

(** The task id [preparePhase] hands to the compiler, and how the
    compilation of the prompt of a phase ends. *)
Definition task_of (p : WorkflowPhase) : string :=
  JsString.remove_first ".yaml" (JsString.remove_first ".md" (ph_task p)).

Definition compiled (env : WorkflowEngine.Env) (p : WorkflowPhase)
  : WorkflowEngine.Settled string :=
  WorkflowEngine.compile_prompt env (ph_agent p) (task_of p).


(** A session file that [cleanStaleSessions] deletes: a [.json] file
    holding a completed or failed session whose last activity (or start)
    lies more than [maxAgeMs] back. *)
Definition stale_file (now maxAgeMs : Z) (file : string)
    (content : SessionHousekeeping.FileContent) : bool :=
  SessionHousekeeping.endsWith ".json" file
  && match content with
     | SessionHousekeeping.Parsed s =>
         (SessionStatus_eqb (status s) completed || SessionStatus_eqb (status s) failed)
         && (maxAgeMs <? now - last_seen s)
     | SessionHousekeeping.Corrupt => false
     end.

(** A decision log whose entries carry the ids [record] gives them, in
    order; and the number an id stands for. *)
Definition numbered (log : list DecisionLog.Recorded) : Prop :=
  forall i d, log !! i = Some d -> DecisionLog.rec_id d = DecisionLog.id_of i.

Definition number_of (s : string) : option nat :=
  option_map Nat.of_uint (DecimalString.NilEmpty.uint_of_string s).

(** Proof steps shared by the lemmas on the phase lifecycle: running the
    bookkeeping calls of a helper on an explicit world, and the opening
    [session.x = ...; await this.store.save(session)] of a helper, given
    the lemma on [store_save]. *)
Ltac run_world :=
  lazy beta iota delta [WorkflowEngine.bind WorkflowEngine.get_now
                        WorkflowEngine.modify_session
                        WorkflowEngine.store_updateDashboard
                        WorkflowEngine.write_handoff WorkflowEngine.emit
                        WorkflowEngine.get_session WorkflowEngine.decisions_record
                        WorkflowEngine.ret];
  cbn [WorkflowEngine.now WorkflowEngine.session WorkflowEngine.sessions
       WorkflowEngine.dashboard WorkflowEngine.handoff WorkflowEngine.decisions
       WorkflowEngine.runs WorkflowEngine.trace].

Ltac assign_and_save saved w f s1 evs' Htrim :=
  unfold WorkflowEngine.bind at 1; unfold WorkflowEngine.get_now at 1;
  cbv beta iota;
  set (f := fun s : SessionState => _);
  unfold WorkflowEngine.bind at 1; unfold WorkflowEngine.modify_session at 1;
  cbv beta iota;
  set (s1 := f (WorkflowEngine.session w));
  unfold WorkflowEngine.bind at 1;
  let Hsave := fresh "Hsave" in
  destruct (saved w s1) as (evs' & Htrim & Hsave);
  rewrite Hsave; clear Hsave; cbv beta iota.

(** * Properties *)

(** ** Session store: the event-log cap *)

Section SessionStoreFacts.
Import SessionStore.

Lemma slice_from_length {A} (start : Z) (arr : list A) :
  start < 0 ->
  Z.of_nat (length (Js.slice_from start arr)) = Z.min (- start) (Z.of_nat (length arr)).
Proof.
  intros Hneg. unfold Js.slice_from.
  destruct (start <? 0) eqn:E; [| apply Z.ltb_ge in E; lia].
  rewrite length_drop. lia.
Qed.

(** Whatever is trimmed, a non-empty log keeps its first event. *)
Lemma trim_events_first (first : SessionEvent) (rest : list SessionEvent)
    (maxEvents : option Z) :
  exists evs, trim_events (first :: rest) maxEvents = Some evs
              /\ head evs = Some first.
Proof.
  unfold trim_events.
  destruct (Z.of_nat (length (first :: rest)) >? limit_of maxEvents);
    eexists; split; reflexivity.
Qed.

(** From a limit of two on, the trimmed log respects the limit. *)
Lemma trim_events_length (evs evs' : list SessionEvent) (maxEvents : option Z) :
  2 <= limit_of maxEvents ->
  trim_events evs maxEvents = Some evs' ->
  Z.of_nat (length evs') <= limit_of maxEvents.
Proof.
  unfold trim_events. intros Hlim.
  destruct (Z.of_nat (length evs) >? limit_of maxEvents) eqn:E.
  - destruct evs as [| first rest]; [discriminate |].
    intros [= <-]. cbn [length].
    rewrite Nat2Z.inj_succ, slice_from_length by lia. lia.
  - intros [= <-]. lia.
Qed.

(** With no [maxEvents] (the way the engine calls [save]) the log never
    exceeds 200 events, keeps its first and its last event, and the
    record is written. *)
Lemma trim_events_default (evs : list SessionEvent) :
  exists evs', trim_events evs None = Some evs'
               /\ Z.of_nat (length evs') <= 200
               /\ head evs' = head evs
               /\ last evs' = last evs.
Proof.
  unfold trim_events. cbn [limit_of].
  destruct (Z.of_nat (length evs) >? 200) eqn:E.
  - destruct evs as [| first rest]; [cbn in E; discriminate |].
    eexists; split; [reflexivity |]. split; [| split; [reflexivity |]].
    + cbn [length]. rewrite Nat2Z.inj_succ, slice_from_length by lia. lia.
    + apply Z.gtb_lt in E. unfold Js.slice_from.
      change (- (200 - 1) <? 0) with true. cbv iota.
      set (l := first :: rest) in *. set (k := Z.to_nat _).
      assert (Hk : (k < length l)%nat) by (subst k; lia).
      destruct (drop k l) as [| x xs] eqn:D.
      { apply (f_equal length) in D. rewrite length_drop in D.
        cbn [length] in D. lia. }
      assert (Hl : last l = last (x :: xs)).
      { rewrite <- (take_drop k l), D, last_app.
        destruct (last (x :: xs)) eqn:L; [reflexivity |].
        apply last_None in L. discriminate. }
      rewrite Hl. apply last_cons_cons.
  - eexists; split; [reflexivity |].
    repeat split. destruct (Z.gtb_spec (Z.of_nat (length evs)) 200); [discriminate | lia].
Qed.
(** From a limit of two on, [save] keeps the log of a session that starts
    with an event within the limit and leaves its first event in place. *)
Lemma save_cap_from_two (dir : gmap string SessionState) (session : SessionState)
    (first : SessionEvent) (rest : list SessionEvent) (maxEvents : option Z) :
  events session = first :: rest ->
  2 <= limit_of maxEvents ->
  exists session' dir',
    save dir session maxEvents = Some (session', dir')
    /\ Z.of_nat (length (events session')) <= limit_of maxEvents
    /\ head (events session') = Some first
    /\ dir' !! sessionId session = Some session'.
Proof.
  intros Hevs Hlim. unfold save. rewrite Hevs.
  destruct (trim_events_first first rest maxEvents) as (evs & Htrim & Hhead).
  rewrite Htrim. eexists _, _. split; [reflexivity |]. cbn [events with_events sessionId].
  split; [eapply trim_events_length; eassumption |].
  split; [exact Hhead | apply lookup_insert_eq].
Qed.
(** A log below the cap is saved as it is. *)
(** Trimming only removes events. *)
Lemma trim_events_In (evs evs' : list SessionEvent) (maxEvents : option Z) :
  SessionStore.trim_events evs maxEvents = Some evs' ->
  forall e, In e evs' -> In e evs.
Proof.
  unfold SessionStore.trim_events.
  destruct (Z.of_nat (length evs) >? SessionStore.limit_of maxEvents).
  - destruct evs as [| first rest]; [discriminate |].
    intros [= <-] e [<- | He]; [left; reflexivity |].
    unfold Js.slice_from in He. apply list_elem_of_In.
    eapply elem_of_sublist; [apply list_elem_of_In, He | apply sublist_drop].
  - intros [= <-] e He. exact He.
Qed.

Lemma trim_events_short (evs : list SessionEvent) :
  Z.of_nat (length evs) <= 200 -> SessionStore.trim_events evs None = Some evs.
Proof.
  intros Hlen. unfold SessionStore.trim_events. cbn [SessionStore.limit_of].
  destruct (Z.gtb_spec (Z.of_nat (length evs)) 200); [lia | reflexivity].
Qed.
End SessionStoreFacts.

(** C5 — The claim reads: after every [save(session, maxEvents)] the log
    holds at most [maxEvents] events and still starts with its original
    first event.  At [maxEvents = 1] the code does otherwise: for a log of
    two events [limit - 1] is [0], [slice(-0)] returns the whole array, and
    the saved log is the first event followed by both events, three in
    all, above the cap of one. *)
Theorem save_limit_one_grows_log :
  let e0 := mkEvent 0 "SESSION_START" "master" None [] in
  let e1 := mkEvent 1 "PHASE_START" "dev" (Some "build") [] in
  let s := mkSession "s1" "wf" "Mission" "dev" "build" running 0 None 1
             (Some 1) FRESH 0 0 [e0; e1] in
  exists s' dir,
    SessionStore.save ∅ s (Some 1) = Some (s', dir)
    /\ events s' = [e0; e0; e1]
    /\ SessionStore.limit_of (Some 1) = 1
    /\ ~ (Z.of_nat (length (events s')) <= SessionStore.limit_of (Some 1)).
Proof.
  cbv zeta. eexists _, _. split; [reflexivity |].
  split; [reflexivity |]. split; [reflexivity |].
  vm_compute. intros H. apply H. reflexivity.
Qed.

(** ** Session manager: crash detection *)



(** The threshold need not be a whole number: under a threshold of a
    minute and a half a running session last seen 96 seconds ago (one whole
    minute) is not flagged, and one last seen two minutes ago is. *)
Lemma detectCrashedSession_fractional_threshold :
  let s := mkSession "s1" "wf" "Mission" "dev" "build" running 0 None 1
             (Some 0) FRESH 0 0 [] in
  SessionManager.detectCrashedSession 96000 s (Some (3 # 2)) = None
  /\ is_Some (SessionManager.detectCrashedSession 120000 s (Some (3 # 2))).
Proof.
  cbv zeta. split; [reflexivity |]. vm_compute. eexists. reflexivity.
Qed.

(** ** Context tracker: brackets *)

Section BracketFacts.
Import ContextTracker.

Lemma estimateContextPercent_range (promptCount : Q) (maxContext : option Q) :
  (0 <= estimateContextPercent promptCount maxContext
   /\ estimateContextPercent promptCount maxContext <= 100)%Q.
Proof.
  unfold estimateContextPercent. split.
  - apply Q.le_max_l.
  - apply Q.max_lub; [discriminate |]. apply Q.le_min_l.
Qed.

Lemma contains_spec (percent : Q) (config : BracketConfig) :
  contains percent config = true
  <-> (minPercent config <= percent /\ percent <= maxPercent config)%Q.
Proof.
  unfold contains. rewrite andb_true_iff, !Qle_bool_iff. reflexivity.
Qed.

(** Which brackets hold a percentage of the range [0, 100]. *)
Lemma brackets_containing (percent : Q) :
  (0 <= percent <= 100)%Q ->
  List.filter (contains percent) BRACKET_CONFIGS =
    if Qle_bool percent 25 then
      if Qle_bool 25 percent then [DEPLETED_CONFIG; CRITICAL_CONFIG]
      else [CRITICAL_CONFIG]
    else if Qle_bool percent 40 then
      if Qle_bool 40 percent then [MODERATE_CONFIG; DEPLETED_CONFIG]
      else [DEPLETED_CONFIG]
    else if Qle_bool percent 60 then
      if Qle_bool 60 percent then [FRESH_CONFIG; MODERATE_CONFIG]
      else [MODERATE_CONFIG]
    else [FRESH_CONFIG].
Proof.
  intros [H0 H100].
  unfold BRACKET_CONFIGS, contains. cbn [List.filter minPercent maxPercent
    FRESH_CONFIG MODERATE_CONFIG DEPLETED_CONFIG CRITICAL_CONFIG].
  apply Qle_bool_iff in H0, H100. rewrite H0, H100.
  destruct (Qle_bool percent 25) eqn:E25, (Qle_bool 25 percent) eqn:F25,
           (Qle_bool percent 40) eqn:E40, (Qle_bool 40 percent) eqn:F40,
           (Qle_bool percent 60) eqn:E60, (Qle_bool 60 percent) eqn:F60;
    cbn [andb]; try reflexivity; exfalso;
    repeat match goal with
           | H : Qle_bool _ _ = true |- _ => apply Qle_bool_iff in H
           | H : Qle_bool ?a ?b = false |- _ =>
               assert (~ (a <= b)%Q) by (rewrite <- Qle_bool_iff, H; discriminate);
               clear H
           end; lra.
Qed.

(** [bracket_for] returns the last bracket of [BRACKET_CONFIGS] that
    holds the percentage. *)
Lemma bracket_for_last (percent : Q) :
  (0 <= percent <= 100)%Q ->
  last (List.filter (contains percent) BRACKET_CONFIGS) = Some (bracket_for percent).
Proof.
  intros Hrange. rewrite (brackets_containing percent Hrange).
  destruct Hrange as [H0 H100].
  unfold bracket_for, BRACKET_CONFIGS, contains.
  cbn [rev app List.find minPercent maxPercent
    FRESH_CONFIG MODERATE_CONFIG DEPLETED_CONFIG CRITICAL_CONFIG].
  apply Qle_bool_iff in H0, H100. rewrite H0, H100.
  destruct (Qle_bool percent 25) eqn:E25, (Qle_bool 25 percent) eqn:F25,
           (Qle_bool percent 40) eqn:E40, (Qle_bool 40 percent) eqn:F40,
           (Qle_bool percent 60) eqn:E60, (Qle_bool 60 percent) eqn:F60;
    cbn [andb last nth]; try reflexivity; exfalso;
    repeat match goal with
           | H : Qle_bool _ _ = true |- _ => apply Qle_bool_iff in H
           | H : Qle_bool ?a ?b = false |- _ =>
               assert (~ (a <= b)%Q) by (rewrite <- Qle_bool_iff, H; discriminate);
               clear H
           end; lra.
Qed.
End BracketFacts.

(** C2, the claim as stated, fails where two brackets meet: with
    [promptCount = 3] and [maxContext = 14000] the remaining capacity is
    exactly 25 (every step is exact in doubles as well: 10500 / 14000 is
    0.75), and both DEPLETED (25-40) and CRITICAL (0-25) contain it. *)
Lemma bracket_boundary_in_two_brackets :
  let percent := ContextTracker.estimateContextPercent 3 (Some 14000%Q) in
  (percent == 25)%Q
  /\ ContextTracker.contains percent ContextTracker.DEPLETED_CONFIG = true
  /\ ContextTracker.contains percent ContextTracker.CRITICAL_CONFIG = true
  /\ ContextTracker.DEPLETED_CONFIG <> ContextTracker.CRITICAL_CONFIG
  /\ ContextTracker.getBracket 3 (Some 14000%Q) = ContextTracker.CRITICAL_CONFIG.
Proof.
  cbv zeta. repeat split; try reflexivity. discriminate.
Qed.

(** C2 (amended) — For every [promptCount >= 0] and [maxContext > 0] at
    least one of the four brackets contains the clamped remaining-capacity
    percentage, and [getBracket] returns the last bracket of
    [BRACKET_CONFIGS] (the most severe one) that contains it; that bracket
    is the only one unless the percentage is exactly 25, 40 or 60, a value
    two neighbouring brackets share. *)
Theorem getBracket_most_severe (promptCount : Q) (maxContext : option Q) :
  (0 <= promptCount)%Q ->
  (0 < default ContextTracker.DEFAULT_MAX_CONTEXT maxContext)%Q ->
  let percent := ContextTracker.estimateContextPercent promptCount maxContext in
  let holding := List.filter (ContextTracker.contains percent)
                             ContextTracker.BRACKET_CONFIGS in
  holding <> []
  /\ last holding = Some (ContextTracker.getBracket promptCount maxContext)
  /\ (~ (percent == 25)%Q -> ~ (percent == 40)%Q -> ~ (percent == 60)%Q ->
      holding = [ContextTracker.getBracket promptCount maxContext]).
Proof.
  intros _ _ percent holding.
  pose proof (estimateContextPercent_range promptCount maxContext) as Hrange.
  fold percent in Hrange.
  pose proof (bracket_for_last percent Hrange) as Hlast.
  fold holding in Hlast.
  change (ContextTracker.getBracket promptCount maxContext)
    with (ContextTracker.bracket_for percent).
  split; [intros Hnil; rewrite Hnil in Hlast; discriminate |].
  split; [exact Hlast |].
  intros N25 N40 N60. revert Hlast. subst holding.
  rewrite (brackets_containing percent Hrange).
  destruct (Qle_bool percent 25) eqn:E25, (Qle_bool 25 percent) eqn:F25,
           (Qle_bool percent 40) eqn:E40, (Qle_bool 40 percent) eqn:F40,
           (Qle_bool percent 60) eqn:E60, (Qle_bool 60 percent) eqn:F60;
    cbn [last]; intros [= <-]; try reflexivity; exfalso;
    repeat match goal with
           | H : Qle_bool _ _ = true |- _ => apply Qle_bool_iff in H
           end;
    first [ apply N25; apply Qle_antisym; assumption
          | apply N40; apply Qle_antisym; assumption
          | apply N60; apply Qle_antisym; assumption ].
Qed.

Lemma getBracket_most_severe_witness :
  last (List.filter
          (ContextTracker.contains
             (ContextTracker.estimateContextPercent 1 (Some 200000%Q)))
          ContextTracker.BRACKET_CONFIGS)
  = Some (ContextTracker.getBracket 1 (Some 200000%Q)).
Proof.
  refine (proj1 (proj2 (getBracket_most_severe 1 (Some 200000%Q) _ _))).
  - discriminate.
  - reflexivity.
Defined.

(** ** Context tracker: token budget *)

Section BudgetFacts.
Import ContextTracker.
Variable heap : Heap.

Local Abbreviation cost := (cost_of heap).
Local Abbreviation removable := (is_removable heap).
Local Abbreviation protected := (is_protected heap).
Local Abbreviation sum_cost := (sum_cost_of heap).
Local Abbreviation credit := (credit_of heap).

Lemma total_tokens_sum (l : list ref) : total_tokens heap l = sum_cost l.
Proof.
  unfold total_tokens.
  assert (H : forall acc,
    fold_left (fun sum s => sum + Z.of_N (sec_tokens (heap s))) l acc
    = acc + sum_cost l).
  { induction l as [| s l IH]; intros acc; cbn [fold_left sum_cost].
    - lia.
    - rewrite IH. unfold cost. lia. }
  rewrite H. lia.
Qed.

Lemma sum_cost_nonneg (l : list ref) : 0 <= sum_cost l.
Proof. induction l; cbn [sum_cost]; unfold cost in *; lia. Qed.

Lemma protected_not_removable (s : ref) : protected s = negb (removable s).
Proof.
  unfold protected, removable.
  destruct (N.eqb_spec (priority (heap s)) 0) as [-> | Hne]; [reflexivity |].
  symmetry. apply negb_false_iff, N.ltb_lt. lia.
Qed.

(** *** The sort is a rearrangement *)

Lemma insert_desc_perm (x : ref) (l : list ref) :
  insert_desc heap x l ≡ₚ x :: l.
Proof.
  induction l as [| y l IH]; cbn [insert_desc]; [reflexivity |].
  destruct (priority (heap x) <? priority (heap y))%N; [| reflexivity].
  rewrite IH. apply Permutation_swap.
Qed.

Lemma sort_desc_perm (l : list ref) : sort_desc heap l ≡ₚ l.
Proof.
  induction l as [| x l IH]; cbn [sort_desc fold_right]; [reflexivity |].
  fold (sort_desc heap l). rewrite insert_desc_perm, IH. reflexivity.
Qed.

(** *** Order and protected sections *)

Lemma filter_sublist {A} (f : A -> bool) (l : list A) :
  sublist (List.filter f l) l.
Proof.
  induction l as [| x l IH]; cbn [List.filter]; [constructor |].
  destruct (f x); [apply sublist_skip | apply sublist_cons]; exact IH.
Qed.

Lemma removal_loop_sublist (budget : Z) (rest remaining : list ref) (cur : Z) :
  sublist (removal_loop heap budget rest remaining cur) remaining.
Proof.
  revert remaining cur.
  induction rest as [| r rest IH]; intros remaining cur; cbn [removal_loop];
    [reflexivity |].
  destruct (cur <=? budget); [reflexivity |].
  etransitivity; [apply IH | apply filter_sublist].
Qed.

Lemma filter_protected_other (r : ref) (l : list ref) :
  removable r = true ->
  List.filter protected (List.filter (other r) l) = List.filter protected l.
Proof.
  intros Hr. induction l as [| s l IH]; cbn [List.filter]; [reflexivity |].
  unfold other at 1. destruct (Nat.eqb_spec s r) as [-> | Hne]; cbn [negb].
  - rewrite protected_not_removable, Hr. cbn [negb]. exact IH.
  - cbn [List.filter]. destruct (protected s); [f_equal |]; exact IH.
Qed.

Lemma removal_loop_protected (budget : Z) (rest remaining : list ref) (cur : Z) :
  Forall (fun r => removable r = true) rest ->
  List.filter protected (removal_loop heap budget rest remaining cur)
  = List.filter protected remaining.
Proof.
  revert remaining cur.
  induction rest as [| r rest IH]; intros remaining cur Hall;
    cbn [removal_loop]; [reflexivity |].
  destruct (cur <=? budget); [reflexivity |].
  apply Forall_cons in Hall as [Hr Hrest].
  rewrite IH by exact Hrest. apply filter_protected_other, Hr.
Qed.

Lemma removable_sorted (sections : list ref) :
  Forall (fun r => removable r = true)
         (sort_desc heap (List.filter removable sections)).
Proof.
  rewrite sort_desc_perm. apply Forall_forall. intros r Hin.
  apply list_elem_of_In, filter_In in Hin. apply Hin.
Qed.
(** *** Cost accounting of the removal loop *)

Lemma occ_other (r x : ref) (l : list ref) :
  x <> r -> occ x (List.filter (other r) l) = occ x l.
Proof.
  intros Hne. unfold occ.
  induction l as [| s l IH]; cbn [List.filter]; [reflexivity |].
  unfold other at 1. destruct (Nat.eqb_spec s r) as [-> | Hs]; cbn [negb].
  - rewrite count_occ_cons_neq by congruence. exact IH.
  - destruct (Nat.eq_dec s x) as [-> | Hsx].
    + rewrite !count_occ_cons_eq by reflexivity. f_equal. exact IH.
    + rewrite !count_occ_cons_neq by assumption. exact IH.
Qed.

Lemma sum_cost_other (r : ref) (l : list ref) :
  sum_cost (List.filter (other r) l) = sum_cost l - Z.of_nat (occ r l) * cost r.
Proof.
  unfold occ.
  induction l as [| s l IH]; cbn [List.filter sum_cost_of]; [cbn; lia |].
  unfold other at 1. destruct (Nat.eqb_spec s r) as [-> | Hs]; cbn [negb].
  - rewrite count_occ_cons_eq by reflexivity. rewrite IH, Nat2Z.inj_succ.
    unfold ref. lia.
  - rewrite count_occ_cons_neq by assumption.
    cbn [sum_cost_of]. rewrite IH. unfold ref. lia.
Qed.

Lemma mem_true (x : ref) (l : list ref) : mem x l = true <-> In x l.
Proof.
  unfold mem. rewrite existsb_exists. split.
  - intros (y & Hin & Heq). apply Nat.eqb_eq in Heq. subst. exact Hin.
  - intros Hin. exists x. split; [exact Hin | apply Nat.eqb_refl].
Qed.

Lemma mem_other (r x : ref) (l : list ref) :
  mem x (List.filter (other r) l) = mem x l && negb (Nat.eqb x r).
Proof.
  apply eq_true_iff_eq. rewrite andb_true_iff, !mem_true, filter_In, negb_true_iff.
  unfold other. rewrite negb_true_iff. reflexivity.
Qed.

Lemma occ_zero (x : ref) (l : list ref) : ~ In x l -> occ x l = 0%nat.
Proof. intros H. apply count_occ_not_In, H. Qed.

Lemma occ_pos (x : ref) (l : list ref) : In x l -> (0 < occ x l)%nat.
Proof. intros H. apply count_occ_In, H. Qed.

(** Entries of [rest] equal to [r] become credit once [r] has left. *)
Lemma credit_other (r : ref) (rest remaining : list ref) :
  credit rest (List.filter (other r) remaining)
  = credit rest remaining
    + (if mem r remaining then Z.of_nat (occ r rest) * cost r else 0).
Proof.
  unfold credit_of, occ.
  induction rest as [| x rest IH]; cbn [List.filter sum_cost_of].
  - destruct (mem r remaining); cbn; lia.
  - rewrite mem_other.
    destruct (Nat.eqb_spec x r) as [-> | Hx]; cbn [negb].
    + rewrite andb_false_r. cbn [negb sum_cost_of].
      rewrite count_occ_cons_eq by reflexivity. rewrite IH, Nat2Z.inj_succ.
      unfold ref. destruct (mem r remaining); cbn [negb sum_cost_of]; lia.
    + rewrite andb_true_r, count_occ_cons_neq by assumption.
      destruct (mem x remaining); cbn [negb sum_cost_of]; rewrite IH;
        unfold ref; lia.
Qed.

Lemma credit_nonneg (rest remaining : list ref) : 0 <= credit rest remaining.
Proof. apply sum_cost_nonneg. Qed.

Lemma credit_none (rest remaining : list ref) :
  (forall x, In x rest -> In x remaining) -> credit rest remaining = 0.
Proof.
  unfold credit_of. intros Hsub.
  induction rest as [| x rest IH]; cbn [List.filter]; [reflexivity |].
  assert (Hx : mem x remaining = true) by (apply mem_true, Hsub; left; reflexivity).
  rewrite Hx. cbn [negb]. apply IH. intros y Hy. apply Hsub. right. exact Hy.
Qed.

(** The loop stops within budget, or with nothing removable left. *)
Lemma removal_loop_fits (budget : Z) (rest remaining : list ref) (cur : Z) :
  sum_cost remaining + credit rest remaining <= cur ->
  (forall r, In r remaining -> (occ r rest <= occ r remaining)%nat) ->
  (forall s, In s remaining -> removable s = true -> In s rest) ->
  sum_cost (removal_loop heap budget rest remaining cur) <= budget
  \/ Forall (fun s => protected s = true)
            (removal_loop heap budget rest remaining cur).
Proof.
  revert remaining cur.
  induction rest as [| r rest IH]; intros remaining cur Hcur Hocc Hin;
    cbn [removal_loop].
  - right. apply Forall_forall. intros s Hs. apply list_elem_of_In in Hs.
    rewrite protected_not_removable.
    destruct (is_removable heap s) eqn:E; [| reflexivity].
    destruct (Hin s Hs E).
  - destruct (Z.leb_spec cur budget) as [Hle | Hgt].
    { left. pose proof (credit_nonneg (r :: rest) remaining). lia. }
    change (fun s : nat => negb (Nat.eqb s r)) with (other r).
    fold (cost_of heap r). apply IH.
    + rewrite sum_cost_other, credit_other.
      assert (Hc : 0 <= cost r) by (unfold cost_of; lia).
      revert Hcur. unfold credit_of at 1. cbn [List.filter].
      destruct (mem r remaining) eqn:Hm; cbn [negb sum_cost_of].
      * fold (credit rest remaining). intros Hcur.
        apply mem_true in Hm. specialize (Hocc r Hm).
        unfold occ in *. rewrite count_occ_cons_eq in Hocc by reflexivity.
        apply Nat2Z.inj_le in Hocc. rewrite Nat2Z.inj_succ in Hocc.
        unfold ref in *.
        set (a := Z.of_nat (count_occ Nat.eq_dec rest r)) in *.
        set (m := Z.of_nat (count_occ Nat.eq_dec remaining r)) in *.
        assert (0 <= (m - a - 1) * cost r) by (apply Z.mul_nonneg_nonneg; lia).
        lia.
      * fold (credit rest remaining). intros Hcur.
        rewrite (occ_zero r remaining); [lia |].
        intros Hr. apply mem_true in Hr. congruence.
    + intros x Hx. apply filter_In in Hx as [Hx Hne].
      unfold other in Hne. apply negb_true_iff, Nat.eqb_neq in Hne.
      rewrite occ_other by exact Hne. specialize (Hocc x Hx).
      unfold occ in Hocc at 1. rewrite count_occ_cons_neq in Hocc by congruence.
      exact Hocc.
    + intros s Hs Hrem. apply filter_In in Hs as [Hs Hne].
      unfold other in Hne. apply negb_true_iff, Nat.eqb_neq in Hne.
      destruct (Hin s Hs Hrem) as [-> | Htail]; [congruence | exact Htail].
Qed.

Lemma enforceTokenBudget_fits (sections : list ref) (budget : Z) :
  sum_cost (enforceTokenBudget heap sections budget) <= budget
  \/ Forall (fun s => protected s = true) (enforceTokenBudget heap sections budget).
Proof.
  unfold enforceTokenBudget. rewrite total_tokens_sum.
  destruct (Z.leb_spec (sum_cost sections) budget) as [Hle | Hgt]; [left; exact Hle |].
  set (rest := sort_desc heap _).
  assert (Hperm : rest ≡ₚ List.filter removable sections) by apply sort_desc_perm.
  apply removal_loop_fits.
  - rewrite credit_none; [lia |].
    intros x Hx. apply list_elem_of_In in Hx. rewrite Hperm in Hx.
    apply list_elem_of_In, filter_In in Hx. apply Hx.
  - intros r _. unfold occ.
    rewrite (proj1 (Permutation_count_occ Nat.eq_dec _ _) Hperm r).
    clear. induction sections as [| s l IH]; cbn [List.filter]; [lia |].
    destruct (removable s); destruct (Nat.eq_dec s r) as [-> | Hne];
      rewrite ?count_occ_cons_eq, ?count_occ_cons_neq by congruence;
      unfold ref in *; lia.
  - intros s Hs Hrem. apply list_elem_of_In. rewrite Hperm.
    apply list_elem_of_In, filter_In. split; assumption.
Qed.
End BudgetFacts.

(** C6 — [enforceTokenBudget] never removes a section of priority 0 (the
    protected sections of the result are those of the input, in the same
    order and number), and the total cost of what it returns is within the
    budget unless every section left has priority 0. *)
Theorem enforceTokenBudget_protects (heap : ContextTracker.Heap)
    (sections : list ContextTracker.ref) (budget : Z) :
  let result := ContextTracker.enforceTokenBudget heap sections budget in
  (forall s, In s sections -> ContextTracker.priority (heap s) = 0%N -> In s result)
  /\ List.filter (is_protected heap) result = List.filter (is_protected heap) sections
  /\ (ContextTracker.total_tokens heap result <= budget
      \/ Forall (fun s => ContextTracker.priority (heap s) = 0%N) result).
Proof.
  intros result.
  assert (Hkept : List.filter (is_protected heap) result
                  = List.filter (is_protected heap) sections).
  { subst result. unfold ContextTracker.enforceTokenBudget.
    destruct (_ <=? budget); [reflexivity |].
    apply removal_loop_protected, removable_sorted. }
  split; [| split; [exact Hkept |]].
  - intros s Hin Hprio.
    assert (Hs : In s (List.filter (is_protected heap) sections)).
    { apply filter_In. split; [exact Hin |].
      unfold is_protected. rewrite Hprio. reflexivity. }
    rewrite <- Hkept in Hs. apply filter_In in Hs. apply Hs.
  - rewrite total_tokens_sum.
    destruct (enforceTokenBudget_fits heap sections budget) as [Hfit | Hprot];
      [left; exact Hfit | right].
    eapply Forall_impl; [exact Hprot |].
    intros s Hs. unfold is_protected in Hs. apply N.eqb_eq in Hs. exact Hs.
Qed.

Lemma enforceTokenBudget_protects_witness :
  let heap : ContextTracker.Heap := fun r =>
    match r with
    | O => ContextTracker.mkSection "agent" "x" 0 100
    | S O => ContextTracker.mkSection "history" "y" 6 200
    | _ => ContextTracker.mkSection "index" "z" 5 150
    end in
  In 0%nat (ContextTracker.enforceTokenBudget heap [0; 1; 2]%nat 200).
Proof.
  intros heap.
  apply (proj1 (enforceTokenBudget_protects heap [0; 1; 2]%nat 200)).
  - left. reflexivity.
  - reflexivity.
Defined.

(** C10 — When the total cost is within the budget, [enforceTokenBudget]
    returns its input unchanged; and whatever it returns is its input with
    some sections left out, the others in their original order. *)
Theorem enforceTokenBudget_order (heap : ContextTracker.Heap)
    (sections : list ContextTracker.ref) (budget : Z) :
  (ContextTracker.total_tokens heap sections <= budget ->
   ContextTracker.enforceTokenBudget heap sections budget = sections)
  /\ sublist (ContextTracker.enforceTokenBudget heap sections budget) sections.
Proof.
  unfold ContextTracker.enforceTokenBudget. split.
  - intros Hle. apply Z.leb_le in Hle. rewrite Hle. reflexivity.
  - destruct (_ <=? budget); [reflexivity | apply removal_loop_sublist].
Qed.

Lemma enforceTokenBudget_order_witness :
  let heap : ContextTracker.Heap := fun r =>
    match r with
    | O => ContextTracker.mkSection "agent" "x" 0 100
    | _ => ContextTracker.mkSection "task" "y" 0 100
    end in
  ContextTracker.enforceTokenBudget heap [0; 1]%nat 500 = [0; 1]%nat.
Proof.
  intros heap.
  apply (proj1 (enforceTokenBudget_order heap [0; 1]%nat 500)).
  vm_compute. discriminate.
Defined.

(** ** Workflow engine: wave planning *)

Section WaveFacts.
Import WorkflowEngine.

Lemma indexOf_range {A} (eqb : A -> A -> bool) (x : A) (l : list A) :
  -1 <= Js.indexOf eqb x l < Z.of_nat (length l).
Proof.
  induction l as [| y l IH]; cbn [Js.indexOf length]; [lia |].
  destruct (eqb y x); [lia |].
  destruct (Z.ltb_spec (Js.indexOf eqb x l) 0); lia.
Qed.

Lemma splice1_length_le {A} (i : Z) (l : list A) :
  (length (Js.splice1 i l) <= length l)%nat.
Proof.
  unfold Js.splice1. rewrite length_app, length_take, length_drop. lia.
Qed.

Lemma splice1_length {A} (i : Z) (l : list A) :
  -1 <= i < Z.of_nat (length l) ->
  length (Js.splice1 i l) = pred (length l).
Proof.
  intros Hi. unfold Js.splice1. rewrite length_app, length_take, length_drop.
  destruct (Z.ltb_spec i 0); lia.
Qed.

Lemma take_wave_length_le (wave : list WorkflowPhase) (completed : gset string)
    (remaining : list WorkflowPhase) :
  (length (take_wave wave completed remaining).2 <= length remaining)%nat.
Proof.
  revert completed remaining.
  induction wave as [| p wave IH]; intros completed remaining; cbn [take_wave];
    [cbn; lia |].
  etransitivity; [apply IH | apply splice1_length_le].
Qed.

(** A non-empty wave takes at least one phase out of [remaining]. *)
Lemma take_wave_shrinks (wave : list WorkflowPhase) (completed : gset string)
    (remaining : list WorkflowPhase) :
  wave <> [] -> remaining <> [] ->
  (length (take_wave wave completed remaining).2 < length remaining)%nat.
Proof.
  destruct wave as [| p wave]; [congruence |]. intros _ Hne. cbn [take_wave].
  eapply Nat.le_lt_trans; [apply take_wave_length_le |].
  rewrite splice1_length by apply indexOf_range.
  destruct remaining; [congruence | cbn; lia].
Qed.

Lemma take_wave_completed (wave : list WorkflowPhase) (completed : gset string)
    (remaining : list WorkflowPhase) (d : string) :
  d ∈ (take_wave wave completed remaining).1
  <-> d ∈ completed \/ exists p, In p wave /\ ph_id p = d.
Proof.
  revert completed remaining.
  induction wave as [| p wave IH]; intros completed remaining; cbn [take_wave].
  - cbn. split; [auto | intros [H | (q & [] & _)]; exact H].
  - rewrite IH, elem_of_union, elem_of_singleton. split.
    + intros [[-> | H] | (q & Hq & Hid)].
      * right. exists p. split; [left; reflexivity | reflexivity].
      * left. exact H.
      * right. exists q. split; [right; exact Hq | exact Hid].
    + intros [H | (q & [-> | Hq] & Hid)].
      * left. right. exact H.
      * left. left. symmetry. exact Hid.
      * right. exists q. split; assumption.
Qed.

Lemma eligible_spec (completed : gset string) (p : WorkflowPhase) :
  eligible completed p = true <-> forall d, In d (deps p) -> d ∈ completed.
Proof.
  unfold eligible. rewrite forallb_forall. split; intros H d Hd.
  - specialize (H d Hd). apply bool_decide_eq_true in H. exact H.
  - apply bool_decide_eq_true. exact (H d Hd).
Qed.

Lemma placed_before_app (waves : list (list WorkflowPhase))
    (wave : list WorkflowPhase) (k : nat) (d : string) :
  placed_before waves k d -> placed_before (waves ++ [wave]) k d.
Proof.
  intros (j & w & q & Hj & Hw & Hq & Hid). exists j, w, q.
  repeat split; try assumption.
  rewrite lookup_app_l; [exact Hw |]. eapply lookup_lt_Some, Hw.
Qed.

Lemma topological_snoc (waves : list (list WorkflowPhase))
    (wave : list WorkflowPhase) :
  topological waves ->
  (forall p d, In p wave -> In d (deps p) ->
               placed_before waves (length waves) d) ->
  topological (waves ++ [wave]).
Proof.
  intros Htopo Hwave k w p d Hk Hp Hd.
  destruct (decide (k < length waves)%nat) as [Hlt | Hge].
  - rewrite lookup_app_l in Hk by exact Hlt.
    apply placed_before_app. eapply Htopo; eassumption.
  - rewrite lookup_app_r in Hk by lia.
    destruct (k - length waves)%nat as [| n] eqn:E; [| destruct n; discriminate].
    cbn in Hk. injection Hk as <-.
    assert (k = length waves) as -> by lia.
    apply placed_before_app. eapply Hwave; eassumption.
Qed.

(** The planning loop returns, and without the fallback its waves are in
    topological order. *)
Lemma waves_loop_spec (fuel : nat) (completed : gset string)
    (remaining : list WorkflowPhase) (waves : list (list WorkflowPhase)) :
  (length remaining <= fuel)%nat ->
  (forall d, d ∈ completed -> placed_before waves (length waves) d) ->
  topological waves ->
  exists waves' warned,
    waves_loop fuel completed remaining waves = Some (waves', warned)
    /\ (warned = false -> topological waves').
Proof.
  revert completed remaining waves.
  induction fuel as [| fuel IH]; intros completed remaining waves Hfuel Hdone Htopo.
  - destruct remaining; [| cbn in Hfuel; lia].
    exists waves, false. split; [reflexivity | intros _; exact Htopo].
  - destruct remaining as [| p0 rest] eqn:Erem.
    { exists waves, false. split; [reflexivity | intros _; exact Htopo]. }
    rewrite <- Erem in *. cbn [waves_loop].
    assert (Hne : remaining <> []) by (rewrite Erem; discriminate).
    replace (match remaining with [] => Some (waves, false) | _ :: _ => _ end)
      with (let wave := List.filter (eligible completed) remaining in
            if (length wave =? 0)%nat
            then Some (waves ++ map (fun p => [p]) remaining, true)
            else let '(completed', remaining') := take_wave wave completed remaining in
                 waves_loop fuel completed' remaining' (waves ++ [wave]))
      by (rewrite Erem; reflexivity).
    cbv zeta. set (wave := List.filter (eligible completed) remaining).
    destruct (Nat.eqb_spec (length wave) 0) as [Hempty | Hwave].
    { eexists _, true. split; [reflexivity | discriminate]. }
    destruct (take_wave wave completed remaining) as [completed' remaining'] eqn:Etake.
    apply IH.
    + pose proof (take_wave_shrinks wave completed remaining) as Hshrink.
      rewrite Etake in Hshrink. cbn [snd] in Hshrink.
      assert (wave <> []) by (intros Hnil; rewrite Hnil in Hwave; cbn in Hwave; lia).
      specialize (Hshrink ltac:(assumption) Hne). lia.
    + intros d Hd.
      pose proof (take_wave_completed wave completed remaining d) as Hc.
      rewrite Etake in Hc. cbn [fst] in Hc. apply Hc in Hd.
      rewrite length_app. cbn [length].
      destruct Hd as [Hold | (q & Hq & Hid)].
      * destruct (Hdone d Hold) as (j & w & q & Hj & Hw & Hq & Hid).
        exists j, w, q. repeat split; try assumption; [lia |].
        rewrite lookup_app_l; [exact Hw | eapply lookup_lt_Some, Hw].
      * exists (length waves), wave, q. repeat split; try assumption; [lia |].
        rewrite lookup_app_r by lia. rewrite Nat.sub_diag. reflexivity.
    + apply topological_snoc; [exact Htopo |].
      intros p d Hp Hd. apply Hdone.
      apply filter_In in Hp as [_ Hel].
      apply (proj1 (eligible_spec completed p) Hel d Hd).
Qed.
Lemma indexOf_found (p : WorkflowPhase) (l : list WorkflowPhase) :
  In p l ->
  exists pre post,
    l = pre ++ p :: post
    /\ Js.indexOf same_phase p l = Z.of_nat (length pre).
Proof.
  induction l as [| y l IH]; intros Hin; [destruct Hin |].
  cbn [Js.indexOf]. unfold same_phase at 1.
  destruct (bool_decide_reflect (y = p)) as [-> | Hne].
  - exists [], l. split; reflexivity.
  - destruct Hin as [Heq | Hin]; [congruence |].
    destruct (IH Hin) as (pre & post & -> & Hidx).
    exists (y :: pre), post. split; [reflexivity |].
    rewrite Hidx. destruct (Z.ltb_spec (Z.of_nat (length pre)) 0); [lia |].
    cbn [length]. lia.
Qed.

(** [remaining.splice(remaining.indexOf(p), 1)] takes one [p] out. *)
Lemma splice1_indexOf (p : WorkflowPhase) (l : list WorkflowPhase) :
  In p l -> p :: Js.splice1 (Js.indexOf same_phase p l) l ≡ₚ l.
Proof.
  intros Hin. destruct (indexOf_found p l Hin) as (pre & post & -> & ->).
  unfold Js.splice1.
  destruct (Z.ltb_spec (Z.of_nat (length pre)) 0); [lia |].
  rewrite length_app. cbn [length].
  replace (Z.to_nat (Z.min _ _)) with (length pre) by lia.
  rewrite take_app_length.
  assert (Hdrop : drop (S (length pre)) (pre ++ p :: post) = post)
    by (clear; induction pre as [| x pre IH]; [reflexivity | exact IH]).
  rewrite Hdrop. apply Permutation_middle.
Qed.

Lemma take_wave_perm (wave : list WorkflowPhase) (completed : gset string)
    (remaining : list WorkflowPhase) :
  wave ⊆+ remaining ->
  wave ++ (take_wave wave completed remaining).2 ≡ₚ remaining.
Proof.
  revert completed remaining.
  induction wave as [| p wave IH]; intros completed remaining Hsub; cbn [take_wave].
  - reflexivity.
  - assert (Hin : In p remaining).
    { apply list_elem_of_In. eapply elem_of_submseteq; [| exact Hsub].
      apply list_elem_of_here. }
    pose proof (splice1_indexOf p remaining Hin) as Hperm.
    cbn [app]. rewrite IH; [exact Hperm |].
    rewrite <- Hperm in Hsub.
    apply (submseteq_app_inv_l _ _ [p]). exact Hsub.
Qed.

Lemma filter_submseteq {A} (f : A -> bool) (l : list A) : List.filter f l ⊆+ l.
Proof. apply sublist_submseteq, filter_sublist. Qed.

Lemma splice1_sublist {A} (i : Z) (l : list A) : sublist (Js.splice1 i l) l.
Proof.
  unfold Js.splice1. cbv zeta.
  generalize (Z.to_nat (if i <? 0 then Z.max (Z.of_nat (length l) + i) 0
                        else Z.min i (Z.of_nat (length l)))).
  intros k. rewrite <- (take_drop k l) at 3.
  apply sublist_app; [reflexivity |].
  revert k. induction l as [| x l IH]; intros k.
  - destruct k; constructor.
  - destruct k as [| k]; cbn [drop]; [apply sublist_cons; reflexivity |].
    apply IH.
Qed.

Lemma take_wave_sublist (wave : list WorkflowPhase) (completed : gset string)
    (remaining : list WorkflowPhase) :
  sublist (take_wave wave completed remaining).2 remaining.
Proof.
  revert completed remaining.
  induction wave as [| p wave IH]; intros completed remaining; cbn [take_wave];
    [reflexivity |].
  etransitivity; [apply IH | apply splice1_sublist].
Qed.

Lemma least_rank (f : WorkflowPhase -> nat) (l : list WorkflowPhase) :
  l <> [] -> exists p, In p l /\ forall q, In q l -> (f p <= f q)%nat.
Proof.
  induction l as [| x l IH]; [congruence |]. intros _.
  destruct l as [| y l].
  - exists x. split; [left; reflexivity |]. intros q [<- | []]. lia.
  - destruct IH as (p & Hp & Hmin); [discriminate |].
    destruct (le_lt_dec (f x) (f p)) as [Hle | Hlt].
    + exists x. split; [left; reflexivity |].
      intros q [<- | Hq]; [lia |]. specialize (Hmin q Hq). lia.
    + exists p. split; [right; exact Hp |].
      intros q [<- | Hq]; [lia | apply Hmin, Hq].
Qed.

Lemma forallb_false {A} (f : A -> bool) (l : list A) :
  forallb f l = false -> exists x, In x l /\ f x = false.
Proof.
  induction l as [| x l IH]; cbn [forallb]; [discriminate |].
  destruct (f x) eqn:Hx; cbn [andb].
  - intros H. destruct (IH H) as (y & Hy & Hfy). exists y. split; [right |]; assumption.
  - intros _. exists x. split; [left; reflexivity | exact Hx].
Qed.

Lemma placed_in_concat (waves : list (list WorkflowPhase)) (d : string) :
  placed_before waves (length waves) d
  <-> exists q, In q (concat waves) /\ ph_id q = d.
Proof.
  split.
  - intros (j & wave & q & _ & Hw & Hq & Hid). exists q. split; [| exact Hid].
    apply in_concat. exists wave. split; [| exact Hq].
    apply list_elem_of_In. eapply list_elem_of_lookup_2, Hw.
  - intros (q & Hq & Hid). apply in_concat in Hq as (wave & Hw & Hq).
    apply list_elem_of_In, list_elem_of_lookup_1 in Hw as [j Hj].
    exists j, wave, q. repeat split; try assumption.
    eapply lookup_lt_Some, Hj.
Qed.

(** A phase left out of a wave lacks a dependency among the placed
    phases. *)
Lemma not_eligible_missing (completed : gset string) (waves : list (list WorkflowPhase))
    (p : WorkflowPhase) :
  (forall d, d ∈ completed <-> exists q, In q (concat waves) /\ ph_id q = d) ->
  eligible completed p = false ->
  exists d, In d (deps p) /\ ~ placed_before waves (length waves) d.
Proof.
  intros Hdone Hel. unfold eligible in Hel.
  apply forallb_false in Hel as (d & Hd & Hmiss).
  exists d. split; [exact Hd |].
  intros Hplaced. apply placed_in_concat, Hdone in Hplaced.
  apply bool_decide_eq_false in Hmiss. contradiction.
Qed.

(** The planning loop: it returns; its result is in topological order
    exactly when the fallback was not taken; the fallback appends what is
    left, in list order, as singleton waves; and resolvable, acyclic
    dependencies never lead to it. *)
Lemma waves_loop_full (phs : list WorkflowPhase) (fuel : nat) :
  forall (completed : gset string) (remaining : list WorkflowPhase)
         (waves : list (list WorkflowPhase)),
    (length remaining <= fuel)%nat ->
    (forall d, d ∈ completed <-> exists q, In q (concat waves) /\ ph_id q = d) ->
    topological waves ->
    phs ≡ₚ concat waves ++ remaining ->
    sublist remaining phs ->
    exists waves' warned,
      waves_loop fuel completed remaining waves = Some (waves', warned)
      /\ (warned = false -> topological waves')
      /\ (warned = true ->
          ~ topological waves'
          /\ exists placed rest,
               waves' = placed ++ map (fun p => [p]) rest
               /\ rest <> []
               /\ sublist rest phs
               /\ topological placed
               /\ Forall (fun p => exists d, In d (deps p)
                                             /\ ~ placed_before placed (length placed) d)
                         rest)
      /\ (resolvable_acyclic phs -> warned = false).
Proof.
  induction fuel as [| fuel IH];
    intros completed remaining waves Hfuel Hdone Htopo Hperm Hsub.
  - destruct remaining; [| cbn in Hfuel; lia].
    exists waves, false. split; [reflexivity |].
    split; [intros _; exact Htopo |]. split; [discriminate | reflexivity].
  - destruct remaining as [| p0 rest0] eqn:Erem.
    { exists waves, false. split; [reflexivity |].
      split; [intros _; exact Htopo |]. split; [discriminate | reflexivity]. }
    rewrite <- Erem in *. cbn [waves_loop].
    assert (Hne : remaining <> []) by (rewrite Erem; discriminate).
    replace (match remaining with [] => Some (waves, false) | _ :: _ => _ end)
      with (let wave := List.filter (eligible completed) remaining in
            if (length wave =? 0)%nat
            then Some (waves ++ map (fun p => [p]) remaining, true)
            else let '(completed', remaining') := take_wave wave completed remaining in
                 waves_loop fuel completed' remaining' (waves ++ [wave]))
      by (rewrite Erem; reflexivity).
    cbv zeta. set (wave := List.filter (eligible completed) remaining).
    destruct (Nat.eqb_spec (length wave) 0) as [Hempty | Hwave].
    + (* the fallback *)
      assert (Hnone : forall p, In p remaining -> eligible completed p = false).
      { intros p Hp. destruct (eligible completed p) eqn:Hel; [| reflexivity].
        assert (Hin : In p wave) by (apply filter_In; split; assumption).
        destruct wave; [destruct Hin | discriminate]. }
      eexists _, true. split; [reflexivity |].
      split; [discriminate |]. split; [intros _; split |].
      * intros Hall.
        assert (Hp0 : In p0 remaining) by (rewrite Erem; left; reflexivity).
        destruct (not_eligible_missing completed waves p0 Hdone (Hnone p0 Hp0))
          as (d & Hd & Hmiss).
        apply Hmiss.
        destruct (Hall (length waves) [p0] p0 d) as (j & w & q & Hj & Hw & Hq & Hid).
        { rewrite lookup_app_r by lia. rewrite Nat.sub_diag, Erem. reflexivity. }
        { left. reflexivity. }
        { exact Hd. }
        exists j, w, q. repeat split; try assumption.
        rewrite lookup_app_l in Hw by exact Hj. exact Hw.
      * exists waves, remaining. split; [reflexivity |]. split; [exact Hne |].
        split; [exact Hsub |]. split; [exact Htopo |].
        apply Forall_forall. intros p Hp. apply list_elem_of_In in Hp.
        apply (not_eligible_missing completed waves p Hdone (Hnone p Hp)).
      * intros (rank & Hrank). exfalso.
        destruct (least_rank (fun p => rank (ph_id p)) remaining Hne) as (p & Hp & Hmin).
        assert (Hpin : In p phs).
        { apply list_elem_of_In. eapply elem_of_sublist; [| exact Hsub].
          apply list_elem_of_In, Hp. }
        assert (Hel : eligible completed p = true).
        { apply eligible_spec. intros d Hd.
          destruct (Hrank p d Hpin Hd) as [(q & Hq & Hid) Hlt].
          apply Hdone.
          apply list_elem_of_In in Hq. rewrite Hperm in Hq.
          apply list_elem_of_In, in_app_or in Hq as [Hq | Hq].
          - exists q. split; assumption.
          - specialize (Hmin q Hq). cbv beta in Hmin. rewrite Hid in Hmin. lia. }
        rewrite (Hnone p Hp) in Hel. discriminate.
    + (* one more wave *)
      assert (Hwne : wave <> [])
        by (intros Hnil; rewrite Hnil in Hwave; cbn in Hwave; lia).
      pose proof (take_wave_shrinks wave completed remaining Hwne Hne) as Hshrink.
      pose proof (take_wave_perm wave completed remaining (filter_submseteq _ _))
        as Hwperm.
      pose proof (take_wave_sublist wave completed remaining) as Hwsub.
      pose proof (take_wave_completed wave completed remaining) as Hc.
      destruct (take_wave wave completed remaining) as [completed' remaining'].
      cbn [fst snd] in *.
      apply IH.
      * lia.
      * intros d. rewrite Hc, Hdone, concat_app. cbn [concat]. rewrite app_nil_r.
        split.
        -- intros [(q & Hq & Hid) | (q & Hq & Hid)]; exists q;
             (split; [apply in_or_app | exact Hid]); [left | right]; assumption.
        -- intros (q & Hq & Hid). apply in_app_or in Hq as [Hq | Hq];
             [left | right]; exists q; split; assumption.
      * apply topological_snoc; [exact Htopo |].
        intros p d Hp Hd. apply placed_in_concat, Hdone.
        apply filter_In in Hp as [_ Hel].
        apply (proj1 (eligible_spec completed p) Hel d Hd).
      * rewrite Hperm, concat_app. cbn [concat]. rewrite app_nil_r, <- app_assoc, Hwperm.
        reflexivity.
      * etransitivity; eassumption.
Qed.
End WaveFacts.

(** C4, the claim as stated, fails on a circular dependency: with [A]
    depending on [B] and [B] on [A] no phase is ever eligible, the
    fallback places the phases as singleton waves in list order, and [A]
    sits in wave 0 although its dependency [B] is placed in no earlier
    wave. *)
Lemma calculateWaves_cycle_not_topological :
  let a := mkPhase "A" "A" "dev" "a.md" None None None (Some ["B"]) 0 None in
  let b := mkPhase "B" "B" "dev" "b.md" None None None (Some ["A"]) 0 None in
  WorkflowEngine.calculateWaves [a; b] = Some ([[a]; [b]], true)
  /\ ~ topological [[a]; [b]].
Proof.
  cbv zeta. split; [vm_compute; reflexivity |].
  intros Htopo.
  destruct (Htopo 0%nat _ _ "B" eq_refl (or_introl eq_refl) (or_introl eq_refl))
    as (j & _ & _ & Hj & _).
  lia.
Qed.

(** C4 (amended) — [calculateWaves] returns for every list of phases.
    Its waves are in topological order (every dependency of a phase placed
    in wave [k] is the id of a phase placed in a wave of index below [k])
    exactly when it does not take the circular-dependency fallback, that
    is when every iteration finds an eligible phase and no warning is
    printed.  It does not take the fallback when the dependencies are
    resolvable and acyclic.  Under the fallback the waves placed so far
    are in topological order and the phases left, each of which has a
    dependency that is the id of no placed phase, follow as singleton
    waves in list order. *)
Theorem calculateWaves_topological (phs : list WorkflowPhase) :
  exists waves warned,
    WorkflowEngine.calculateWaves phs = Some (waves, warned)
    /\ (warned = false <-> topological waves)
    /\ (resolvable_acyclic phs -> warned = false)
    /\ (warned = true ->
        exists placed rest,
          waves = placed ++ map (fun p => [p]) rest
          /\ rest <> []
          /\ sublist rest phs
          /\ topological placed
          /\ Forall (fun p => exists d, In d (WorkflowEngine.deps p)
                                        /\ ~ placed_before placed (length placed) d)
                    rest).
Proof.
  unfold WorkflowEngine.calculateWaves.
  destruct (waves_loop_full phs (length phs) ∅ phs [])
    as (waves & warned & Hrun & Htopo & Hfallback & Hresolved).
  - lia.
  - intros d. split.
    + intros Hd. apply not_elem_of_empty in Hd. destruct Hd.
    + intros (q & [] & _).
  - intros k wave p d Hk. rewrite lookup_nil in Hk. discriminate.
  - reflexivity.
  - reflexivity.
  - exists waves, warned. split; [exact Hrun |].
    split; [| split; [exact Hresolved | intros Hw; apply Hfallback, Hw]].
    split; [exact Htopo |].
    intros Hall. destruct warned; [| reflexivity].
    destruct (Hfallback eq_refl) as [Hnot _]. contradiction.
Qed.

Lemma calculateWaves_topological_witness :
  let a := mkPhase "A" "A" "dev" "a.md" None None None None 0 None in
  let b := mkPhase "B" "B" "dev" "b.md" None None None (Some []) 0 None in
  let c := mkPhase "C" "C" "dev" "c.md" None None None (Some ["A"; "B"]) 0 None in
  WorkflowEngine.calculateWaves [a; b; c] = Some ([[a; b]; [c]], false)
  /\ topological [[a; b]; [c]].
Proof.
  intros a b c.
  destruct (calculateWaves_topological [a; b; c])
    as (waves & warned & Hrun & Hiff & Hresolved & _).
  assert (Hok : warned = false).
  { apply Hresolved.
    exists (fun id => if String.eqb id "C" then 1%nat else 0%nat).
    intros p d [<- | [<- | [<- | []]]] Hd; cbn in Hd; try contradiction.
    destruct Hd as [<- | [<- | []]].
    - split; [exists a; split; [left; reflexivity | reflexivity] | cbn; lia].
    - split; [exists b; split; [right; left; reflexivity | reflexivity] | cbn; lia]. }
  subst warned. pose proof Hrun as Hwaves.
  vm_compute in Hwaves. injection Hwaves as <-.
  split; [exact Hrun | apply Hiff; reflexivity].
Defined.

(** ** Workflow engine: retry *)

Section RetryFacts.
Import WorkflowEngine.
Variable env : Env.
Variable promptPath : string.
Variable phase : WorkflowPhase.

(** One call of [executePrompt]: its result and what it leaves behind. *)
Lemma executePrompt_spec (w : World) :
  exists w',
    executePrompt env promptPath phase w = Some (attempt_result env (runs w), w')
    /\ trace w' = trace w ++ attempt_effects env promptPath (runs w)
    /\ runs w' = (if executor_manual env then runs w else S (runs w))
    /\ now w' = now w.
Proof.
  unfold executePrompt, attempt_result, attempt_effects.
  destruct (executor_manual env).
  - exists w. cbn. rewrite app_nil_r. repeat split; reflexivity.
  - unfold bind, call_executor. cbn.
    destruct (executor_run env (runs w)) as [r | m].
    + unfold get_now, modify_session, ret, emit. cbn.
      destruct (exitCode r =? 0); cbn.
      * eexists. split; [reflexivity |]. cbn. repeat split; reflexivity.
      * destruct (error r) as [e |]; [destruct (JsString.truthy e) |]; cbn;
          (eexists; split; [reflexivity |]); cbn;
          rewrite <- ?app_assoc, ?app_nil_r; repeat split; reflexivity.
    + unfold emit, ret. cbn. eexists. split; [reflexivity |]. cbn.
      rewrite <- app_assoc. repeat split; reflexivity.
Qed.

(** The loop from attempt number [attempt] on: it makes [n] attempts, at
    most one more than the retries left; all but the last fail; it ends on
    a success or with the retries used up. *)
Lemma retry_loop_spec (maxRetries : Z) (fuel : nat) :
  forall (attempt : Z) (w : World),
    0 <= attempt <= maxRetries ->
    fuel = S (Z.to_nat (maxRetries - attempt)) ->
    exists result w' n,
      retry_loop fuel env promptPath phase maxRetries attempt w = Some (result, w')
      /\ (1 <= n)%nat /\ Z.of_nat n <= maxRetries - attempt + 1
      /\ trace w' = trace w ++ retry_trace env promptPath (runs w) attempt n
      /\ runs w' = (if executor_manual env then runs w else runs w + n)%nat
      /\ (forall i, (i < n - 1)%nat ->
                    exitCode (attempt_result env (runs w + i)) <> 0)
      /\ result = attempt_result env (runs w + (n - 1))
      /\ (exitCode result = 0 \/ Z.of_nat n = maxRetries - attempt + 1).
Proof.
  induction fuel as [| fuel IH]; intros attempt w Hatt Hfuel; [lia |].
  cbn [retry_loop]. unfold bind at 1.
  (* the backoff before a retry *)
  set (w0 := if attempt >? 0
             then mkWorld (now w + backoffMs attempt) (session w) (sessions w)
                    (dashboard w) (handoff w) (decisions w) (runs w)
                    (trace w ++ [ESleep (backoffMs attempt)])
             else w).
  assert (Hsleep : (if attempt >? 0 then sleep (backoffMs attempt) else ret tt) w
                   = Some (tt, w0)).
  { subst w0. destruct (attempt >? 0); reflexivity. }
  rewrite Hsleep. unfold bind at 1.
  assert (Hruns0 : runs w0 = runs w) by (subst w0; destruct (attempt >? 0); reflexivity).
  assert (Htr0 : trace w0 = trace w ++
            (if attempt >? 0 then [ESleep (Z.min (1000 * 2 ^ (attempt - 1)) 30000)] else [])).
  { subst w0. destruct (attempt >? 0); cbn; [reflexivity | rewrite app_nil_r; reflexivity]. }
  destruct (executePrompt_spec w0) as (w1 & Hexec & Htr1 & Hruns1 & _).
  rewrite Hexec, Hruns0 in *.
  set (result := attempt_result env (runs w)) in *.
  destruct (negb (exitCode result =? 0) && (attempt + 1 <=? maxRetries)) eqn:Econt.
  - (* another attempt follows *)
    apply andb_true_iff in Econt as [Hfail Hmore].
    apply negb_true_iff, Z.eqb_neq in Hfail. apply Z.leb_le in Hmore.
    assert (Hman : executor_manual env = false).
    { destruct (executor_manual env) eqn:E; [| reflexivity].
      subst result. unfold attempt_result in Hfail. rewrite E in Hfail.
      cbn in Hfail. congruence. }
    rewrite Hman in Hruns1.
    destruct (IH (attempt + 1) w1) as (res & w' & n & Hrun & Hn1 & Hn2 & Htr & Hruns & Hfails & Hres & Hend).
    { lia. }
    { injection Hfuel as ->. f_equal. lia. }
    exists res, w', (S n). rewrite Hrun. split; [reflexivity |].
    split; [lia |]. split; [lia |].
    split.
    { rewrite Htr, Htr1, Htr0, Hruns1. cbn [retry_trace].
      rewrite <- !app_assoc. reflexivity. }
    split.
    { rewrite Hruns, Hman, Hruns1. lia. }
    split.
    { intros i Hi. destruct i as [| i]; [rewrite Nat.add_0_r; exact Hfail |].
      rewrite Hruns1 in Hfails. replace (runs w + S i)%nat with (S (runs w) + i)%nat by lia.
      apply Hfails. lia. }
    split.
    { rewrite Hres, Hruns1. f_equal. lia. }
    destruct Hend as [Hok | Hlast]; [left; exact Hok | right; lia].
  - (* the loop ends here *)
    exists result, w1, 1%nat. split; [reflexivity |].
    split; [lia |]. split; [lia |].
    split.
    { rewrite Htr1, Htr0. cbn [retry_trace]. rewrite app_nil_r, <- app_assoc.
      reflexivity. }
    split.
    { rewrite Hruns1. destruct (executor_manual env); lia. }
    split; [intros i Hi; lia |].
    split; [subst result; f_equal; lia |].
    apply andb_false_iff in Econt as [Hok | Hmax].
    + left. apply negb_false_iff, Z.eqb_eq in Hok. exact Hok.
    + right. apply Z.leb_gt in Hmax. lia.
Qed.
End RetryFacts.

Lemma run_count_app (a b : list WorkflowEngine.Effect) :
  run_count (a ++ b) = (run_count a + run_count b)%nat.
Proof. unfold run_count. rewrite List.filter_app, length_app. reflexivity. Qed.

Lemma run_count_retry_trace (env : WorkflowEngine.Env) (promptPath : string)
    (k : nat) (attempt : Z) (n : nat) :
  (run_count (retry_trace env promptPath k attempt n) <= n)%nat.
Proof.
  revert k attempt. induction n as [| n IH]; intros k attempt; cbn [retry_trace];
    [cbn; lia |].
  rewrite !run_count_app. specialize (IH (S k) (attempt + 1)).
  assert (run_count (if attempt >? 0
                     then [WorkflowEngine.ESleep (Z.min (1000 * 2 ^ (attempt - 1)) 30000)]
                     else []) = 0%nat) as -> by (destruct (attempt >? 0); reflexivity).
  assert (run_count (attempt_effects env promptPath k) <= 1)%nat; [| lia].
  unfold attempt_effects.
  destruct (WorkflowEngine.executor_manual env); [cbn; lia |].
  destruct (WorkflowEngine.executor_run env k) as [r | m]; [| cbn; lia].
  destruct (exitCode r =? 0); [cbn; lia |].
  destruct (error r) as [e |]; [destruct (JsString.truthy e) |]; cbn; lia.
Qed.

(** C7 — For a phase with [retryLimit r >= 0], [executeWithRetry] returns
    after [n] attempts with [1 <= n <= r + 1], so the executor is invoked
    at most [r + 1] times; every attempt before the last returned a
    non-zero exit code, the last one is a success or the [(r + 1)]-th (the
    first success ends the loop); and the trace is that of [n] attempts in
    which retry number [i >= 1] comes right after a sleep of
    [min(1000 * 2^(i - 1), 30000)] milliseconds. *)
Theorem executeWithRetry_attempts (env : WorkflowEngine.Env) (promptPath : string)
    (phase : WorkflowPhase) (w : WorkflowEngine.World) :
  0 <= ph_retry phase ->
  exists result w' n,
    WorkflowEngine.executeWithRetry env promptPath phase w = Some (result, w')
    /\ (1 <= n)%nat /\ Z.of_nat n <= ph_retry phase + 1
    /\ (run_count (WorkflowEngine.trace w')
        <= run_count (WorkflowEngine.trace w) + n)%nat
    /\ (WorkflowEngine.runs w' <= WorkflowEngine.runs w + n)%nat
    /\ WorkflowEngine.trace w'
       = WorkflowEngine.trace w
         ++ retry_trace env promptPath (WorkflowEngine.runs w) 0 n
    /\ (forall i, (i < n - 1)%nat ->
          exitCode (attempt_result env (WorkflowEngine.runs w + i)) <> 0)
    /\ result = attempt_result env (WorkflowEngine.runs w + (n - 1))
    /\ (exitCode result = 0 \/ Z.of_nat n = ph_retry phase + 1).
Proof.
  intros Hretry. unfold WorkflowEngine.executeWithRetry.
  destruct (retry_loop_spec env promptPath phase (ph_retry phase)
              (S (Z.to_nat (ph_retry phase))) 0 w)
    as (result & w' & n & Hrun & Hn1 & Hn2 & Htr & Hruns & Hfails & Hres & Hend).
  { lia. }
  { f_equal. f_equal. lia. }
  exists result, w', n. split; [exact Hrun |].
  split; [exact Hn1 |]. split; [lia |].
  split.
  { rewrite Htr, run_count_app.
    pose proof (run_count_retry_trace env promptPath (WorkflowEngine.runs w) 0 n).
    lia. }
  split.
  { rewrite Hruns. destruct (WorkflowEngine.executor_manual env); lia. }
  split; [exact Htr |]. split; [exact Hfails |]. split; [exact Hres |].
  destruct Hend as [Hok | Hlast]; [left; exact Hok | right; lia].
Qed.

Lemma executeWithRetry_attempts_witness :
  exists result w',
    WorkflowEngine.executeWithRetry sample_env "prompt.md"
      (sample_phase "build" None None 2) sample_world = Some (result, w')
    /\ (WorkflowEngine.runs w' <= 3)%nat.
Proof.
  destruct (executeWithRetry_attempts sample_env "prompt.md"
              (sample_phase "build" None None 2) sample_world)
    as (result & w' & n & Hrun & _ & Hn & _ & Hruns & _).
  - cbn. lia.
  - exists result, w'. split; [exact Hrun |].
    cbn in Hn, Hruns. lia.
Defined.

(** ** Workflow engine: gates *)

Section GateFacts.
Import WorkflowEngine.

(** [store.save(session)] as the engine calls it always succeeds; the log
    keeps its last event and the record on disk is the session in memory. *)
Lemma store_save_spec (w : World) :
  exists evs',
    last evs' = last (events (session w))
    /\ store_save w
       = Some (tt, mkWorld (now w) (with_events (session w) evs')
                     (<[sessionId (session w) := with_events (session w) evs']> (sessions w))
                     (dashboard w) (handoff w) (decisions w) (runs w) (trace w)).
Proof.
  destruct (trim_events_default (events (session w))) as (evs' & Htrim & _ & _ & Hlast).
  exists evs'. split; [exact Hlast |].
  unfold store_save, SessionStore.save. rewrite Htrim. reflexivity.
Qed.

(** [store.save] on a session that has just been assigned. *)
Lemma save_assigned (w : World) (s1 : SessionState) :
  exists evs',
    SessionStore.trim_events (events s1) None = Some evs'
    /\ store_save (mkWorld (now w) s1 (sessions w) (dashboard w) (handoff w)
                     (decisions w) (runs w) (trace w))
       = Some (tt, mkWorld (now w) (with_events s1 evs')
                     (<[sessionId s1 := with_events s1 evs']> (sessions w))
                     (dashboard w) (handoff w) (decisions w) (runs w) (trace w)).
Proof.
  destruct (trim_events_default (events s1)) as (evs' & Htrim & _).
  exists evs'. split; [exact Htrim |].
  unfold store_save, SessionStore.save. cbn [session sessions]. rewrite Htrim.
  reflexivity.
Qed.


(** What [preparePhase] does to the log and to the position, whether the
    prompt compiles or not. *)
Lemma preparePhase_log (env : Env) (phase : WorkflowPhase) (w : World) :
  exists e w1,
    preparePhase env phase w
    = Some (match compiled env phase with
            | Fulfilled promptPath =>
                Fulfilled (promptPath, resolved_model env (ph_agent phase))
            | Rejected reason => Rejected reason
            end, w1)
    /\ event_kind e = ("PHASE_START", Some (ph_id phase))
    /\ SessionStore.trim_events (events (session w) ++ [e]) None
       = Some (events (session w1))
    /\ status (session w1) = status (session w)
    /\ sessionId (session w1) = sessionId (session w)
    /\ promptCount (session w1) = promptCount (session w) + 1
    /\ currentPhase (session w1) = ph_id phase
    /\ sessions w1 !! sessionId (session w) = Some (session w1)
    /\ handoff w1 = handoff w
    /\ decisions w1 = decisions w
    /\ now w1 = now w
    /\ runs w1 = runs w
    /\ trace w1 = trace w ++ [EHook "step:start"; ECompile (ph_agent phase) (task_of phase)].
Proof.
  unfold preparePhase. assign_and_save save_assigned w f s1 evs' Htrim.
  assert (Hev : exists e, event_kind e = ("PHASE_START", Some (ph_id phase))
                          /\ events s1 = events (session w) ++ [e])
    by (eexists; split; [| reflexivity]; reflexivity).
  destruct Hev as (e & Hkind & Hev). rewrite Hev in Htrim.
  assert (Hst : status s1 = status (session w)) by reflexivity.
  assert (Hid : sessionId s1 = sessionId (session w)) by reflexivity.
  assert (Hpc : promptCount s1 = promptCount (session w) + 1) by reflexivity.
  assert (Hcp : currentPhase s1 = ph_id phase) by reflexivity.
  clearbody s1. clear f.
  unfold compiled, task_of.
  exists e.
  destruct (compile_prompt env (ph_agent phase)
              (JsString.remove_first ".yaml" (JsString.remove_first ".md" (ph_task phase))));
    run_world; (eexists; split; [reflexivity |]);
    cbn [session sessions runs trace events with_events status sessionId
         promptCount currentPhase handoff decisions now];
    rewrite <- app_assoc, <- Hid;
    repeat split; try assumption; try reflexivity; apply lookup_insert_eq.
Qed.

End GateFacts.




(** ** Workflow engine: resume *)

Section ResumeFacts.
Import WorkflowEngine.

Lemma includes_spec (done : list (option string)) (id : string) :
  includes done id = true <-> In (Some id) done.
Proof.
  unfold includes. rewrite existsb_exists. split.
  - intros ([x |] & Hin & Heq); [| discriminate].
    apply String.eqb_eq in Heq. subst. exact Hin.
  - intros Hin. exists (Some id). split; [exact Hin | apply String.eqb_refl].
Qed.

(** The completed set is read off the PHASE_COMPLETE events alone. *)
Lemma completedPhases_spec (evs : list SessionEvent) (id : string) :
  includes (completedPhases evs) id = true
  <-> exists e, In e evs /\ ev_type e = "PHASE_COMPLETE" /\ ev_phase e = Some id.
Proof.
  rewrite includes_spec. unfold completedPhases. rewrite in_map_iff. split.
  - intros (e & Hphase & Hin). apply filter_In in Hin as [Hin Htype].
    exists e. repeat split; try assumption.
    apply String.eqb_eq. exact Htype.
  - intros (e & Hin & Htype & Hphase). exists e. split; [exact Hphase |].
    apply filter_In. split; [exact Hin |].
    unfold is_phase_complete. rewrite Htype. reflexivity.
Qed.

(** An event of another type, wherever it stands, changes nothing. *)
Lemma completedPhases_other_event (l1 l2 : list SessionEvent) (e : SessionEvent) :
  ev_type e <> "PHASE_COMPLETE" ->
  completedPhases (l1 ++ e :: l2) = completedPhases (l1 ++ l2).
Proof.
  intros Htype. unfold completedPhases.
  rewrite !List.filter_app. cbn [List.filter].
  unfold is_phase_complete at 2.
  destruct (String.eqb_spec (ev_type e) "PHASE_COMPLETE"); [contradiction | reflexivity].
Qed.

Lemma findIndex_find {A} (f : A -> bool) (l : list A) :
  match List.find f l with
  | None => Js.findIndex f l = -1
  | Some x =>
      0 <= Js.findIndex f l /\ l !! Z.to_nat (Js.findIndex f l) = Some x
  end.
Proof.
  induction l as [| y l IH]; cbn [List.find Js.findIndex]; [reflexivity |].
  destruct (f y); [split; [lia | reflexivity] |].
  destruct (List.find f l) as [x |].
  - destruct IH as [Hpos Hlook].
    destruct (Z.ltb_spec (Js.findIndex f l) 0); [lia |]. split; [lia |].
    replace (Z.to_nat (Js.findIndex f l + 1)) with (S (Z.to_nat (Js.findIndex f l)))
      by lia.
    exact Hlook.
  - rewrite IH. reflexivity.
Qed.

Lemma calculateWaves_total (phs : list WorkflowPhase) :
  exists waves warned, calculateWaves phs = Some (waves, warned).
Proof.
  destruct (waves_loop_spec (length phs) ∅ phs []) as (waves & warned & Hrun & _).
  - lia.
  - intros d Hd. apply not_elem_of_empty in Hd. destruct Hd.
  - intros k wave p d Hk. rewrite lookup_nil in Hk. discriminate.
  - exists waves, warned. exact Hrun.
Qed.

Lemma wave_schedule_head (evs : list SessionEvent)
    (waves : list (list WorkflowPhase)) :
  resumes_from_waves (wave_schedule evs waves)
  = first_pending_wave (completedPhases evs) waves.
Proof.
  unfold wave_schedule.
  induction waves as [| wave waves IH]; cbn [map List.filter first_pending_wave];
    [reflexivity |].
  destruct (pending (completedPhases evs) wave) as [| p ps]; cbn [length Nat.eqb negb].
  - exact IH.
  - reflexivity.
Qed.

End ResumeFacts.

(** C3, the claim as stated, fails in wave mode: with [A] listed first but
    depending on [B], nothing is completed, the first phase of the list
    outside the completed set is [A], and yet [resume] hands over to
    [executeWaves], whose first wave is [B]. *)
Lemma resume_wave_mode_starts_elsewhere :
  let a := sample_phase "A" None (Some ["B"]) 0 in
  let b := sample_phase "B" None None 0 in
  let wf := mkWorkflow "wf" "Waves" [a; b] in
  exists crash k w',
    WorkflowEngine.resume sample_env wf "s1" sample_world = Some ((crash, k), w')
    /\ first_pending (WorkflowEngine.completedPhases (events sample_session))
                     (phases wf) = Some a
    /\ WorkflowEngine.resumes_from wf k = [b]
    /\ a <> b.
Proof.
  cbv zeta. eexists _, _, _. split; [vm_compute; reflexivity |].
  split; [reflexivity |]. split; [reflexivity | discriminate].
Qed.

(** C3 (amended) — The phase ids treated as completed on resume are
    exactly those for which the event log holds a PHASE_COMPLETE event, and
    an event of any other type, added or removed anywhere, leaves them
    unchanged.  When every phase of the workflow is among them the session
    is marked completed.  Otherwise, in linear mode (no phase declares
    dependencies) resume continues from the first phase of the phase list
    that is not among them.  In wave mode it appends a SESSION_RESUME event
    and saves, which trims the log to at most 200 events, and hands the
    waves of [calculateWaves] to [executeWaves], which skips the phases
    that have a PHASE_COMPLETE event in that saved log and so continues
    from the first wave holding a phase without one
    ([first_pending_wave]).  A phase completed in the saved log is
    completed in the loaded one, and the two logs have the same completed
    phases when the loaded one holds fewer than 200 events. *)
Theorem resume_from_completed_events (env : WorkflowEngine.Env)
    (workflow : WorkflowDefinition) (id : string) (w : WorkflowEngine.World)
    (s : SessionState) :
  WorkflowEngine.sessions w !! id = Some s ->
  status s <> completed ->
  let done := WorkflowEngine.completedPhases (events s) in
  (forall pid,
      WorkflowEngine.includes done pid = true
      <-> exists e, In e (events s) /\ ev_type e = "PHASE_COMPLETE"
                    /\ ev_phase e = Some pid)
  /\ (forall l1 l2 e,
        ev_type e <> "PHASE_COMPLETE" ->
        WorkflowEngine.completedPhases (l1 ++ e :: l2)
        = WorkflowEngine.completedPhases (l1 ++ l2))
  /\ exists crash k w',
       WorkflowEngine.resume env workflow id w = Some ((crash, k), w')
       /\ match first_pending done (phases workflow) with
          | None => k = WorkflowEngine.Finished
                    /\ status (WorkflowEngine.session w') = completed
          | Some p =>
              if WorkflowEngine.hasDependsOn workflow then
                exists waves warned,
                  WorkflowEngine.calculateWaves (phases workflow) = Some (waves, warned)
                  /\ k = WorkflowEngine.Waves
                           (WorkflowEngine.wave_schedule
                              (events (WorkflowEngine.session w')) waves)
                  /\ WorkflowEngine.resumes_from workflow k
                     = first_pending_wave
                         (WorkflowEngine.completedPhases
                            (events (WorkflowEngine.session w'))) waves
                  /\ (exists e,
                        event_kind e = ("SESSION_RESUME", None)
                        /\ SessionStore.trim_events (events s ++ [e]) None
                           = Some (events (WorkflowEngine.session w')))
                  /\ (forall pid,
                        WorkflowEngine.includes
                          (WorkflowEngine.completedPhases
                             (events (WorkflowEngine.session w'))) pid = true ->
                        WorkflowEngine.includes done pid = true)
                  /\ (Z.of_nat (length (events s)) < 200 ->
                      WorkflowEngine.completedPhases
                        (events (WorkflowEngine.session w')) = done)
              else
                WorkflowEngine.resumes_from workflow k = [p]
                /\ WorkflowEngine.includes done (ph_id p) = false
          end.
Proof.
  intros Hload Hstatus done.
  split; [intros pid; apply completedPhases_spec |].
  split; [intros l1 l2 e; apply completedPhases_other_event |].
  unfold WorkflowEngine.resume.
  unfold WorkflowEngine.bind at 1. unfold WorkflowEngine.store_load. rewrite Hload.
  unfold WorkflowEngine.bind at 1. unfold WorkflowEngine.get_session at 1.
  cbn [WorkflowEngine.session].
  assert (Hst : SessionStatus_eqb (status s) completed = false)
    by (destruct (status s); try reflexivity; congruence).
  rewrite Hst.
  unfold WorkflowEngine.bind at 1. unfold WorkflowEngine.get_now at 1.
  cbn [WorkflowEngine.now].
  fold done. unfold first_pending.
  pose proof (findIndex_find
                (fun p => negb (WorkflowEngine.includes done (ph_id p)))
                (phases workflow)) as Hfind.
  set (idx := Js.findIndex _ (phases workflow)) in *.
  destruct (List.find _ (phases workflow)) as [p |] eqn:Efind.
  - destruct Hfind as [Hpos Hlook].
    destruct (Z.ltb_spec idx 0) as [| _]; [lia |].
    unfold WorkflowEngine.bind at 1. unfold WorkflowEngine.modify_session at 1.
    cbn [WorkflowEngine.session WorkflowEngine.now WorkflowEngine.sessions
         WorkflowEngine.dashboard WorkflowEngine.handoff WorkflowEngine.decisions
         WorkflowEngine.runs WorkflowEngine.trace].
    unfold WorkflowEngine.bind at 1.
    unfold WorkflowEngine.store_save at 1, SessionStore.save.
    cbn [WorkflowEngine.session WorkflowEngine.sessions].
    match goal with |- context [SessionStore.trim_events ?evs None] =>
      destruct (trim_events_default evs) as (evs' & Htrim & _); set (pushed := evs) in *
    end.
    rewrite Htrim.
    unfold WorkflowEngine.bind at 1. unfold WorkflowEngine.emit at 1.
    apply find_some in Efind as [_ Hpending]. apply negb_true_iff in Hpending.
    destruct (WorkflowEngine.hasDependsOn workflow).
    + destruct (calculateWaves_total (phases workflow)) as (waves & warned & Hwaves).
      rewrite Hwaves. eexists _, _, _. split; [reflexivity |].
      exists waves, warned. split; [reflexivity |]. split; [reflexivity |].
      split; [apply wave_schedule_head |].
      assert (Hpushed : exists e, pushed = events s ++ [e]
                                  /\ event_kind e = ("SESSION_RESUME", None)).
      { eexists. split; [subst pushed; cbn; reflexivity | reflexivity]. }
      destruct Hpushed as (e & Hpushed & Hkind).
      split; [exists e; split; [exact Hkind | rewrite <- Hpushed; exact Htrim] |].
      split.
      { intros pid Hpid.
        apply completedPhases_spec in Hpid as (x & Hin & Htype & Hphase).
        apply completedPhases_spec. exists x. split; [| split; assumption].
        apply (trim_events_In _ _ _ Htrim) in Hin. rewrite Hpushed in Hin.
        apply in_app_or in Hin as [Hin | [<- | []]]; [exact Hin |].
        injection Hkind as Hresume _. rewrite Hresume in Htype. discriminate. }
      intros Hshort. cbn.
      assert (Hsame : SessionStore.trim_events pushed None = Some pushed).
      { apply trim_events_short. subst pushed. cbn.
        rewrite length_app. cbn [length]. lia. }
      rewrite Hsame in Htrim. injection Htrim as <-.
      subst pushed. cbn.
      match goal with |- context [events s ++ [?e]] =>
        pose proof (completedPhases_other_event (events s) [] e) as Hother
      end.
      rewrite app_nil_r in Hother. apply Hother. discriminate.
    + eexists _, _, _. split; [reflexivity |].
      split; [| exact Hpending].
      cbn [WorkflowEngine.resumes_from]. unfold WorkflowEngine.phase_at.
      destruct (Z.ltb_spec idx 0); [lia |]. rewrite Hlook. reflexivity.
  - rewrite Hfind. cbn [Z.ltb Z.compare].
    unfold WorkflowEngine.bind at 1. unfold WorkflowEngine.modify_session at 1.
    unfold WorkflowEngine.bind at 1.
    unfold WorkflowEngine.store_save at 1, SessionStore.save.
    cbn [WorkflowEngine.session WorkflowEngine.sessions].
    match goal with |- context [SessionStore.trim_events ?evs None] =>
      destruct (trim_events_default evs) as (evs' & Htrim & _)
    end.
    rewrite Htrim. eexists _, _, _. split; [reflexivity |].
    split; reflexivity.
Qed.

Lemma resume_from_completed_events_witness :
  let build := sample_phase "build" None None 0 in
  let review := sample_phase "review" None (Some ["build"]) 0 in
  let wf := mkWorkflow "wf" "Waves" [build; review] in
  exists crash k w',
    WorkflowEngine.resume sample_env wf "s1" built_world = Some ((crash, k), w')
    /\ WorkflowEngine.includes
         (WorkflowEngine.completedPhases (events built_session)) "build" = true
    /\ WorkflowEngine.resumes_from wf k = [review].
Proof.
  intros build review wf.
  destruct (resume_from_completed_events sample_env wf "s1" built_world built_session)
    as (_ & _ & crash & k & w' & Hrun & Hfrom).
  - reflexivity.
  - discriminate.
  - exists crash, k, w'. split; [exact Hrun |]. split; [reflexivity |].
    change (first_pending (WorkflowEngine.completedPhases (events built_session))
              (phases wf)) with (Some review) in Hfrom.
    change (WorkflowEngine.hasDependsOn wf) with true in Hfrom. cbv iota in Hfrom.
    destruct Hfrom as (waves & warned & Hwaves & _ & Hfrom & _ & _ & Hsame).
    rewrite Hfrom, Hsame by (cbn; lia).
    vm_compute in Hwaves. injection Hwaves as <- _. reflexivity.
Defined.

(** X29 — with a full log the saved log forgets a completed phase: the loaded
    log of 200 events records [build] as completed in its second event,
    resume's SESSION_RESUME event makes it 201 events long, the save trims
    the second event away, and wave mode starts again from [build]. *)
Lemma resume_full_log_forgets_completed_phase :
  let build := sample_phase "build" None None 0 in
  let review := sample_phase "review" None (Some ["build"]) 0 in
  let wf := mkWorkflow "wf" "Waves" [build; review] in
  exists crash k w',
    WorkflowEngine.resume sample_env wf "s1" full_world = Some ((crash, k), w')
    /\ Z.of_nat (length (events full_session)) = 200
    /\ WorkflowEngine.includes
         (WorkflowEngine.completedPhases (events full_session)) "build" = true
    /\ WorkflowEngine.includes
         (WorkflowEngine.completedPhases (events (WorkflowEngine.session w'))) "build"
       = false
    /\ WorkflowEngine.resumes_from wf k = [build].
Proof.
  cbv zeta. eexists _, _, _. split; [vm_compute; reflexivity |].
  split; [reflexivity |]. split; [reflexivity |]. split; reflexivity.
Qed.


(** ** Context tracker: token estimation *)

Section TokenFacts.
Import ContextTracker TokenRule.

Local Abbreviation P := (pieces_by non_word).

(** *** Character classes *)

Lemma is_word_range (c : Z) : is_word c = true -> 48 <= c <= 122.
Proof.
  unfold is_word, is_lower, is_upper, is_digit, in_range.
  rewrite !orb_true_iff, !andb_true_iff, !Z.leb_le, Z.eqb_eq. lia.
Qed.

Lemma is_space_range (c : Z) : is_space c = true -> c <= 32 \/ 160 <= c.
Proof.
  unfold is_space, in_range.
  rewrite !orb_true_iff, !andb_true_iff, !Z.leb_le, !Z.eqb_eq. lia.
Qed.

Lemma word_not_space (c : Z) : is_word c = true -> is_space c = false.
Proof.
  intros Hw. apply is_word_range in Hw.
  destruct (is_space c) eqn:Hs; [| reflexivity].
  apply is_space_range in Hs. lia.
Qed.

Lemma word_ascii (c : Z) : is_word c = true -> is_non_ascii c = false.
Proof.
  intros Hw. apply is_word_range in Hw. unfold is_non_ascii, in_range.
  apply negb_false_iff, andb_true_iff. rewrite !Z.leb_le. lia.
Qed.

Lemma newline_is_space : is_space 10 = true.
Proof. reflexivity. Qed.

(** *** How pieces join *)

Lemma push_app (c : Z) (A B : list Piece) :
  A <> [] -> push non_word c (A ++ B) = push non_word c A ++ B.
Proof.
  intros HA. destruct A as [| a A]; [congruence |].
  unfold push. cbn [app].
  destruct (is_space c); [destruct a; reflexivity |].
  destruct (non_word c); [reflexivity |]. destruct a; reflexivity.
Qed.

Lemma P_nonempty (c : Z) (s : jsString) : P (c :: s) <> [].
Proof.
  cbn [pieces_by]. destruct (c =? 10); [discriminate |].
  unfold push. destruct (is_space c); [destruct (P s) as [| [] ?]; discriminate |].
  destruct (non_word c); [discriminate |].
  destruct (P s) as [| [] ?]; discriminate.
Qed.

Lemma push_shape (b : Z) (R : list Piece) :
  match push non_word b R with
  | PSpaces _ :: _ => is_space b = true
  | PPunct :: _ => is_space b = false /\ non_word b = true
  | PToken _ :: _ => is_space b = false /\ non_word b = false
  | _ => False
  end.
Proof.
  unfold push. destruct (is_space b); [destruct R as [| [] ?]; reflexivity |].
  destruct (non_word b); [split; reflexivity |].
  destruct R as [| [] ?]; split; reflexivity.
Qed.

Lemma push_onto (c b : Z) (s : jsString) :
  merges c b = false ->
  push non_word c (P (b :: s)) = push non_word c [] ++ P (b :: s).
Proof.
  unfold merges. intros Hm. cbn [pieces_by].
  destruct (Z.eqb_spec b 10) as [-> | Hb].
  { unfold push. destruct (is_space c); [reflexivity |].
    destruct (non_word c); reflexivity. }
  cbn [negb andb] in Hm. apply orb_false_iff in Hm as [Hs Hw].
  pose proof (push_shape b (P s)) as Hshape.
  destruct (push non_word b (P s)) as [| q Q]; [destruct Hshape |].
  unfold push. destruct q.
  - destruct Hshape.
  - rewrite Hshape, andb_true_r in Hs. rewrite Hs.
    destruct (non_word c); reflexivity.
  - destruct (is_space c); [reflexivity |]. destruct (non_word c); reflexivity.
  - destruct Hshape as [_ Hnw]. unfold non_word in *.
    apply negb_false_iff in Hnw. rewrite Hnw, andb_true_r in Hw. rewrite Hw.
    cbn [negb]. destruct (is_space c); reflexivity.
Qed.

Lemma P_app (x y : jsString) :
  Forall (fun c => c <> 10) x ->
  (forall a b, last x = Some a -> head y = Some b -> merges a b = false) ->
  P (x ++ y) = P x ++ P y.
Proof.
  induction x as [| c x IH]; intros Hnl Hb; [reflexivity |].
  apply Forall_cons in Hnl as [Hc Hnl].
  cbn [app pieces_by]. destruct (Z.eqb_spec c 10); [contradiction |].
  destruct x as [| c' x'].
  - cbn [app pieces_by]. destruct y as [| b y]; [rewrite app_nil_r; reflexivity |].
    apply push_onto. apply Hb; reflexivity.
  - rewrite IH; [| exact Hnl |].
    + apply push_app, P_nonempty.
    + intros a b Ha. apply Hb. rewrite last_cons_cons in *. exact Ha.
Qed.

Lemma P_space_run (sp : jsString) :
  sp <> [] -> Forall (fun c => is_space c = true /\ c <> 10) sp ->
  P sp = [PSpaces (len sp)].
Proof.
  induction sp as [| c sp IH]; intros Hne Hall; [congruence |].
  apply Forall_cons in Hall as [[Hs Hc] Hall].
  cbn [pieces_by]. destruct (Z.eqb_spec c 10); [contradiction |].
  unfold push. rewrite Hs. destruct sp as [| c' sp'].
  - reflexivity.
  - rewrite IH by (congruence || assumption). unfold len. cbn [length].
    f_equal. f_equal. lia.
Qed.

Lemma P_word_run (w : jsString) :
  w <> [] -> Forall (fun c => is_word c = true) w -> P w = [PToken w].
Proof.
  induction w as [| c w IH]; intros Hne Hall; [congruence |].
  apply Forall_cons in Hall as [Hw Hall].
  pose proof (is_word_range c Hw).
  cbn [pieces_by]. destruct (Z.eqb_spec c 10); [lia |].
  assert (Hnw : non_word c = false) by (unfold non_word; rewrite Hw; reflexivity).
  unfold push. rewrite (word_not_space c Hw), Hnw.
  destruct w as [| c' w']; [reflexivity |].
  rewrite IH by (congruence || assumption). reflexivity.
Qed.

(** *** The loops visit the pieces of the rule *)

Lemma part_pieces_word (w : jsString) :
  Forall (fun c => is_word c = true) w -> part_pieces w = P w.
Proof.
  intros Hall. destruct w as [| c w]; [reflexivity |].
  rewrite P_word_run by (congruence || assumption).
  unfold part_pieces. cbn [is_empty].
  replace (existsb (fun c => negb (is_word c)) (c :: w)) with false;
    [rewrite andb_false_r; reflexivity |].
  symmetry. apply not_true_iff_false. intros Hex.
  apply existsb_exists in Hex as (x & Hx & Hnw).
  apply list_elem_of_In in Hx. rewrite Forall_forall in Hall.
  rewrite (Hall x Hx) in Hnw. discriminate.
Qed.

Lemma split_punct_pieces (n cur : jsString) :
  Forall (fun c => is_word c = true) cur ->
  Forall (fun c => is_space c = false) n ->
  flat_map part_pieces (split_punct cur n) = P (cur ++ n).
Proof.
  revert cur. induction n as [| c n IH]; intros cur Hcur Hn; cbn [split_punct].
  - cbn [flat_map]. rewrite !app_nil_r. apply part_pieces_word, Hcur.
  - apply Forall_cons in Hn as [Hc Hn].
    destruct (is_word c) eqn:Hw.
    + rewrite IH; [rewrite <- app_assoc; reflexivity | | exact Hn].
      apply Forall_app. split; [exact Hcur |]. repeat constructor. exact Hw.
    + cbn [flat_map]. rewrite (IH [] (List.Forall_nil _) Hn). cbn [app].
      rewrite part_pieces_word by exact Hcur.
      assert (Hc10 : c <> 10) by (intros ->; discriminate).
      rewrite P_app.
      * f_equal. cbn [pieces_by]. destruct (Z.eqb_spec c 10); [contradiction |].
        unfold part_pieces, push, non_word. cbn. rewrite Hc, Hw. reflexivity.
      * eapply Forall_impl; [exact Hcur |]. intros x Hx ->. discriminate.
      * intros a b _ [= <-]. unfold merges. rewrite Hc, Hw.
        rewrite ?andb_false_r; cbn [orb]; rewrite ?andb_false_r; reflexivity.
Qed.

Lemma segment_pieces_nonspace (seg : jsString) :
  Forall (fun c => is_space c = false) seg -> segment_pieces seg = P seg.
Proof.
  intros Hall. destruct seg as [| c seg]; [reflexivity |].
  unfold segment_pieces. cbn [is_empty forallb].
  rewrite (proj1 (proj1 (Forall_cons _ _ _) Hall)). cbn [andb].
  apply (split_punct_pieces (c :: seg) []); [constructor | exact Hall].
Qed.

Lemma segment_pieces_space (seg : jsString) :
  seg <> [] -> Forall (fun c => is_space c = true /\ c <> 10) seg ->
  segment_pieces seg = P seg.
Proof.
  intros Hne Hall. rewrite P_space_run by assumption.
  destruct seg as [| c seg]; [congruence |].
  unfold segment_pieces. cbn [is_empty].
  replace (forallb is_space (c :: seg)) with true; [reflexivity |].
  symmetry. apply forallb_forall. intros x Hx.
  apply list_elem_of_In in Hx. rewrite Forall_forall in Hall. apply (Hall x Hx).
Qed.

Lemma space_not_word (c : Z) : is_space c = true -> is_word c = false.
Proof.
  intros Hs. destruct (is_word c) eqn:Hw; [| reflexivity].
  rewrite (word_not_space c Hw) in Hs. discriminate.
Qed.

Lemma split_spaces_pieces (l : jsString) :
  Forall (fun c => c <> 10) l ->
  forall cur,
    (Forall (fun c => is_space c = false) cur ->
     flat_map segment_pieces (split_spaces false cur l) = P (cur ++ l))
    /\ (cur <> [] -> Forall (fun c => is_space c = true /\ c <> 10) cur ->
        flat_map segment_pieces (split_spaces true cur l) = P (cur ++ l)).
Proof.
  induction l as [| c l IH]; intros Hl cur.
  - cbn [split_spaces flat_map]. rewrite !app_nil_r. split.
    + apply segment_pieces_nonspace.
    + intros Hne Hcur. change (segment_pieces []) with (@nil Piece).
      rewrite ?app_nil_r. apply segment_pieces_space; assumption.
  - apply Forall_cons in Hl as [Hc Hl]. specialize (IH Hl).
    cbn [split_spaces]. destruct (is_space c) eqn:Hs; split.
    + intros Hcur. cbn [flat_map].
      rewrite (proj2 (IH [c])) by (congruence || (repeat constructor; assumption)).
      rewrite segment_pieces_nonspace by exact Hcur.
      symmetry. apply P_app.
      * eapply Forall_impl; [exact Hcur |]. intros x Hx ->. discriminate.
      * intros a b Ha [= <-]. unfold merges.
        assert (Hsa : is_space a = false).
        { apply last_Some_elem_of in Ha. rewrite Forall_forall in Hcur.
          apply (Hcur a Ha). }
        rewrite Hsa, (space_not_word c Hs).
        rewrite ?andb_false_r; cbn [orb andb]; rewrite ?andb_false_r; reflexivity.
    + intros Hne Hcur. rewrite (proj2 (IH (cur ++ [c]))).
      * rewrite <- app_assoc. reflexivity.
      * destruct cur; discriminate.
      * apply Forall_app. split; [exact Hcur |]. repeat constructor; assumption.
    + intros Hcur. rewrite (proj1 (IH (cur ++ [c]))).
      * rewrite <- app_assoc. reflexivity.
      * apply Forall_app. split; [exact Hcur |]. repeat constructor. exact Hs.
    + intros Hne Hcur. cbn [flat_map].
      rewrite (proj1 (IH [c])) by (repeat constructor; exact Hs).
      rewrite segment_pieces_space by assumption.
      symmetry. apply P_app.
      * eapply Forall_impl; [exact Hcur |]. intros x [_ Hx]. exact Hx.
      * intros a b Ha [= <-]. unfold merges.
        assert (Hsa : is_space a = true).
        { apply last_Some_elem_of in Ha. rewrite Forall_forall in Hcur.
          apply (Hcur a Ha). }
        rewrite Hs, (space_not_word a Hsa).
        rewrite ?andb_false_r; cbn [orb andb]; rewrite ?andb_false_r; reflexivity.
Qed.

Lemma line_pieces_spec (line : jsString) :
  Forall (fun c => c <> 10) line -> line_pieces line = P line.
Proof.
  intros Hl. apply (proj1 (split_spaces_pieces line Hl [])). constructor.
Qed.

Lemma split_newline_nonempty (s cur : jsString) : split_newline cur s <> [].
Proof.
  revert cur. induction s as [| c s IH]; intros cur; cbn [split_newline];
    [discriminate |].
  destruct (c =? 10); [discriminate | apply IH].
Qed.

Lemma split_newline_pieces (s cur : jsString) :
  Forall (fun c => c <> 10) cur ->
  join_lines (map line_pieces (split_newline cur s)) = P (cur ++ s).
Proof.
  revert cur. induction s as [| c s IH]; intros cur Hcur; cbn [split_newline].
  - cbn [map join_lines]. rewrite app_nil_r. apply line_pieces_spec, Hcur.
  - destruct (Z.eqb_spec c 10) as [-> | Hc].
    + pose proof (IH [] (List.Forall_nil _)) as IH0. cbn [app] in IH0.
      pose proof (split_newline_nonempty s []) as Hne.
      destruct (split_newline [] s) as [| l ls]; [congruence |].
      change (join_lines (map line_pieces (cur :: l :: ls)))
        with (line_pieces cur ++ PNewline :: join_lines (map line_pieces (l :: ls))).
      rewrite IH0, line_pieces_spec by exact Hcur.
      symmetry. rewrite P_app; [reflexivity | exact Hcur |].
      intros a b _ [= <-]. reflexivity.
    + rewrite IH; [rewrite <- app_assoc; reflexivity |].
      apply Forall_app. split; [exact Hcur |]. repeat constructor. exact Hc.
Qed.

(** The pieces visited by the loops are the pieces of the rule in which
    every character outside the word class counts as punctuation. *)
Lemma text_pieces_spec (text : jsString) : text_pieces text = P text.
Proof. apply (split_newline_pieces text []). constructor. Qed.

(** *** The loops add up the units of the pieces they visit *)

Lemma sum_pieces_app (A B : list Piece) :
  sum_pieces (A ++ B) = sum_pieces A + sum_pieces B.
Proof.
  unfold sum_pieces. induction A as [| a A IH]; cbn [app fold_right]; lia.
Qed.

Lemma ceil_div_pos (n d : Z) : 1 <= n -> 0 < d -> 1 <= ceil_div n d.
Proof.
  intros Hn Hd. unfold ceil_div. apply Z.div_le_lower_bound; lia.
Qed.

Lemma subword_sum_units (ps : list jsString) : subword_sum ps = sum_units ps.
Proof.
  unfold subword_sum, sum_units.
  assert (H : forall acc,
    fold_left (fun sum part =>
                 sum + (if len part <=? 6 then 1 else ceil_div (len part) 5)) ps acc
    = acc + fold_right (fun w acc => subword_units w + acc) 0 ps).
  { induction ps as [| p ps IH]; intros acc; cbn [fold_left fold_right]; [lia |].
    rewrite IH. unfold subword_units. lia. }
  rewrite H. lia.
Qed.

Lemma split_camel_nonempty (s cur : jsString) :
  cur <> [] \/ s <> [] -> Forall (fun p => p <> []) (split_camel cur s).
Proof.
  revert cur. induction s as [| c s IH]; intros cur Hne; cbn [split_camel].
  - destruct Hne as [Hne | Hne]; [| congruence]. repeat constructor. exact Hne.
  - destruct (negb (is_empty cur) && is_upper c && _) eqn:E.
    + constructor; [| apply IH; left; discriminate].
      destruct cur; [discriminate | discriminate].
    + apply IH. left. destruct cur; discriminate.
Qed.

Lemma filter_nonempty_id (l : list jsString) :
  Forall (fun p => p <> []) l -> filter_nonempty l = l.
Proof.
  unfold filter_nonempty. induction 1 as [| p l Hp _ IH]; cbn [List.filter];
    [reflexivity |].
  destruct p; [congruence |]. cbn [is_empty negb]. f_equal. exact IH.
Qed.

Lemma word_units_spec (w : jsString) :
  w <> [] -> word_units w = estimateWordTokens w.
Proof.
  intros Hne. unfold word_units, estimateWordTokens.
  destruct w as [| c w]; [congruence |]. cbn [is_empty].
  set (word := c :: w).
  rewrite (filter_nonempty_id (split_camel [] word))
    by (apply split_camel_nonempty; right; discriminate).
  rewrite !subword_sum_units.
  destruct (Z.leb_spec (len word) 3); [destruct (Z.leb_spec (len word) 6); [reflexivity | lia] |].
  destruct (len word <=? 6); [reflexivity |].
  replace (Z.of_nat (length (split_camel [] word)) >? 1)
    with (1 <? length (split_camel [] word))%nat; [reflexivity |].
  destruct (Nat.ltb_spec 1 (length (split_camel [] word)));
    destruct (Z.gtb_spec (Z.of_nat (length (split_camel [] word))) 1);
    (reflexivity || lia).
Qed.

Lemma split_punct_shape (n cur : jsString) :
  Forall (fun c => is_word c = true) cur -> Forall part_shape (split_punct cur n).
Proof.
  revert cur. induction n as [| c n IH]; intros cur Hcur; cbn [split_punct].
  - repeat constructor. exact Hcur.
  - destruct (is_word c) eqn:Hw.
    + apply IH, Forall_app. split; [exact Hcur |]. repeat constructor. exact Hw.
    + constructor; [left; exact Hcur |].
      constructor; [right; exists c; split; [reflexivity | exact Hw] |].
      apply IH. constructor.
Qed.

Lemma add_part_units (t : Z) (p : jsString) :
  part_shape p -> add_part t p = t + sum_pieces (part_pieces p).
Proof.
  intros [Hword | (c & -> & Hc)].
  - destruct p as [| c p]; [cbn; lia |].
    rewrite part_pieces_word by exact Hword.
    rewrite P_word_run by (congruence || assumption).
    set (w := c :: p) in *.
    assert (Hnw : existsb (fun c => negb (is_word c)) w = false).
    { apply not_true_iff_false. intros Hex.
      apply existsb_exists in Hex as (x & Hx & Hn).
      apply list_elem_of_In in Hx. rewrite Forall_forall in Hword.
      rewrite (Hword x Hx) in Hn. discriminate. }
    assert (Hna : List.filter is_non_ascii w = []).
    { clear - Hword. induction Hword as [| x l Hx _ IH]; cbn [List.filter];
        [reflexivity |]. rewrite (word_ascii x Hx). exact IH. }
    assert (Has : List.filter (fun c => negb (is_non_ascii c)) w = w).
    { clear - Hword. induction Hword as [| x l Hx _ IH]; cbn [List.filter];
        [reflexivity |]. rewrite (word_ascii x Hx). cbn [negb]. f_equal. exact IH. }
    unfold add_part, sum_pieces. cbn [fold_right piece_units]. unfold token_units.
    rewrite Hnw, andb_false_r, Hna, Has.
    change (is_empty w) with false. cbv iota.
    change (len []) with 0. cbn [Z.gtb Z.compare Z.mul].
    destruct (forallb is_digit w).
    + assert (1 <= ceil_div (len w) 3).
      { apply ceil_div_pos; [| lia]. unfold len, w. cbn [length]. lia. }
      lia.
    + rewrite word_units_spec by discriminate. lia.
  - unfold add_part, part_pieces. cbn [is_empty existsb].
    rewrite Hc. change (len [c] =? 1) with true. cbn [andb negb orb].
    unfold sum_pieces. cbn [fold_right piece_units]. lia.
Qed.

Lemma parts_units (parts : list jsString) (t : Z) :
  Forall part_shape parts ->
  fold_left add_part parts t = t + sum_pieces (flat_map part_pieces parts).
Proof.
  intros Hall. revert t.
  induction Hall as [| p parts Hp _ IH]; intros t; cbn [fold_left flat_map].
  - cbn. lia.
  - rewrite IH, add_part_units by exact Hp. rewrite sum_pieces_app. lia.
Qed.

Lemma segment_units (t : Z) (seg : jsString) :
  add_segment t seg = t + sum_pieces (segment_pieces seg).
Proof.
  unfold add_segment, segment_pieces.
  destruct seg as [| c seg]; [cbn; lia |]. cbn [is_empty].
  destruct (forallb is_space (c :: seg)).
  - assert (1 <= ceil_div (len (c :: seg)) 4).
    { apply ceil_div_pos; [| lia]. unfold len. cbn [length]. lia. }
    cbn [sum_pieces fold_right piece_units]. unfold sum_pieces.
    cbn [fold_right piece_units]. lia.
  - apply parts_units, split_punct_shape. constructor.
Qed.

Lemma line_units (t : Z) (line : jsString) :
  add_line t line = t + sum_pieces (line_pieces line).
Proof.
  unfold add_line, line_pieces. generalize (split_spaces false [] line). intros segs.
  revert t. induction segs as [| seg segs IH]; intros t; cbn [fold_left flat_map].
  - cbn. lia.
  - rewrite IH, segment_units, sum_pieces_app. lia.
Qed.

Lemma lines_units (lines : list jsString) (t : Z) :
  lines <> [] ->
  fold_left add_line lines t + (Z.of_nat (length lines) - 1)
  = t + sum_pieces (join_lines (map line_pieces lines)).
Proof.
  revert t. induction lines as [| l lines IH]; intros t Hne; [congruence |].
  destruct lines as [| l2 rest].
  - cbn [fold_left map join_lines length]. rewrite line_units. lia.
  - change (join_lines (map line_pieces (l :: l2 :: rest)))
      with (line_pieces l ++ PNewline :: join_lines (map line_pieces (l2 :: rest))).
    rewrite sum_pieces_app.
    change (sum_pieces (PNewline :: ?x)) with (1 + sum_pieces x).
    specialize (IH (add_line t l) ltac:(discriminate)).
    pose proof (line_units t l) as Hl.
    change (fold_left add_line (l :: l2 :: rest) t)
      with (fold_left add_line (l2 :: rest) (add_line t l)).
    set (F := fold_left add_line (l2 :: rest) (add_line t l)) in *.
    change (length (l :: l2 :: rest)) with (S (length (l2 :: rest))).
    rewrite Nat2Z.inj_succ. lia.
Qed.

(** The code computes the rule in which every character outside the word
    class that is not whitespace, non-ASCII or not, counts as one
    punctuation unit. *)
Lemma estimateTokens_by_pieces (text : jsString) :
  estimateTokens text = estimate_by non_word text.
Proof.
  unfold estimate_by. rewrite <- text_pieces_spec.
  unfold estimateTokens, text_pieces.
  destruct text as [| c text]; [reflexivity |]. cbn [is_empty].
  pose proof (lines_units (split_newline [] (c :: text))
                (Z.of_nat (length (split_newline [] (c :: text))) - 1)
                (split_newline_nonempty _ _)) as H.
  lia.
Qed.

Lemma pieces_ascii (text : jsString) :
  Forall (fun c => is_non_ascii c = false) text ->
  pieces_by non_word text = pieces text.
Proof.
  unfold pieces. induction 1 as [| c text Hc _ IH]; cbn [pieces_by]; [reflexivity |].
  rewrite IH. destruct (c =? 10); [reflexivity |].
  unfold push, is_punct, non_word. rewrite Hc. reflexivity.
Qed.

(** A non-ASCII character that is not whitespace counts one unit in the
    code and two under the rule. *)
Lemma non_ascii_char_units (c : Z) :
  is_non_ascii c = true -> is_space c = false ->
  estimateTokens [c] = 1 /\ estimate [c] = 2.
Proof.
  intros Hna Hs.
  assert (Hw : is_word c = false).
  { destruct (is_word c) eqn:E; [| reflexivity].
    rewrite (word_ascii c E) in Hna. discriminate. }
  assert (Hd : is_digit c = false).
  { unfold is_word in Hw. repeat (apply orb_false_iff in Hw as [Hw ?]). assumption. }
  assert (Hc : (c =? 10) = false).
  { destruct (Z.eqb_spec c 10) as [-> |]; [discriminate | reflexivity]. }
  split.
  - rewrite estimateTokens_by_pieces. unfold estimate_by. cbn [pieces_by].
    rewrite Hc. unfold push, non_word. rewrite Hs, Hw. reflexivity.
  - unfold estimate, estimate_by. cbn [pieces_by]. rewrite Hc.
    unfold push, is_punct. rewrite Hs, Hna. cbn [negb andb].
    unfold sum_pieces. cbn [fold_right piece_units]. unfold token_units.
    cbn [forallb List.filter]. rewrite Hd, Hna. reflexivity.
Qed.

(** On text without non-ASCII characters the code computes exactly the
    rule of the specification. *)
Lemma estimateTokens_ascii (text : jsString) :
  Forall (fun c => is_non_ascii c = false) text ->
  estimateTokens text = estimate text.
Proof.
  intros Hascii. rewrite estimateTokens_by_pieces.
  unfold estimate, estimate_by. rewrite (pieces_ascii text Hascii). reflexivity.
Qed.
End TokenFacts.


(** C1 — The claim reads: [estimateTokens] computes exactly the rule of
    section 4.2, where each non-ASCII character contributes two units plus
    the estimate of the ASCII remainder of its token.  The code does
    otherwise: the split on [[^a-zA-Z0-9_]] treats every non-ASCII code
    unit as a separator, so it arrives alone at the single-symbol test and
    counts one unit; the non-ASCII branch below that test is never
    reached.  For the one-character text U+00E9 the code returns 1 where
    the rule gives 2, and for "caf" followed by U+00E9 it returns 2 where
    the rule gives 2 + 1 = 3. *)
Theorem estimateTokens_non_ascii_counts_one :
  ContextTracker.estimateTokens [233] = 1
  /\ TokenRule.estimate [233] = 2
  /\ ContextTracker.estimateTokens [99; 97; 102; 233] = 2
  /\ TokenRule.estimate [99; 97; 102; 233] = 3.
Proof. repeat split; reflexivity. Qed.

(** * Further properties *)

(** ** Token estimation: bounds and composition *)

Section TokenBounds.
Import ContextTracker TokenRule.

Lemma pieces_ok (text : jsString) :
  Forall piece_ok (pieces_by non_word text)
  /\ sum_sizes (pieces_by non_word text) = len text.
Proof.
  induction text as [| c text [IHok IHsize]]; [split; [constructor | reflexivity] |].
  cbn [pieces_by]. unfold len in *. cbn [length]. rewrite Nat2Z.inj_succ.
  destruct (c =? 10).
  { split; [constructor; [exact I | exact IHok] |].
    unfold sum_sizes in *. cbn [fold_right piece_size]. lia. }
  unfold push. destruct (is_space c) eqn:Hs.
  { destruct (pieces_by non_word text) as [| [| n | | t] ps] eqn:E;
      (split; [| unfold sum_sizes in *; cbn [fold_right piece_size] in *; try lia]).
    all: try (constructor; [cbn; lia | exact IHok]).

    apply Forall_cons in IHok as [Hn Hps]. constructor; [cbn in *; lia | exact Hps]. }
  destruct (non_word c) eqn:Hnw.
  - split; [constructor; [exact I | exact IHok] |].
    unfold sum_sizes in *. cbn [fold_right piece_size]. lia.
  - assert (Hw : is_word c = true)
      by (unfold non_word in Hnw; apply negb_false_iff in Hnw; exact Hnw).
    destruct (pieces_by non_word text) as [| [| n | | t] ps] eqn:E;
      (split; [| unfold sum_sizes in *; cbn [fold_right piece_size] in *;
                 unfold len in *; cbn [length] in *; lia]).
    all: try (constructor; [split; [discriminate | repeat constructor; exact Hw] | exact IHok]).
    apply Forall_cons in IHok as [[Hne Ht] Hps].
    constructor; [split; [discriminate | constructor; assumption] | exact Hps].
Qed.

Lemma ceil_div_le (n d : Z) : 1 <= n -> 1 <= d -> 0 <= ceil_div n d <= n.
Proof.
  intros Hn Hd. unfold ceil_div. split.
  - apply Z.div_pos; lia.
  - apply Z.div_le_upper_bound; nia.
Qed.

Lemma subword_units_le (w : jsString) : w <> [] -> 1 <= subword_units w <= len w.
Proof.
  intros Hne. unfold subword_units.
  assert (1 <= len w) by (destruct w; [congruence | unfold len; cbn [length]; lia]).
  destruct (Z.leb_spec (len w) 6); [lia |].
  pose proof (ceil_div_le (len w) 5). pose proof (ceil_div_pos (len w) 5). lia.
Qed.

Lemma sum_units_le (ws : list jsString) :
  Forall (fun w => w <> []) ws -> 0 <= sum_units ws <= total_len ws.
Proof.
  unfold sum_units, total_len.
  induction 1 as [| w ws Hw _ IH]; cbn [fold_right]; [lia |].
  pose proof (subword_units_le w Hw). lia.
Qed.

Lemma len_app (a b : jsString) : len (a ++ b) = len a + len b.
Proof. unfold len. rewrite length_app. lia. Qed.

Lemma split_camel_total (s cur : jsString) :
  total_len (split_camel cur s) = len cur + len s.
Proof.
  revert cur. induction s as [| c s IH]; intros cur; cbn [split_camel].
  - unfold total_len, len. cbn. lia.
  - destruct (negb (is_empty cur) && is_upper c && _).
    + unfold total_len in *. cbn [fold_right]. rewrite IH. unfold len. cbn [length]. lia.
    + rewrite IH, len_app. unfold len. cbn [length]. lia.
Qed.

Lemma split_underscore_total (s cur : jsString) :
  total_len (filter_nonempty (split_underscore cur s)) <= len cur + len s.
Proof.
  revert cur. induction s as [| c s IH]; intros cur; cbn [split_underscore].
  - unfold filter_nonempty, total_len, len. cbn [List.filter].
    destruct cur; cbn; lia.
  - destruct (c =? 95).
    + specialize (IH []). unfold filter_nonempty, total_len, len in *.
      cbn [List.filter]. destruct cur; cbn [is_empty negb fold_right length] in *; lia.
    + specialize (IH (cur ++ [c])). rewrite len_app in IH.
      unfold len in *. cbn [length] in *. lia.
Qed.

Lemma filter_nonempty_all (l : list jsString) :
  Forall (fun w => w <> []) (filter_nonempty l).
Proof.
  unfold filter_nonempty. apply Forall_forall. intros w Hw.
  apply list_elem_of_In, filter_In in Hw as [_ Hw]. destruct w; [discriminate | discriminate].
Qed.

Lemma word_units_le (w : jsString) : w <> [] -> 0 <= word_units w <= len w.
Proof.
  intros Hne.
  assert (1 <= len w) by (destruct w; [congruence | unfold len; cbn [length]; lia]).
  unfold word_units. destruct (Z.leb_spec (len w) 6); [lia |].
  destruct (1 <? length (split_camel [] w))%nat.
  { pose proof (sum_units_le (split_camel [] w)
                  (split_camel_nonempty w [] (or_intror Hne))) as Hs.
    rewrite split_camel_total in Hs. unfold len in *. cbn [length] in Hs. lia. }
  destruct (existsb (Z.eqb 95) w).
  { pose proof (sum_units_le _ (filter_nonempty_all (split_underscore [] w))) as Hs.
    pose proof (split_underscore_total w []) as Ht.
    unfold len in *. cbn [length] in Ht. lia. }
  destruct (Z.leb_spec (len w) 10); [lia |].
  pose proof (ceil_div_le (len w) 5). lia.
Qed.

Lemma piece_units_le (p : Piece) : piece_ok p -> 0 <= piece_units p <= piece_size p.
Proof.
  destruct p as [| n | | t]; cbn [piece_ok piece_units piece_size]; try lia.
  - intros Hn. apply ceil_div_le; lia.
  - intros [Hne Hword].
    assert (1 <= len t) by (destruct t; [congruence | unfold len; cbn [length]; lia]).
    unfold token_units. destruct (forallb is_digit t); [apply ceil_div_le; lia |].
    assert (Hna : List.filter is_non_ascii t = []).
    { clear - Hword. induction Hword as [| x l Hx _ IH]; cbn [List.filter];
        [reflexivity |]. rewrite (word_ascii x Hx). exact IH. }
    assert (Has : List.filter (fun c => negb (is_non_ascii c)) t = t).
    { clear - Hword. induction Hword as [| x l Hx _ IH]; cbn [List.filter];
        [reflexivity |]. rewrite (word_ascii x Hx). cbn [negb]. f_equal. exact IH. }
    rewrite Hna, Has. change (len []) with 0.
    destruct t; [congruence |]. cbn [is_empty].
    pose proof (word_units_le (z :: t) Hne). lia.
Qed.

Lemma sum_pieces_le (ps : list Piece) :
  Forall piece_ok ps -> 0 <= sum_pieces ps <= sum_sizes ps.
Proof.
  unfold sum_pieces, sum_sizes.
  induction 1 as [| p ps Hp _ IH]; cbn [fold_right]; [lia |].
  pose proof (piece_units_le p Hp). lia.
Qed.

(** X1 — [estimateTokens] is never negative and never exceeds the number
    of characters (UTF-16 code units) of the text. *)
Theorem estimateTokens_bounds (text : jsString) :
  0 <= estimateTokens text <= len text.
Proof.
  rewrite estimateTokens_by_pieces. unfold estimate_by.
  destruct (pieces_ok text) as [Hok Hsize]. rewrite <- Hsize.
  apply sum_pieces_le, Hok.
Qed.
(** Pieces of a concatenation: nothing joins across a boundary whose left
    character is a newline or whose two characters do not merge. *)
Lemma pieces_app (x y : jsString) :
  (forall a b, last x = Some a -> head y = Some b ->
               a = 10 \/ merges a b = false) ->
  pieces_by non_word (x ++ y) = pieces_by non_word x ++ pieces_by non_word y.
Proof.
  induction x as [| c x IH]; intros Hb; [reflexivity |].
  cbn [app pieces_by]. destruct (Z.eqb_spec c 10) as [-> | Hc].
  - destruct x as [| c' x']; [reflexivity |].
    rewrite IH; [reflexivity |].
    intros a b Ha. apply Hb. rewrite last_cons_cons. exact Ha.
  - destruct x as [| c' x'].
    + cbn [app pieces_by]. destruct y as [| b y]; [rewrite app_nil_r; reflexivity |].
      apply push_onto. destruct (Hb c b) as [-> | Hm]; [reflexivity .. | congruence | exact Hm].
    + rewrite IH.
      * apply push_app, P_nonempty.
      * intros a b Ha. apply Hb. rewrite last_cons_cons. exact Ha.
Qed.

(** X2 — the estimate is additive over a concatenation whenever the cut
    falls between two pieces: next to a newline, or between two characters
    that are not both whitespace and not both word characters. *)
Theorem estimateTokens_app (x y : jsString) :
  (forall a b, last x = Some a -> head y = Some b ->
               a = 10 \/ merges a b = false) ->
  estimateTokens (x ++ y) = estimateTokens x + estimateTokens y.
Proof.
  intros Hb. rewrite !estimateTokens_by_pieces. unfold estimate_by.
  rewrite (pieces_app x y Hb). apply sum_pieces_app.
Qed.

Lemma estimateTokens_app_witness :
  estimateTokens ([102; 111; 111] ++ [40; 120; 41])
  = estimateTokens [102; 111; 111] + estimateTokens [40; 120; 41].
Proof.
  apply (estimateTokens_app [102; 111; 111] [40; 120; 41]).
  intros a b Ha Hb. right.
  injection Ha as <-. injection Hb as <-. reflexivity.
Defined.

(** X3 — a newline costs one token and separates the estimates of the
    text before it and the text after it. *)
Theorem estimateTokens_newline (x y : jsString) :
  estimateTokens (x ++ 10 :: y) = estimateTokens x + 1 + estimateTokens y.
Proof.
  rewrite !estimateTokens_by_pieces. unfold estimate_by.
  rewrite (pieces_app x (10 :: y)).
  - rewrite sum_pieces_app. cbn [pieces_by]. change (10 =? 10) with true.
    cbn iota. unfold sum_pieces. cbn [fold_right piece_units]. lia.
  - intros a b _ Hb. injection Hb as <-. right. unfold merges.
    reflexivity.
Qed.

(** X4 — on ASCII text the code computes the token rule: newlines and
    punctuation characters count 1 each, a whitespace run
    [ceil(length/4)], a digit run [ceil(length/3)], and a word follows
    the word rule. *)
Theorem estimateTokens_ascii_rule (text : jsString) :
  Forall (fun c => is_non_ascii c = false) text ->
  estimateTokens text = estimate text.
Proof.
  intros Hascii. rewrite estimateTokens_by_pieces.
  unfold estimate, estimate_by. rewrite (pieces_ascii text Hascii). reflexivity.
Qed.

Lemma estimateTokens_ascii_rule_witness :
  estimateTokens [102; 111; 111; 32; 49; 50] = estimate [102; 111; 111; 32; 49; 50].
Proof.
  apply (estimateTokens_ascii_rule [102; 111; 111; 32; 49; 50]).
  repeat constructor.
Defined.

Lemma split_camel_underscores (n : nat) (cur : jsString) :
  split_camel cur (repeat 95 n) = [cur ++ repeat 95 n].
Proof.
  revert cur. induction n as [| n IH]; intros cur; cbn [repeat split_camel].
  - rewrite app_nil_r. reflexivity.
  - change (is_upper 95) with false. rewrite andb_false_r. cbn [andb].
    rewrite IH, <- app_assoc. reflexivity.
Qed.

Lemma split_underscore_underscores (n : nat) :
  filter_nonempty (split_underscore [] (repeat 95 n)) = [].
Proof.
  induction n as [| n IH]; [reflexivity |].
  cbn [repeat split_underscore]. change (95 =? 95) with true. cbn iota.
  unfold filter_nonempty in *. cbn [List.filter is_empty negb]. exact IH.
Qed.

(** X5 — the lower bound is met by non-empty text: a word of seven or
    more underscores splits on [_] into empty parts only and is estimated
    at zero tokens. *)
Theorem estimateTokens_underscores (n : nat) :
  (7 <= n)%nat -> estimateTokens (repeat 95 n) = 0.
Proof.
  intros Hn. rewrite estimateTokens_by_pieces. unfold estimate_by.
  assert (Hne : repeat 95 n <> []) by (destruct n; [lia | discriminate]).
  rewrite (P_word_run (repeat 95 n) Hne).
  2: { apply Forall_forall. intros c Hc. apply list_elem_of_In, repeat_spec in Hc.
       subst c. reflexivity. }
  unfold sum_pieces. cbn [fold_right piece_units]. unfold token_units.
  assert (Hlen : len (repeat 95 n) = Z.of_nat n)
    by (unfold len; rewrite repeat_length; reflexivity).
  assert (Hd : forallb is_digit (repeat 95 n) = false).
  { destruct n; [lia | reflexivity]. }
  assert (Hf : forall m, List.filter is_non_ascii (repeat 95 m) = []).
  { induction m as [| m IH]; [reflexivity | exact IH]. }
  assert (Hg : forall m, List.filter (fun c => negb (is_non_ascii c)) (repeat 95 m)
                         = repeat 95 m).
  { induction m as [| m IH]; [reflexivity |]. cbn [repeat List.filter].
    change (negb (is_non_ascii 95)) with true. cbn iota. f_equal. exact IH. }
  rewrite Hd, Hf, Hg. change (len []) with 0.
  destruct (is_empty (repeat 95 n)) eqn:He; [destruct n; [lia | discriminate] |].
  unfold word_units. rewrite Hlen.
  destruct (Z.leb_spec (Z.of_nat n) 6); [lia |].
  rewrite (split_camel_underscores n []). cbn [app length].
  change (1 <? 1)%nat with false. cbn iota.
  assert (He95 : existsb (Z.eqb 95) (repeat 95 n) = true)
    by (destruct n; [lia | reflexivity]).
  rewrite He95, split_underscore_underscores. reflexivity.
Qed.

Lemma estimateTokens_underscores_witness : estimateTokens (repeat 95 7) = 0.
Proof. apply (estimateTokens_underscores 7). lia. Defined.

(** X26 — text made of non-ASCII characters other than whitespace is
    estimated at one token per character (UTF-16 code unit): each of them
    is a separator for the split on non-word characters. *)
Theorem estimateTokens_non_ascii_text (text : jsString) :
  Forall (fun c => is_non_ascii c = true /\ is_space c = false) text ->
  estimateTokens text = len text.
Proof.
  intros Hall. rewrite estimateTokens_by_pieces. unfold estimate_by.
  induction Hall as [| c text [Hna Hsp] _ IH]; [reflexivity |].
  cbn [pieces_by].
  assert (Hc : (c =? 10) = false).
  { destruct (Z.eqb_spec c 10) as [-> | _]; [discriminate Hsp | reflexivity]. }
  assert (Hnw : non_word c = true).
  { unfold non_word. destruct (is_word c) eqn:Hw; [| reflexivity].
    rewrite (word_ascii c Hw) in Hna. discriminate. }
  rewrite Hc. unfold push. rewrite Hsp, Hnw.
  unfold sum_pieces in *. cbn [fold_right piece_units]. rewrite IH.
  unfold len. cbn [length]. lia.
Qed.

Lemma estimateTokens_non_ascii_text_witness :
  estimateTokens [233; 26085; 26412] = len [233; 26085; 26412].
Proof.
  apply (estimateTokens_non_ascii_text [233; 26085; 26412]).
  repeat constructor.
Defined.

End TokenBounds.

(** ** Context brackets: thresholds and monotonicity *)

Section BracketMore.
Import ContextTracker.

(** The bracket of a percentage of the range [0, 100], read from the
    thresholds 25, 40 and 60. *)
Lemma bracket_for_cases (percent : Q) :
  (0 <= percent <= 100)%Q ->
  bracket_for percent =
    if Qle_bool percent 25 then CRITICAL_CONFIG
    else if Qle_bool percent 40 then DEPLETED_CONFIG
    else if Qle_bool percent 60 then MODERATE_CONFIG
    else FRESH_CONFIG.
Proof.
  intros [H0 H100].
  unfold bracket_for, BRACKET_CONFIGS, contains.
  cbn [rev app List.find minPercent maxPercent
    FRESH_CONFIG MODERATE_CONFIG DEPLETED_CONFIG CRITICAL_CONFIG].
  apply Qle_bool_iff in H0, H100. rewrite H0, H100.
  destruct (Qle_bool percent 25) eqn:E25, (Qle_bool 25 percent) eqn:F25,
           (Qle_bool percent 40) eqn:E40, (Qle_bool 40 percent) eqn:F40,
           (Qle_bool percent 60) eqn:E60, (Qle_bool 60 percent) eqn:F60;
    cbn [andb nth]; try reflexivity; exfalso;
    repeat match goal with
           | H : Qle_bool _ _ = true |- _ => apply Qle_bool_iff in H
           | H : Qle_bool ?a ?b = false |- _ =>
               assert (~ (a <= b)%Q) by (rewrite <- Qle_bool_iff, H; discriminate);
               clear H
           end; lra.
Qed.

Lemma tokenBudget_antitone (p q : Q) :
  (0 <= p <= 100)%Q -> (0 <= q <= 100)%Q -> (p <= q)%Q ->
  tokenBudget (bracket_for q) <= tokenBudget (bracket_for p).
Proof.
  intros Hp Hq Hpq. rewrite (bracket_for_cases p Hp), (bracket_for_cases q Hq).
  destruct (Qle_bool p 25) eqn:P25, (Qle_bool p 40) eqn:P40, (Qle_bool p 60) eqn:P60,
           (Qle_bool q 25) eqn:Q25, (Qle_bool q 40) eqn:Q40, (Qle_bool q 60) eqn:Q60;
    cbn [tokenBudget FRESH_CONFIG MODERATE_CONFIG DEPLETED_CONFIG CRITICAL_CONFIG];
    try lia; exfalso;
    repeat match goal with
           | H : Qle_bool _ _ = true |- _ => apply Qle_bool_iff in H
           | H : Qle_bool ?a ?b = false |- _ =>
               assert (~ (a <= b)%Q) by (rewrite <- Qle_bool_iff, H; discriminate);
               clear H
           end; lra.
Qed.

Lemma used_share_monotone (p q m : Q) :
  (0 < m)%Q -> (p <= q)%Q ->
  (100 - (q * TOKENS_PER_ROUND / m) * 100 <= 100 - (p * TOKENS_PER_ROUND / m) * 100)%Q.
Proof.
  intros Hm Hpq.
  assert (H : (p * TOKENS_PER_ROUND / m <= q * TOKENS_PER_ROUND / m)%Q).
  { unfold Qdiv. apply Qmult_le_compat_r.
    - apply Qmult_le_compat_r; [exact Hpq | discriminate].
    - apply Qlt_le_weak, Qinv_lt_0_compat, Hm. }
  lra.
Qed.

Lemma estimateContextPercent_antitone (p q : Q) (maxContext : option Q) :
  (0 < default DEFAULT_MAX_CONTEXT maxContext)%Q -> (p <= q)%Q ->
  (estimateContextPercent q maxContext <= estimateContextPercent p maxContext)%Q.
Proof.
  intros Hm Hpq. unfold estimateContextPercent. cbv zeta.
  apply Q.max_le_compat_l, Q.min_le_compat_l, used_share_monotone; assumption.
Qed.

(** X6 — the token budget handed out by [getBracket] never shrinks as the
    prompt count grows: the more of the context window is used, the more
    severe the bracket. *)
Theorem getBracket_budget_monotone (p q : Q) (maxContext : option Q) :
  (0 < default DEFAULT_MAX_CONTEXT maxContext)%Q -> (p <= q)%Q ->
  tokenBudget (getBracket p maxContext) <= tokenBudget (getBracket q maxContext).
Proof.
  intros Hm Hpq. unfold getBracket. cbv zeta.
  apply tokenBudget_antitone;
    [apply estimateContextPercent_range .. |
     apply estimateContextPercent_antitone; assumption].
Qed.

Lemma getBracket_budget_monotone_witness :
  tokenBudget (getBracket 2 None) <= tokenBudget (getBracket 50 None).
Proof.
  apply (getBracket_budget_monotone 2 50 None); [reflexivity | discriminate].
Defined.

(** X7 — the handoff warning is raised exactly when the estimated
    percentage of context left is at most 25.  With a positive context
    window it is raised whenever the estimated use, [promptCount * 3500]
    tokens, fills the window, and it is not raised while that use is at
    most half the window. *)
Theorem handoffWarning_threshold (promptCount : Q) (maxContext : option Q) :
  (handoffWarning (getBracket promptCount maxContext) = true
   <-> (estimateContextPercent promptCount maxContext <= 25)%Q)
  /\ ((0 < default DEFAULT_MAX_CONTEXT maxContext)%Q ->
      (default DEFAULT_MAX_CONTEXT maxContext <= promptCount * TOKENS_PER_ROUND)%Q ->
      handoffWarning (getBracket promptCount maxContext) = true)
  /\ ((0 < default DEFAULT_MAX_CONTEXT maxContext)%Q ->
      (2 * (promptCount * TOKENS_PER_ROUND) <= default DEFAULT_MAX_CONTEXT maxContext)%Q ->
      handoffWarning (getBracket promptCount maxContext) = false).
Proof.
  pose proof (estimateContextPercent_range promptCount maxContext) as Hrange.
  assert (Hwarn : handoffWarning (getBracket promptCount maxContext) = true
                  <-> (estimateContextPercent promptCount maxContext <= 25)%Q).
  { unfold getBracket. cbv zeta. rewrite (bracket_for_cases _ Hrange).
    rewrite <- Qle_bool_iff.
    destruct (Qle_bool (estimateContextPercent promptCount maxContext) 25) eqn:E25;
      [split; reflexivity |].
    destruct (Qle_bool (estimateContextPercent promptCount maxContext) 40),
             (Qle_bool (estimateContextPercent promptCount maxContext) 60);
      cbn; split; discriminate. }
  set (m := default DEFAULT_MAX_CONTEXT maxContext) in *.
  set (u := (promptCount * TOKENS_PER_ROUND)%Q).
  assert (Hshare : (0 < m)%Q ->
                   (estimateContextPercent promptCount maxContext <= 25
                    <-> 3 * m <= 4 * u)%Q).
  { intros Hm.
    assert (Hraw : (estimateContextPercent promptCount maxContext <= 25
                    <-> 100 - (u / m) * 100 <= 25)%Q).
    { unfold estimateContextPercent. cbv zeta. fold m. fold u.
      set (raw := (100 - (u / m) * 100)%Q).
      destruct (Q.max_spec 0 (Qmin 100 raw)) as [[H1 E1] | [H1 E1]];
        destruct (Q.min_spec 100 raw) as [[H2 E2] | [H2 E2]];
        revert H1 E1 E2; generalize (Qmax 0 (Qmin 100 raw)); generalize (Qmin 100 raw);
        intros; lra. }
    assert (Hum : (u / m * m == u)%Q)
      by (field; apply Qnot_eq_sym, Qlt_not_eq, Hm).
    assert (Hx : ((3 # 4) <= u / m <-> 3 * m <= 4 * u)%Q).
    { split; intros H.
      - apply (Qmult_le_compat_r _ _ m) in H; [| apply Qlt_le_weak, Hm].
        rewrite Hum in H. lra.
      - apply Qle_shift_div_l; [exact Hm | lra]. }
    rewrite Hraw. revert Hx. generalize (u / m)%Q. intros x Hx. rewrite <- Hx.
    split; intros; lra. }
  split; [exact Hwarn |]. split.
  - intros Hm Hfull. apply Hwarn, (Hshare Hm). lra.
  - intros Hm Hhalf.
    apply not_true_is_false. intros E. apply Hwarn, (Hshare Hm) in E. lra.
Qed.

Lemma handoffWarning_threshold_witness :
  handoffWarning (getBracket 58 None) = true
  /\ handoffWarning (getBracket 28 None) = false.
Proof.
  destruct (handoffWarning_threshold 58 None) as (_ & Hfull & _).
  destruct (handoffWarning_threshold 28 None) as (_ & _ & Hhalf).
  split; [apply Hfull | apply Hhalf]; try reflexivity; discriminate.
Defined.
End BracketMore.

(** ** Token budget: what is dropped, and in which order *)

Section BudgetMore.
Import ContextTracker.
Variable heap : Heap.

Lemma filter_all {A} (f : A -> bool) (l : list A) :
  (forall x, In x l -> f x = true) -> List.filter f l = l.
Proof.
  induction l as [| x l IH]; intros H; cbn [List.filter]; [reflexivity |].
  rewrite (H x (or_introl eq_refl)). f_equal. apply IH.
  intros y Hy. apply H. right. exact Hy.
Qed.

Lemma filter_twice {A} (f g : A -> bool) (l : list A) :
  List.filter f (List.filter g l) = List.filter (fun x => g x && f x) l.
Proof.
  induction l as [| x l IH]; cbn [List.filter]; [reflexivity |].
  destruct (g x); cbn [andb List.filter]; [destruct (f x); [f_equal |] |]; exact IH.
Qed.

(** The loop drops every occurrence of the first [k] entries of
    [removable], for some [k], and nothing else. *)
Lemma removal_loop_prefix (budget : Z) (rest remaining : list ref) (cur : Z) :
  exists k,
    removal_loop heap budget rest remaining cur
    = List.filter (fun s => negb (mem s (take k rest))) remaining.
Proof.
  revert remaining cur.
  induction rest as [| r rest IH]; intros remaining cur; cbn [removal_loop].
  - exists 0%nat. symmetry. apply filter_all. reflexivity.
  - destruct (cur <=? budget).
    + exists 0%nat. symmetry. apply filter_all. reflexivity.
    + destruct (IH (List.filter (fun s => negb (Nat.eqb s r)) remaining)
                   (cur - Z.of_N (sec_tokens (heap r)))) as [k Hk].
      exists (S k). rewrite Hk, filter_twice. apply List.filter_ext.
      intros s. cbn [take mem existsb]. fold (mem s (take k rest)).
      rewrite negb_orb. reflexivity.
Qed.

Lemma insert_desc_sorted (x : ref) (l : list ref) :
  descending heap l -> descending heap (insert_desc heap x l).
Proof.
  induction l as [| y l IH]; cbn [insert_desc descending].
  - intros _. split; [constructor | exact I].
  - intros [Hy Hsorted].
    destruct (N.ltb_spec (priority (heap x)) (priority (heap y))) as [Hlt | Hge];
      cbn [descending].
    + split; [| apply IH, Hsorted].
      apply Forall_forall. intros z Hz.
      rewrite insert_desc_perm in Hz.
      apply list_elem_of_In in Hz. destruct Hz as [<- | Hz]; [lia |].
      rewrite List.Forall_forall in Hy. apply Hy, Hz.
    + split; [| split; assumption].
      constructor; [exact Hge |].
      eapply Forall_impl; [exact Hy |]. cbv beta. intros z Hz. lia.
Qed.

Lemma sort_desc_sorted (l : list ref) : descending heap (sort_desc heap l).
Proof.
  induction l as [| x l IH]; cbn [sort_desc fold_right]; [exact I |].
  apply insert_desc_sorted, IH.
Qed.

Lemma sorted_take_drop (l : list ref) (k : nat) (x y : ref) :
  descending heap l -> In x (take k l) -> In y (drop k l) ->
  (priority (heap y) <= priority (heap x))%N.
Proof.
  revert k. induction l as [| a l IH]; intros k Hs Hx Hy.
  - destruct k; destruct Hx.
  - destruct Hs as [Ha Hs].
    destruct k as [| k]; [destruct Hx |]. cbn [take drop] in Hx, Hy.
    destruct Hx as [<- | Hx].
    + rewrite List.Forall_forall in Ha. apply Ha.
      rewrite <- (take_drop k l). apply in_or_app. right. exact Hy.
    + eapply IH; eassumption.
Qed.

(** X8 — sections leave in the order of their priority: when a section is
    dropped, every section of the input with a strictly larger priority
    number is dropped as well. *)
Theorem enforceTokenBudget_priority_order (sections : list ref) (budget : Z)
    (s t : ref) :
  In s sections -> In t sections ->
  ~ In s (enforceTokenBudget heap sections budget) ->
  (priority (heap s) < priority (heap t))%N ->
  ~ In t (enforceTokenBudget heap sections budget).
Proof.
  intros Hs Ht Hgone Hprio. revert Hgone. unfold enforceTokenBudget.
  destruct (total_tokens heap sections <=? budget); [intros H; destruct (H Hs) |].
  set (rest := sort_desc heap _).
  destruct (removal_loop_prefix budget rest sections (total_tokens heap sections))
    as [k ->].
  rewrite !filter_In, !negb_true_iff. intros Hgone [_ Hkept].
  assert (Hsk : In s (take k rest)).
  { apply mem_true. destruct (mem s (take k rest)); [reflexivity |].
    exfalso. apply Hgone. split; [exact Hs | reflexivity]. }
  assert (Htr : In t rest).
  { apply list_elem_of_In. subst rest. rewrite sort_desc_perm.
    apply list_elem_of_In, filter_In. split; [exact Ht |]. apply N.ltb_lt. lia. }
  rewrite <- (take_drop k rest) in Htr. apply in_app_or in Htr as [Htk | Htd].
  - apply mem_true in Htk. congruence.
  - pose proof (sorted_take_drop rest k s t (sort_desc_sorted _) Hsk Htd). lia.
Qed.

Lemma removal_loop_budget_monotone (budget budget' : Z) (rest remaining : list ref)
    (cur : Z) :
  budget <= budget' ->
  sublist (removal_loop heap budget rest remaining cur)
          (removal_loop heap budget' rest remaining cur).
Proof.
  intros Hle. revert remaining cur.
  induction rest as [| r rest IH]; intros remaining cur; cbn [removal_loop];
    [reflexivity |].
  destruct (Z.leb_spec cur budget), (Z.leb_spec cur budget'); try lia.
  - reflexivity.
  - etransitivity; [apply removal_loop_sublist | apply filter_sublist].
  - apply IH.
Qed.

(** X9 — a larger budget never costs a section: what is kept under a
    budget is kept, in the same order, under every larger budget. *)
Theorem enforceTokenBudget_budget_monotone (sections : list ref)
    (budget budget' : Z) :
  budget <= budget' ->
  sublist (enforceTokenBudget heap sections budget)
          (enforceTokenBudget heap sections budget').
Proof.
  intros Hle. unfold enforceTokenBudget.
  destruct (Z.leb_spec (total_tokens heap sections) budget),
           (Z.leb_spec (total_tokens heap sections) budget'); try lia.
  - reflexivity.
  - apply removal_loop_sublist.
  - apply removal_loop_budget_monotone, Hle.
Qed.

(** X10 — enforcing the same budget a second time changes nothing. *)
Theorem enforceTokenBudget_idempotent (sections : list ref) (budget : Z) :
  enforceTokenBudget heap (enforceTokenBudget heap sections budget) budget
  = enforceTokenBudget heap sections budget.
Proof.
  set (result := enforceTokenBudget heap sections budget).
  destruct (enforceTokenBudget_fits heap sections budget) as [Hfit | Hprot];
    fold result in Hfit || fold result in Hprot.
  - unfold enforceTokenBudget at 1. rewrite total_tokens_sum.
    apply Z.leb_le in Hfit. rewrite Hfit. reflexivity.
  - unfold enforceTokenBudget at 1.
    destruct (total_tokens heap result <=? budget); [reflexivity |].
    assert (Hnone : List.filter (fun s => (0 <? priority (heap s))%N) result = []).
    { clear - Hprot. induction Hprot as [| s l Hs _ IH]; [reflexivity |].
      cbn [List.filter]. rewrite (protected_not_removable heap) in Hs.
      apply negb_true_iff in Hs. unfold is_removable in Hs. rewrite Hs. exact IH. }
    rewrite Hnone. reflexivity.
Qed.
End BudgetMore.

Lemma enforceTokenBudget_priority_order_witness :
  let heap : ContextTracker.Heap := fun r =>
    match r with
    | O => ContextTracker.mkSection "agent" "x" 0 100
    | S O => ContextTracker.mkSection "rules" "y" 1 200
    | _ => ContextTracker.mkSection "history" "z" 6 150
    end in
  exists result,
    ContextTracker.enforceTokenBudget heap [0; 1; 2]%nat 120 = result
    /\ ~ In 2%nat result.
Proof.
  intros heap. eexists. split; [reflexivity |].
  apply (enforceTokenBudget_priority_order heap [0; 1; 2]%nat 120 1%nat 2%nat).
  - right. left. reflexivity.
  - right. right. left. reflexivity.
  - vm_compute. intros [H | []]. discriminate.
  - reflexivity.
Defined.

Lemma enforceTokenBudget_budget_monotone_witness :
  let heap : ContextTracker.Heap := fun r =>
    match r with
    | O => ContextTracker.mkSection "agent" "x" 0 100
    | _ => ContextTracker.mkSection "history" "z" 6 150
    end in
  sublist (ContextTracker.enforceTokenBudget heap [0; 1]%nat 120)
          (ContextTracker.enforceTokenBudget heap [0; 1]%nat 300).
Proof.
  intros heap. apply (enforceTokenBudget_budget_monotone heap [0; 1]%nat 120 300). lia.
Defined.

(** ** Session store: what trimming keeps *)

Section StoreMore.
Import SessionStore.

(** [events.slice(-(limit - 1))] of a log above the limit: what follows
    the first event is split into a block that goes and the latest
    [limit - 1] events, which stay. *)
Lemma slice_latest (first : SessionEvent) (rest : list SessionEvent) (limit : Z) :
  2 <= limit -> limit < Z.of_nat (length (first :: rest)) ->
  exists dropped kept,
    Js.slice_from (- (limit - 1)) (first :: rest) = kept
    /\ rest = dropped ++ kept
    /\ dropped <> []
    /\ Z.of_nat (length kept) = limit - 1.
Proof.
  intros Hlim Hlong. unfold Js.slice_from.
  destruct (Z.ltb_spec (- (limit - 1)) 0); [| lia].
  remember (Z.to_nat _) as k eqn:Ek.
  assert (Hk : (1 <= k <= length rest)%nat) by (cbn [length] in *; lia).
  destruct k as [| k]; [lia |]. cbn [drop].
  exists (take k rest), (drop k rest).
  split; [reflexivity |]. split; [symmetry; apply take_drop |].
  split.
  - intros Hnil. apply (f_equal length) in Hnil. rewrite length_take in Hnil.
    cbn [length] in *. lia.
  - rewrite length_drop. cbn [length] in *. lia.
Qed.

(** X11 — from a limit of two on, a log above the limit is cut to exactly
    [limit] events: the first event, then the latest [limit - 1] events in
    their order; what is dropped is one block right after the first
    event. *)
Theorem trim_events_keeps_latest (first : SessionEvent) (rest : list SessionEvent)
    (maxEvents : option Z) :
  2 <= limit_of maxEvents ->
  limit_of maxEvents < Z.of_nat (length (first :: rest)) ->
  exists dropped kept,
    trim_events (first :: rest) maxEvents = Some (first :: kept)
    /\ rest = dropped ++ kept
    /\ dropped <> []
    /\ Z.of_nat (length kept) = limit_of maxEvents - 1.
Proof.
  intros Hlim Hlong. unfold trim_events.
  destruct (Z.gtb_spec (Z.of_nat (length (first :: rest))) (limit_of maxEvents));
    [| lia].
  destruct (slice_latest first rest (limit_of maxEvents) Hlim Hlong)
    as (dropped & kept & -> & Hsplit & Hne & Hlen).
  exists dropped, kept. repeat split; assumption.
Qed.

Lemma trim_events_keeps_latest_witness :
  exists dropped kept,
    trim_events [mkEvent 0 "SESSION_START" "master" None [];
                 mkEvent 1 "PHASE_START" "dev" (Some "build") [];
                 mkEvent 2 "PHASE_COMPLETE" "dev" (Some "build") []] (Some 2)
    = Some (mkEvent 0 "SESSION_START" "master" None [] :: kept)
    /\ [mkEvent 1 "PHASE_START" "dev" (Some "build") [];
        mkEvent 2 "PHASE_COMPLETE" "dev" (Some "build") []] = dropped ++ kept
    /\ dropped <> []
    /\ Z.of_nat (length kept) = limit_of (Some 2) - 1.
Proof.
  apply (trim_events_keeps_latest (mkEvent 0 "SESSION_START" "master" None [])
           [mkEvent 1 "PHASE_START" "dev" (Some "build") [];
            mkEvent 2 "PHASE_COMPLETE" "dev" (Some "build") []] (Some 2)).
  - vm_compute. discriminate.
  - vm_compute. reflexivity.
Defined.

(** X12 — from a limit of two on, saving twice is saving once: the second
    [save] finds the log within the limit and writes the same record. *)
Theorem save_idempotent (dir dir' : gmap string SessionState)
    (session session' : SessionState) (maxEvents : option Z) :
  2 <= limit_of maxEvents ->
  save dir session maxEvents = Some (session', dir') ->
  save dir' session' maxEvents = Some (session', dir').
Proof.
  intros Hlim. unfold save.
  destruct (trim_events (events session) maxEvents) as [evs |] eqn:Htrim;
    [| discriminate].
  intros [= <- <-]. cbn [events with_events sessionId].
  pose proof (trim_events_length _ _ _ Hlim Htrim) as Hlen.
  assert (Hagain : trim_events evs maxEvents = Some evs).
  { unfold trim_events.
    destruct (Z.gtb_spec (Z.of_nat (length evs)) (limit_of maxEvents)); [lia |].
    reflexivity. }
  rewrite Hagain. cbn [events with_events sessionId].
  rewrite insert_insert_eq. reflexivity.
Qed.

Lemma save_idempotent_witness :
  exists s' dir',
    save ∅ sample_session (Some 2) = Some (s', dir')
    /\ save dir' s' (Some 2) = Some (s', dir').
Proof.
  eexists _, _. split; [reflexivity |].
  apply (save_idempotent ∅ _ sample_session _ (Some 2)).
  - vm_compute. discriminate.
  - reflexivity.
Defined.
(** X21 — the cap can cost a completed phase: when the only
    PHASE_COMPLETE event of a phase lies in the block that a save of the
    engine (no [maxEvents], cap 200) cuts out, the phase counts as
    completed before the save and as pending after it. *)
Theorem save_forgets_completion (dir : gmap string SessionState)
    (session : SessionState) (first : SessionEvent) (mid tail : list SessionEvent)
    (id : string) :
  events session = first :: mid ++ tail ->
  length tail = 199%nat ->
  mid <> [] ->
  WorkflowEngine.includes (WorkflowEngine.completedPhases mid) id = true ->
  WorkflowEngine.includes (WorkflowEngine.completedPhases (first :: tail)) id = false ->
  exists session' dir',
    save dir session None = Some (session', dir')
    /\ events session' = first :: tail
    /\ WorkflowEngine.includes
         (WorkflowEngine.completedPhases (events session)) id = true
    /\ WorkflowEngine.includes
         (WorkflowEngine.completedPhases (events session')) id = false.
Proof.
  intros Hevs Htail Hmid Hdone Hlost.
  assert (Hlen : (1 <= length mid)%nat) by (destruct mid; [congruence | cbn; lia]).
  destruct (slice_latest first (mid ++ tail) 200)
    as (dropped & kept & Hslice & Hsplit & _ & Hkept).
  { lia. }
  { cbn [length]. rewrite length_app. lia. }
  assert (Htrim : trim_events (first :: mid ++ tail) None = Some (first :: kept)).
  { unfold trim_events. cbn [limit_of].
    destruct (Z.gtb_spec (Z.of_nat (length (first :: mid ++ tail))) 200) as [_ | Hle].
    - rewrite Hslice. reflexivity.
    - cbn [length] in Hle. rewrite length_app in Hle. lia. }
  assert (Hsame : kept = tail).
  { symmetry. eapply (app_inj_2 mid dropped tail kept); [lia | exact Hsplit]. }
  rewrite Hsame in Htrim. unfold save. rewrite Hevs, Htrim.
  eexists _, _. split; [reflexivity |]. cbn [events with_events].
  split; [reflexivity |]. split; [| exact Hlost].
  apply includes_spec. apply includes_spec in Hdone.
  unfold WorkflowEngine.completedPhases in *.
  change (first :: mid ++ tail) with ([first] ++ mid ++ tail).
  rewrite !List.filter_app, !map_app. apply in_or_app. right.
  apply in_or_app. left. exact Hdone.
Qed.

Lemma save_forgets_completion_witness :
  exists session' dir',
    save ∅
      (with_events sample_session
         (mkEvent 0 "SESSION_START" "master" None []
          :: [mkEvent 1 "PHASE_COMPLETE" "dev" (Some "build") []]
          ++ repeat (mkEvent 2 "NOTE" "dev" None []) 199)) None
    = Some (session', dir')
    /\ WorkflowEngine.includes
         (WorkflowEngine.completedPhases (events session')) "build" = false.
Proof.
  destruct (save_forgets_completion ∅
              (with_events sample_session
                 (mkEvent 0 "SESSION_START" "master" None []
                  :: [mkEvent 1 "PHASE_COMPLETE" "dev" (Some "build") []]
                  ++ repeat (mkEvent 2 "NOTE" "dev" None []) 199))
              (mkEvent 0 "SESSION_START" "master" None [])
              [mkEvent 1 "PHASE_COMPLETE" "dev" (Some "build") []]
              (repeat (mkEvent 2 "NOTE" "dev" None []) 199) "build")
    as (session' & dir' & Hsave & _ & _ & Hlost).
  - reflexivity.
  - apply repeat_length.
  - discriminate.
  - reflexivity.
  - vm_compute. reflexivity.
  - exists session', dir'. split; [exact Hsave | exact Hlost].
Defined.
End StoreMore.

(** ** Wave planning: every phase is planned once *)

Section WaveMore.
Import WorkflowEngine.

Lemma concat_singletons {A} (l : list A) : concat (map (fun p => [p]) l) = l.
Proof. induction l as [| x l IH]; cbn; [| rewrite IH]; reflexivity. Qed.

Lemma waves_loop_partition (fuel : nat) (completed : gset string)
    (remaining : list WorkflowPhase) (waves : list (list WorkflowPhase)) :
  (length remaining <= fuel)%nat ->
  Forall (fun wave => wave <> []) waves ->
  exists waves' warned,
    waves_loop fuel completed remaining waves = Some (waves', warned)
    /\ concat waves' ≡ₚ concat waves ++ remaining
    /\ Forall (fun wave => wave <> []) waves'.
Proof.
  revert completed remaining waves.
  induction fuel as [| fuel IH]; intros completed remaining waves Hfuel Hne.
  - destruct remaining; [| cbn in Hfuel; lia].
    exists waves, false. rewrite app_nil_r. repeat split; [reflexivity | exact Hne].
  - destruct remaining as [| p0 rest] eqn:Erem.
    { exists waves, false. rewrite app_nil_r. repeat split; [reflexivity | exact Hne]. }
    rewrite <- Erem in *. cbn [waves_loop].
    assert (Hrem : remaining <> []) by (rewrite Erem; discriminate).
    replace (match remaining with [] => Some (waves, false) | _ :: _ => _ end)
      with (let wave := List.filter (eligible completed) remaining in
            if (length wave =? 0)%nat
            then Some (waves ++ map (fun p => [p]) remaining, true)
            else let '(completed', remaining') := take_wave wave completed remaining in
                 waves_loop fuel completed' remaining' (waves ++ [wave]))
      by (rewrite Erem; reflexivity).
    cbv zeta. set (wave := List.filter (eligible completed) remaining).
    destruct (Nat.eqb_spec (length wave) 0) as [Hempty | Hwave].
    { eexists _, true. split; [reflexivity |].
      rewrite concat_app, concat_singletons. split; [reflexivity |].
      apply Forall_app. split; [exact Hne |].
      apply Forall_forall. intros w Hw. apply list_elem_of_In, in_map_iff in Hw.
      destruct Hw as (p & <- & _). discriminate. }
    assert (Hwne : wave <> [])
      by (intros Hnil; rewrite Hnil in Hwave; cbn in Hwave; lia).
    pose proof (take_wave_shrinks wave completed remaining Hwne Hrem) as Hshrink.
    pose proof (take_wave_perm wave completed remaining (filter_submseteq _ _))
      as Hperm.
    destruct (take_wave wave completed remaining) as [completed' remaining'].
    cbn [snd] in Hshrink, Hperm.
    destruct (IH completed' remaining' (waves ++ [wave])) as (ws & warned & Hrun & Hp & Hall).
    + lia.
    + apply Forall_app. split; [exact Hne | repeat constructor; exact Hwne].
    + exists ws, warned. split; [exact Hrun |]. split; [| exact Hall].
      rewrite Hp, concat_app. cbn [concat]. rewrite app_nil_r, <- app_assoc, Hperm.
      reflexivity.
Qed.

(** X13 — [calculateWaves] plans every phase exactly once, also when it
    falls back on a circular dependency: the waves put together are a
    rearrangement of the phase list, and no wave is empty. *)
Theorem calculateWaves_partition (phs : list WorkflowPhase) :
  exists waves warned,
    calculateWaves phs = Some (waves, warned)
    /\ concat waves ≡ₚ phs
    /\ Forall (fun wave => wave <> []) waves.
Proof.
  unfold calculateWaves.
  destruct (waves_loop_partition (length phs) ∅ phs []) as (ws & warned & Hrun & Hp & Hne);
    [lia | constructor |].
  exists ws, warned. repeat split; assumption.
Qed.

Lemma filter_perm {A} (f : A -> bool) (l l' : list A) :
  l ≡ₚ l' -> List.filter f l ≡ₚ List.filter f l'.
Proof.
  induction 1 as [| x l l' _ IH | x y l | l l' l'' _ IH1 _ IH2]; cbn [List.filter].
  - reflexivity.
  - destruct (f x); [rewrite IH |]; [reflexivity | exact IH].
  - destruct (f x), (f y); try reflexivity. apply Permutation_swap.
  - etransitivity; eassumption.
Qed.

Lemma wave_schedule_concat (evs : list SessionEvent)
    (waves : list (list WorkflowPhase)) :
  concat (wave_schedule evs waves) = pending (completedPhases evs) (concat waves).
Proof.
  unfold wave_schedule, pending.
  induction waves as [| wave waves IH]; [reflexivity |].
  cbn [map List.filter concat]. rewrite List.filter_app, <- IH.
  destruct (List.filter _ wave) as [| p ps]; reflexivity.
Qed.

(** X14 — the schedule [executeWaves] runs holds exactly the phases of
    the workflow whose id has no PHASE_COMPLETE event in the log, each
    once, and none of its waves is empty. *)
Theorem wave_schedule_covers_pending (evs : list SessionEvent)
    (phs : list WorkflowPhase) :
  exists waves warned,
    calculateWaves phs = Some (waves, warned)
    /\ concat (wave_schedule evs waves) ≡ₚ pending (completedPhases evs) phs
    /\ Forall (fun wave => wave <> []) (wave_schedule evs waves).
Proof.
  unfold calculateWaves.
  destruct (waves_loop_partition (length phs) ∅ phs [])
    as (waves & warned & Hrun & Hp & _); [lia | constructor |].
  cbn [concat app] in Hp.
  exists waves, warned. split; [exact Hrun |]. split.
  - rewrite wave_schedule_concat. unfold pending. apply filter_perm, Hp.
  - unfold wave_schedule. apply Forall_forall. intros w Hw.
    apply list_elem_of_In, filter_In in Hw as [_ Hw].
    destruct w; [discriminate | discriminate].
Qed.
(** X27 — phases without dependencies are all planned into one wave:
    the whole phase list, in its order. *)
Theorem calculateWaves_no_dependencies (phs : list WorkflowPhase) :
  phs <> [] ->
  Forall (fun p => deps p = []) phs ->
  calculateWaves phs = Some ([phs], false).
Proof.
  intros Hne Hfree. unfold calculateWaves.
  destruct phs as [| p0 rest] eqn:E; [congruence |]. rewrite <- E in *.
  assert (Hlen : length phs = S (length rest)) by (rewrite E; reflexivity).
  rewrite Hlen. cbn [waves_loop].
  replace (match phs with [] => Some ([], false) | _ :: _ => _ end)
    with (let wave := List.filter (eligible ∅) phs in
          if (length wave =? 0)%nat
          then Some ([] ++ map (fun p => [p]) phs, true)
          else let '(completed', remaining') := take_wave wave ∅ phs in
               waves_loop (length rest) completed' remaining' ([] ++ [wave]))
    by (rewrite E; reflexivity).
  cbv zeta.
  assert (Hall : List.filter (eligible ∅) phs = phs).
  { apply filter_all. intros p Hp. unfold eligible.
    rewrite List.Forall_forall in Hfree. rewrite (Hfree p Hp). reflexivity. }
  rewrite Hall.
  destruct (Nat.eqb_spec (length phs) 0) as [Hz | _]; [lia |].
  pose proof (take_wave_perm phs ∅ phs ltac:(reflexivity)) as Hperm.
  destruct (take_wave phs ∅ phs) as [completed' remaining']. cbn [snd] in Hperm.
  apply Permutation_length in Hperm. rewrite length_app in Hperm.
  destruct remaining'; [| cbn [length] in Hperm; lia].
  destruct (length rest); reflexivity.
Qed.

Lemma calculateWaves_no_dependencies_witness :
  calculateWaves [sample_phase "a" None None 0; sample_phase "b" None (Some []) 0]
  = Some ([[sample_phase "a" None None 0; sample_phase "b" None (Some []) 0]], false).
Proof.
  apply (calculateWaves_no_dependencies
           [sample_phase "a" None None 0; sample_phase "b" None (Some []) 0]).
  - discriminate.
  - repeat constructor.
Defined.
End WaveMore.

(** ** Workflow engine: the life of a phase *)

Section EngineMore.
Import WorkflowEngine.

Lemma same_progress_refl (w : World) : same_progress w w.
Proof. repeat split. Qed.


Lemma executePrompt_frame (env : Env) (promptPath : string) (phase : WorkflowPhase)
    (w w' : World) (result : RunnerResult) :
  executePrompt env promptPath phase w = Some (result, w') -> same_progress w w'.
Proof.
  unfold executePrompt. destruct (executor_manual env).
  { intros [= _ <-]. apply same_progress_refl. }
  unfold bind at 1, call_executor at 1. cbv beta iota.
  destruct (executor_run env (runs w)) as [r | m].
  - run_world.
    destruct (exitCode r =? 0); [| destruct (error r) as [e |];
                                   [destruct (JsString.truthy e) |]];
      run_world; intros [= _ <-]; repeat split.
  - run_world. intros [= _ <-]. repeat split.
Qed.


Lemma completePhase_log (phase : WorkflowPhase) (result : RunnerResult) (w : World) :
  exists e w',
    completePhase phase result w = Some (tt, w')
    /\ event_kind e = ("PHASE_COMPLETE", Some (ph_id phase))
    /\ SessionStore.trim_events (events (session w) ++ [e]) None
       = Some (events (session w'))
    /\ status (session w') = status (session w)
    /\ sessionId (session w') = sessionId (session w)
    /\ promptCount (session w') = promptCount (session w)
    /\ currentPhase (session w') = currentPhase (session w)
    /\ sessions w' !! sessionId (session w) = Some (session w')
    /\ runs w' = runs w
    /\ trace w' = trace w ++ [EHook "step:complete"].
Proof.
  unfold completePhase. assign_and_save save_assigned w f s1 evs' Htrim.
  assert (Hev : exists e, event_kind e = ("PHASE_COMPLETE", Some (ph_id phase))
                          /\ events s1 = events (session w) ++ [e])
    by (eexists; split; [| reflexivity]; reflexivity).
  destruct Hev as (e & Hkind & Hev). rewrite Hev in Htrim.
  assert (Hst : status s1 = status (session w)) by reflexivity.
  assert (Hid : sessionId s1 = sessionId (session w)) by reflexivity.
  assert (Hpc : promptCount s1 = promptCount (session w)) by reflexivity.
  assert (Hcp : currentPhase s1 = currentPhase (session w)) by reflexivity.
  clearbody s1. clear f.
  run_world. exists e. eexists. split; [reflexivity |].
  cbn [session sessions runs trace events with_events status sessionId
       promptCount currentPhase].
  rewrite <- Hid.
  repeat split; try assumption; try reflexivity. apply lookup_insert_eq.
Qed.

Lemma complete_session_log (w : World) :
  exists e w',
    complete_session w = Some (tt, w')
    /\ event_kind e = ("SESSION_COMPLETE", None)
    /\ SessionStore.trim_events (events (session w) ++ [e]) None
       = Some (events (session w'))
    /\ status (session w') = completed
    /\ sessionId (session w') = sessionId (session w)
    /\ promptCount (session w') = promptCount (session w)
    /\ sessions w' !! sessionId (session w) = Some (session w')
    /\ runs w' = runs w
    /\ trace w' = trace w ++ [EHook "session:complete"].
Proof.
  unfold complete_session. assign_and_save save_assigned w f s1 evs' Htrim.
  assert (Hev : exists e, event_kind e = ("SESSION_COMPLETE", None)
                          /\ events s1 = events (session w) ++ [e])
    by (eexists; split; [| reflexivity]; reflexivity).
  destruct Hev as (e & Hkind & Hev). rewrite Hev in Htrim.
  assert (Hst : status s1 = completed) by reflexivity.
  assert (Hid : sessionId s1 = sessionId (session w)) by reflexivity.
  assert (Hpc : promptCount s1 = promptCount (session w)) by reflexivity.
  clearbody s1. clear f.
  run_world. exists e. eexists. split; [reflexivity |].
  cbn [session sessions runs trace events with_events status sessionId
       promptCount currentPhase].
  rewrite <- Hid.
  repeat split; try assumption; try reflexivity. apply lookup_insert_eq.
Qed.






Lemma kind_completes (evs : list SessionEvent) (id : string) :
  In ("PHASE_COMPLETE", Some id) (map event_kind evs) ->
  includes (completedPhases evs) id = true.
Proof.
  intros Hin. apply in_map_iff in Hin as (e & Hkind & Hin).
  injection Hkind as Htype Hphase.
  apply completedPhases_spec. exists e. repeat split; assumption.
Qed.



(** A first attempt that succeeds ends [executeWithRetry] at once. *)
Lemma executeWithRetry_first_try (env : Env) (promptPath : string)
    (phase : WorkflowPhase) (w : World) :
  exitCode (attempt_result env (runs w)) = 0 ->
  exists w',
    executeWithRetry env promptPath phase w = Some (attempt_result env (runs w), w')
    /\ runs w' = (if executor_manual env then runs w else S (runs w))
    /\ same_progress w w'.
Proof.
  intros Hok. unfold executeWithRetry. cbn [retry_loop].
  unfold bind at 1. change (0 >? 0) with false. cbv iota.
  unfold ret at 1. cbv beta iota. unfold bind at 1.
  destruct (executePrompt_spec env promptPath phase w) as (w' & Hexec & _ & Hruns & _).
  rewrite Hexec. apply Z.eqb_eq in Hok. rewrite Hok. cbn [negb andb].
  exists w'. split; [reflexivity |]. split; [exact Hruns |].
  eapply executePrompt_frame, Hexec.
Qed.

Lemma phase_at_middle (workflow : WorkflowDefinition) (pre rest : list WorkflowPhase) :
  phases workflow = pre ++ rest ->
  phase_at workflow (Z.of_nat (length pre)) = head rest.
Proof.
  intros Hphases. unfold phase_at.
  destruct (Z.ltb_spec (Z.of_nat (length pre)) 0); [lia |].
  rewrite Nat2Z.id, Hphases, lookup_app_r by lia.
  rewrite Nat.sub_diag. destruct rest; reflexivity.
Qed.

Lemma executePhase_linear (env : Env) (workflow : WorkflowDefinition) :
  (forall k, exitCode (attempt_result env k) = 0) ->
  forall (rest pre : list WorkflowPhase) (w : World) (fuel : nat),
    phases workflow = pre ++ rest ->
    Forall plain_phase rest ->
    Forall (fun p => exists promptPath, compiled env p = Fulfilled promptPath) rest ->
    (length rest < fuel)%nat ->
    Z.of_nat (length (events (session w))) + 2 * Z.of_nat (length rest) + 1 <= 200 ->
    exists w',
      executePhase fuel env workflow (Z.of_nat (length pre)) w = Some (Fulfilled tt, w')
      /\ status (session w') = completed
      /\ map event_kind (events (session w'))
         = map event_kind (events (session w))
           ++ flat_map phase_kinds rest ++ [("SESSION_COMPLETE", None)]
      /\ promptCount (session w') = promptCount (session w) + Z.of_nat (length rest)
      /\ runs w' = (if executor_manual env then runs w else runs w + length rest)%nat
      /\ sessions w' !! sessionId (session w) = Some (session w').
Proof.
  intros Hok rest.
  induction rest as [| p rest IH];
    intros pre w fuel Hphases Hplain Hcompiles Hfuel Hshort;
    (destruct fuel as [| fuel]; [cbn [length] in Hfuel; lia |]);
    cbn [executePhase]; rewrite (phase_at_middle workflow pre _ Hphases); cbn [head].
  - destruct (complete_session_log w)
      as (e & w' & Hdone & Hkind & Htrim & Hst & Hid & Hpc & Hsaved & Hruns & _).
    rewrite trim_events_short in Htrim
      by (rewrite length_app; cbn [length] in *; lia).
    injection Htrim as Hev.
    exists w'. split; [unfold bind, ret; rewrite Hdone; reflexivity |].
    split; [exact Hst |].
    split; [rewrite <- Hev, map_app; cbn [map flat_map app]; rewrite Hkind; reflexivity |].
    cbn [length]. split; [lia |].
    split; [destruct (executor_manual env); lia | exact Hsaved].
  - apply Forall_cons in Hplain as [(Hgate & Hdec & Hnext) Hplain].
    apply Forall_cons in Hcompiles as [[promptPath Hcompiled] Hcompiles].
    cbn [length] in Hshort, Hfuel.
    destruct (preparePhase_log env p w)
      as (e1 & w1 & Hprep & Hkind1 & Htrim1 & _ & Hid1 & Hpc1 & _ & _ & _ & _ & _
          & Hruns1 & _).
    rewrite Hcompiled in Hprep.
    rewrite trim_events_short in Htrim1 by (rewrite length_app; cbn [length]; lia).
    injection Htrim1 as Hev1.
    destruct (executeWithRetry_first_try env promptPath p w1 (Hok _))
      as (w2 & Hrun & Hruns2 & Hev2 & _ & Hid2 & Hpc2 & _).
    destruct (completePhase_log p (attempt_result env (runs w1)) w2)
      as (e3 & w3 & Hdone & Hkind3 & Htrim3 & _ & Hid3 & Hpc3 & _ & _ & Hruns3 & _).
    rewrite Hev2, <- Hev1 in Htrim3.
    rewrite trim_events_short in Htrim3
      by (rewrite !length_app; cbn [length]; lia).
    injection Htrim3 as Hev3.
    destruct (IH (pre ++ [p]) w3 fuel) as (w' & Hrest & Hst & Hkinds & Hpc & Hruns & Hsaved).
    { rewrite Hphases, <- app_assoc. reflexivity. }
    { exact Hplain. }
    { exact Hcompiles. }
    { lia. }
    { rewrite <- Hev3, !length_app. cbn [length]. lia. }
    exists w'. split.
    { unfold bind at 1. rewrite Hprep, Hgate. unfold bind at 1.
      rewrite Hrun, (Hok (runs w1)). cbn [Z.eqb negb].
      unfold bind at 1. rewrite Hdone.
      unfold decided_index, next_index. rewrite Hdec, Hnext.
      replace (Z.of_nat (length pre) + 1) with (Z.of_nat (length (pre ++ [p])))
        by (rewrite length_app; cbn [length]; lia).
      exact Hrest. }
    split; [exact Hst |].
    split.
    { rewrite Hkinds, <- Hev3, !map_app. cbn [map flat_map phase_kinds app].
      rewrite Hkind1, Hkind3, <- !app_assoc. reflexivity. }
    cbn [length]. split; [lia |].
    split; [destruct (executor_manual env); lia |].
    rewrite <- Hid1, <- Hid2, <- Hid3. exact Hsaved.
Qed.

(** X17 — a workflow of plain phases (no approval gate, no decision
    routing, no [next] pointer) whose prompts all compile and whose
    executor succeeds at every call runs from its first phase to its end:
    each phase adds its PHASE_START and PHASE_COMPLETE event in list
    order, the log ends on SESSION_COMPLETE, the session is completed and
    stored, every phase counts as completed, and the executor was called
    once per phase.  The log is assumed to stay within the cap of 200
    events, so that nothing is trimmed. *)
Theorem executePhase_linear_run (env : Env) (workflow : WorkflowDefinition)
    (w : World) :
  (forall k, exitCode (attempt_result env k) = 0) ->
  Forall plain_phase (phases workflow) ->
  Forall (fun p => exists promptPath, compiled env p = Fulfilled promptPath)
         (phases workflow) ->
  Z.of_nat (length (events (session w)))
  + 2 * Z.of_nat (length (phases workflow)) + 1 <= 200 ->
  exists w',
    executePhase (S (length (phases workflow))) env workflow 0 w
    = Some (Fulfilled tt, w')
    /\ status (session w') = completed
    /\ map event_kind (events (session w'))
       = map event_kind (events (session w))
         ++ flat_map phase_kinds (phases workflow) ++ [("SESSION_COMPLETE", None)]
    /\ Forall (fun p => includes (completedPhases (events (session w'))) (ph_id p) = true)
              (phases workflow)
    /\ promptCount (session w')
       = promptCount (session w) + Z.of_nat (length (phases workflow))
    /\ runs w' = (if executor_manual env then runs w
                  else runs w + length (phases workflow))%nat
    /\ sessions w' !! sessionId (session w) = Some (session w').
Proof.
  intros Hok Hplain Hcompiles Hshort.
  destruct (executePhase_linear env workflow Hok (phases workflow) [] w
              (S (length (phases workflow))))
    as (w' & Hrun & Hst & Hkinds & Hpc & Hruns & Hsaved);
    [reflexivity | exact Hplain | exact Hcompiles | lia | exact Hshort |].
  exists w'. split; [exact Hrun |]. split; [exact Hst |]. split; [exact Hkinds |].
  split; [| repeat split; assumption].
  apply Forall_forall. intros p Hp. apply list_elem_of_In in Hp.
  apply kind_completes. rewrite Hkinds.
  apply in_or_app. right. apply in_or_app. left.
  apply in_flat_map. exists p. split; [exact Hp | right; left; reflexivity].
Qed.

(** X18 — a phase whose [next] pointer names the phase itself is run again
    and again as long as the executor succeeds: no bound on the chain of
    recursive calls of [executePhase] is enough for the call to return;
    and as long as the prompt of the phase compiles the call does not end
    at all, not by an exception either. *)
Theorem executePhase_self_loop_diverges (env : Env) (workflow : WorkflowDefinition)
    (phaseIndex : Z) (phase : WorkflowPhase) :
  (forall k, exitCode (attempt_result env k) = 0) ->
  phase_at workflow phaseIndex = Some phase ->
  is_user_approval phase = false ->
  ph_decision phase = None ->
  ph_next phase = Some (ph_id phase) ->
  JsString.truthy (ph_id phase) = true ->
  index_of_id workflow (ph_id phase) = phaseIndex ->
  (forall (fuel : nat) (w w' : World),
      executePhase fuel env workflow phaseIndex w <> Some (Fulfilled tt, w'))
  /\ (forall promptPath,
        compiled env phase = Fulfilled promptPath ->
        forall (fuel : nat) (w : World),
          executePhase fuel env workflow phaseIndex w = None).
Proof.
  intros Hok Hphase Hgate Hdec Hnext Hid Hidx.
  assert (Hpos : 0 <= phaseIndex).
  { unfold phase_at in Hphase. destruct (Z.ltb_spec phaseIndex 0); [discriminate | lia]. }
  apply Z.leb_le in Hpos.
  assert (Hrun : forall fuel w,
            exists w3,
              executePhase (S fuel) env workflow phaseIndex w
              = match compiled env phase with
                | Fulfilled _ => executePhase fuel env workflow phaseIndex w3
                | Rejected reason => Some (Rejected reason, w3)
                end).
  { intros fuel w. cbn [executePhase]. rewrite Hphase.
    destruct (preparePhase_log env phase w) as (e1 & w1 & Hprep & _).
    unfold bind at 1. rewrite Hprep.
    destruct (compiled env phase) as [promptPath | reason].
    - destruct (executeWithRetry_first_try env promptPath phase w1 (Hok _))
        as (w2 & Hrun & _).
      destruct (completePhase_log phase (attempt_result env (runs w1)) w2)
        as (e3 & w3 & Hdone & _).
      exists w3. rewrite Hgate. unfold bind at 1.
      rewrite Hrun, (Hok (runs w1)). cbn [Z.eqb negb].
      unfold bind at 1. rewrite Hdone.
      unfold decided_index, next_index. rewrite Hdec, Hnext, Hid, Hidx, Hpos.
      reflexivity.
    - exists w1. reflexivity. }
  split.
  - intros fuel. induction fuel as [| fuel IH]; intros w w'; [discriminate |].
    destruct (Hrun fuel w) as [w3 ->].
    destruct (compiled env phase); [apply IH | discriminate].
  - intros promptPath Hcompiled fuel.
    induction fuel as [| fuel IH]; intros w; [reflexivity |].
    destruct (Hrun fuel w) as [w3 ->]. rewrite Hcompiled. apply IH.
Qed.

(** X28 — resuming a session that is already completed does nothing: no
    phase is run, nothing is stored, no event is added and no hook
    fires. *)
Theorem resume_completed_is_noop (env : Env) (workflow : WorkflowDefinition)
    (id : string) (w : World) (s : SessionState) :
  sessions w !! id = Some s ->
  status s = completed ->
  exists w',
    resume env workflow id w = Some ((None, Finished), w')
    /\ session w' = s
    /\ sessions w' = sessions w
    /\ dashboard w' = dashboard w
    /\ handoff w' = handoff w
    /\ runs w' = runs w
    /\ trace w' = trace w.
Proof.
  intros Hload Hdone. unfold resume.
  unfold bind at 1. unfold store_load. rewrite Hload.
  unfold bind at 1. unfold get_session at 1. cbn [session].
  rewrite Hdone. cbn [SessionStatus_eqb]. unfold ret.
  eexists. split; [reflexivity |]. repeat split.
Qed.

Lemma resume_completed_is_noop_witness :
  exists w',
    resume sample_env (mkWorkflow "wf" "Build" [sample_phase "build" None None 0]) "s1"
      (mkWorld 1000 sample_session
         {["s1" := with_status sample_session completed]} ∅ None [] 0 [])
    = Some ((None, Finished), w')
    /\ trace w' = [].
Proof.
  destruct (resume_completed_is_noop sample_env
              (mkWorkflow "wf" "Build" [sample_phase "build" None None 0]) "s1"
              (mkWorld 1000 sample_session
                 {["s1" := with_status sample_session completed]} ∅ None [] 0 [])
              (with_status sample_session completed))
    as (w' & Hrun & _ & _ & _ & _ & _ & Htr).
  - reflexivity.
  - reflexivity.
  - exists w'. split; [exact Hrun | exact Htr].
Defined.
End EngineMore.

Lemma executePhase_linear_run_witness :
  exists w',
    WorkflowEngine.executePhase 3
      (WorkflowEngine.mkEnv 30 200000 true (fun _ => WorkflowEngine.Throws "unused")
         (fun agentId taskId => WorkflowEngine.Fulfilled taskId) (fun _ => None))
      (mkWorkflow "wf" "Two" [sample_phase "build" None None 0;
                              sample_phase "test" None None 0]) 0 sample_world
    = Some (WorkflowEngine.Fulfilled tt, w')
    /\ status (WorkflowEngine.session w') = completed.
Proof.
  destruct (executePhase_linear_run
              (WorkflowEngine.mkEnv 30 200000 true (fun _ => WorkflowEngine.Throws "unused")
                 (fun agentId taskId => WorkflowEngine.Fulfilled taskId) (fun _ => None))
              (mkWorkflow "wf" "Two" [sample_phase "build" None None 0;
                                      sample_phase "test" None None 0]) sample_world)
    as (w' & Hrun & Hst & _).
  - intros k. reflexivity.
  - repeat constructor.
  - repeat constructor; eexists; reflexivity.
  - vm_compute. discriminate.
  - exists w'. split; [exact Hrun | exact Hst].
Defined.

Lemma executePhase_self_loop_diverges_witness :
  WorkflowEngine.executePhase 5
    (WorkflowEngine.mkEnv 30 200000 true (fun _ => WorkflowEngine.Throws "unused")
       (fun agentId taskId => WorkflowEngine.Fulfilled taskId) (fun _ => None))
    (mkWorkflow "wf" "Loop"
       [mkPhase "again" "again" "dev" "again.md" (Some "again") None None None 0 None])
    0 sample_world = None.
Proof.
  apply (proj2 (executePhase_self_loop_diverges
           (WorkflowEngine.mkEnv 30 200000 true (fun _ => WorkflowEngine.Throws "unused")
              (fun agentId taskId => WorkflowEngine.Fulfilled taskId) (fun _ => None))
           (mkWorkflow "wf" "Loop"
              [mkPhase "again" "again" "dev" "again.md" (Some "again") None None None 0 None])
           0
           (mkPhase "again" "again" "dev" "again.md" (Some "again") None None None 0 None)
           ltac:(intros k; reflexivity) eq_refl eq_refl eq_refl eq_refl eq_refl eq_refl)
         "again").
  reflexivity.
Defined.

(** ** Handoff document and resume *)

Section HandoffMore.
Import SessionContinuity.

Lemma str_in_spec (x : string) (l : list string) : str_in x l = true <-> In x l.
Proof.
  unfold str_in. rewrite existsb_exists. split.
  - intros (y & Hin & Heq). apply String.eqb_eq in Heq. subst. exact Hin.
  - intros Hin. exists x. split; [exact Hin | apply String.eqb_refl].
Qed.

Lemma completedPhases_In (evs : list SessionEvent) (id : string) :
  In id (completedPhases evs)
  <-> exists e, In e evs /\ is_completion e = true
                /\ completion_id e = Some id /\ JsString.truthy id = true.
Proof.
  unfold completedPhases. rewrite in_flat_map. split.
  - intros (e & He & Hid). apply filter_In in He as [He Hc].
    exists e. destruct (completion_id e) as [p |]; [| destruct Hid].
    destruct (JsString.truthy p) eqn:Hp; [| destruct Hid].
    destruct Hid as [<- | []]. repeat split; assumption.
  - intros (e & He & Hc & Hid & Ht). exists e.
    split; [apply filter_In; split; assumption |].
    rewrite Hid, Ht. left. reflexivity.
Qed.

(** X19 — the handoff document and [resume] read the same log: a phase
    that [resume] takes as completed (its PHASE_COMPLETE event is in the
    log, its id is not empty) is among the completed phases of the
    document and is listed under Completed; and the two lists of the
    document, Completed and Remaining, share out the phases of the
    workflow. *)
Theorem handoff_lists_completed (now : Z) (session : SessionState)
    (workflow : WorkflowDefinition) (reason : string) (p : WorkflowPhase) :
  In p (phases workflow) ->
  JsString.truthy (ph_id p) = true ->
  WorkflowEngine.includes (WorkflowEngine.completedPhases (events session)) (ph_id p)
  = true ->
  let doc := generateContinueHere now session workflow reason in
  In (ph_id p, ph_agent p, duration_of (events session) (ph_id p)) (h_completed doc)
  /\ (length (h_completed doc) + length (h_remaining doc)
      = length (phases workflow))%nat
  /\ str_in (ph_id p) (completedPhases (events session)) = true.
Proof.
  intros Hp Hid Hdone doc.
  assert (Hin : str_in (ph_id p) (completedPhases (events session)) = true).
  { apply completedPhases_spec in Hdone as (e & He & Htype & Hphase).
    apply str_in_spec, completedPhases_In. exists e.
    split; [exact He |].
    split; [unfold is_completion; rewrite Htype; reflexivity |].
    split; [unfold completion_id; rewrite Hphase, Hid; reflexivity | exact Hid]. }
  subst doc. cbn [generateContinueHere h_completed h_remaining].
  split.
  { apply in_map_iff. exists p. split; [reflexivity |].
    apply filter_In. split; assumption. }
  split; [| exact Hin].
  rewrite !length_map. clear.
  induction (phases workflow) as [| q l IH]; [reflexivity |].
  cbn [List.filter]. destruct (str_in (ph_id q) _); cbn [negb length]; lia.
Qed.

Lemma handoff_lists_completed_witness :
  In ("build", "dev", None)
     (h_completed
        (generateContinueHere 0
           (with_events sample_session
              [mkEvent 5 "PHASE_COMPLETE" "dev" (Some "build") []])
           (mkWorkflow "wf" "Build" [sample_phase "build" None None 0]) "paused")).
Proof.
  apply (handoff_lists_completed 0
           (with_events sample_session
              [mkEvent 5 "PHASE_COMPLETE" "dev" (Some "build") []])
           (mkWorkflow "wf" "Build" [sample_phase "build" None None 0]) "paused"
           (sample_phase "build" None None 0)).
  - left. reflexivity.
  - reflexivity.
  - reflexivity.
Defined.

(** X20 — the converse fails by design of the two filters: a
    STEP_COMPLETE event with status [completed] marks its step as
    completed in the handoff document, while [resume], which reads
    PHASE_COMPLETE events only, still takes the phase as pending. *)
Theorem step_complete_counts_for_handoff_only (evs : list SessionEvent) (t : Z)
    (agent id : string) :
  JsString.truthy id = true ->
  let e := mkEvent t "STEP_COMPLETE" agent None
             [("step", JStr id); ("status", JStr "completed")] in
  str_in id (completedPhases (evs ++ [e])) = true
  /\ WorkflowEngine.includes (WorkflowEngine.completedPhases (evs ++ [e])) id
     = WorkflowEngine.includes (WorkflowEngine.completedPhases evs) id.
Proof.
  intros Hid e. split.
  - apply str_in_spec, completedPhases_In. exists e.
    split; [apply in_or_app; right; left; reflexivity |].
    split; [reflexivity |]. split; [| exact Hid].
    unfold completion_id, e. cbn [ev_phase].
    unfold data_str. cbn [ev_data List.find fst]. reflexivity.
  - pose proof (completedPhases_other_event evs [] e) as Hother.
    rewrite app_nil_r in Hother. rewrite Hother; [reflexivity | discriminate].
Qed.

Lemma step_complete_counts_for_handoff_only_witness :
  str_in "build"
    (completedPhases
       ([] ++ [mkEvent 0 "STEP_COMPLETE" "dev" None
                 [("step", JStr "build"); ("status", JStr "completed")]])) = true.
Proof.
  apply (step_complete_counts_for_handoff_only [] 0 "dev" "build"). reflexivity.
Defined.
End HandoffMore.

(** ** Session manager: titles and stale sessions *)

Section HousekeepingMore.
Import ContextTracker SessionHousekeeping.

(** X22 — a session title has at most 50 characters; a mission name of 5
    to 50 characters is the title as it is; and a shorter mission name
    always starts the title. *)
Theorem generateSessionTitle_length (missionName : jsString)
    (firstPhaseName : option jsString) :
  len (generateSessionTitle missionName firstPhaseName) <= 50
  /\ (5 <= len missionName <= 50 ->
      generateSessionTitle missionName firstPhaseName = missionName)
  /\ (len missionName < 5 ->
      take (length missionName) (generateSessionTitle missionName firstPhaseName)
      = missionName).
Proof.
  unfold generateSessionTitle. cbv zeta.
  set (title := match firstPhaseName with
                | Some name =>
                    if negb (is_empty name) && (len missionName <? 5)
                    then missionName ++ [58; 32] ++ name
                    else missionName
                | None => missionName
                end).
  assert (Htitle : title = missionName
                   \/ (len missionName < 5 /\ exists rest, title = missionName ++ rest)).
  { subst title. destruct firstPhaseName as [name |]; [| left; reflexivity].
    destruct (negb (is_empty name)); [| left; reflexivity]. cbn [andb].
    destruct (Z.ltb_spec (len missionName) 5); [| left; reflexivity].
    right. split; [assumption | eexists; reflexivity]. }
  split; [| split].
  - destruct (Z.gtb_spec (len title) 50) as [Hlong | Hshort]; [| exact Hshort].
    unfold len in *. rewrite length_app, length_take. cbn [length]. lia.
  - intros Hlen. destruct Htitle as [-> | [Hlt _]]; [| lia].
    destruct (Z.gtb_spec (len missionName) 50); [lia | reflexivity].
  - intros Hlt. unfold len in *.
    destruct (Z.gtb_spec (Z.of_nat (length title)) 50) as [Hlong | Hshort].
    + destruct Htitle as [-> | [_ [rest ->]]]; [lia |].
      rewrite take_app_le by (rewrite length_take; lia).
      rewrite take_take, take_app_le by lia.
      apply take_ge. lia.
    + destruct Htitle as [-> | [_ [rest ->]]].
      * apply take_ge. lia.
      * rewrite take_app_length. reflexivity.
Qed.

Lemma lookup_clean_step (now maxAgeMs : Z) (cleaned : nat)
    (dir : gmap string FileContent) (file : string) :
  clean_step now maxAgeMs (cleaned, dir) file
  = match dir !! file with
    | Some content =>
        if stale_file now maxAgeMs file content
        then (S cleaned, delete file dir) else (cleaned, dir)
    | None => (cleaned, dir)
    end.
Proof.
  unfold clean_step, stale_file, last_seen.
  destruct (endsWith ".json" file); cbn [negb andb];
    [| destruct (dir !! file); reflexivity].
  destruct (dir !! file) as [[| s] |]; try reflexivity.
  cbn [existsb]. rewrite orb_false_r.
  destruct (SessionStatus_eqb (status s) completed || SessionStatus_eqb (status s) failed);
    cbn [negb andb]; [| reflexivity].
  unfold default. rewrite Z.gtb_ltb.
  destruct (lastActivity s); reflexivity.
Qed.

Lemma clean_loop_spec (now maxAgeMs : Z) (files : list string) :
  NoDup files ->
  forall (cleaned : nat) (dir : gmap string FileContent),
    let result := fold_left (clean_step now maxAgeMs) files (cleaned, dir) in
    (forall file,
        result.2 !! file
        = match dir !! file with
          | Some content =>
              if bool_decide (file ∈ files) && stale_file now maxAgeMs file content
              then None else Some content
          | None => None
          end)
    /\ (result.1 + size result.2 = cleaned + size dir)%nat.
Proof.
  induction 1 as [| x files Hx Hnd IH]; intros cleaned dir; cbn [fold_left].
  - cbn [fst snd]. split; [| reflexivity].
    intros file. destruct (dir !! file); reflexivity.
  - rewrite lookup_clean_step.
    destruct (dir !! x) as [content |] eqn:Hlook;
      [destruct (stale_file now maxAgeMs x content) eqn:Hstale |].
    + destruct (IH (S cleaned) (delete x dir)) as [Hdir Hcount].
      split.
      * intros file. rewrite Hdir.
        destruct (decide (file = x)) as [-> | Hne].
        { rewrite lookup_delete_eq, Hlook.
          rewrite bool_decide_eq_true_2 by apply list_elem_of_here.
          rewrite Hstale. reflexivity. }
        rewrite lookup_delete_ne by congruence.
        destruct (dir !! file) as [c |]; [| reflexivity].
        rewrite (bool_decide_ext (file ∈ files) (file ∈ x :: files)); [reflexivity |].
        rewrite elem_of_cons. tauto.
      * rewrite Hcount. rewrite map_size_delete, Hlook.
        assert (0 < size dir)%nat; [| lia].
        destruct (decide (size dir = 0)%nat) as [Hz | ]; [| lia].
        apply map_size_empty_inv in Hz. subst dir. rewrite lookup_empty in Hlook.
        discriminate.
    + destruct (IH cleaned dir) as [Hdir Hcount]. split; [| exact Hcount].
      intros file. rewrite Hdir.
      destruct (dir !! file) as [c |] eqn:Hf; [| reflexivity].
      destruct (decide (file = x)) as [-> | Hne].
      { assert (c = content) as -> by congruence. rewrite Hstale, !andb_false_r.
        reflexivity. }
      rewrite (bool_decide_ext (file ∈ files) (file ∈ x :: files)); [reflexivity |].
      rewrite elem_of_cons. tauto.
    + destruct (IH cleaned dir) as [Hdir Hcount]. split; [| exact Hcount].
      intros file. rewrite Hdir.
      destruct (dir !! file) as [c |] eqn:Hf; [| reflexivity].
      destruct (decide (file = x)) as [-> | Hne]; [congruence |].
      rewrite (bool_decide_ext (file ∈ files) (file ∈ x :: files)); [reflexivity |].
      rewrite elem_of_cons. tauto.
Qed.

(** X23 — [cleanStaleSessions] deletes exactly the [.json] files that
    hold a completed or failed session last active more than
    [maxAgeHours] ago, leaves every other file (running, paused and idle
    sessions, recent ones, corrupt files, other extensions) as it is, and
    returns the number of files it deleted. *)
Theorem cleanStaleSessions_spec (now : Z) (dir : gmap string FileContent)
    (maxAgeHours : option Z) :
  let maxAgeMs := default DEFAULT_STALE_HOURS maxAgeHours * 60 * 60 * 1000 in
  let result := cleanStaleSessions now dir maxAgeHours in
  (forall file,
      result.2 !! file
      = match dir !! file with
        | Some content =>
            if stale_file now maxAgeMs file content then None else Some content
        | None => None
        end)
  /\ (result.1 + size result.2 = size dir)%nat.
Proof.
  intros maxAgeMs result. subst result. unfold cleanStaleSessions. cbv zeta.
  fold maxAgeMs.
  destruct (clean_loop_spec now maxAgeMs (map fst (map_to_list dir))
              (NoDup_fst_map_to_list dir) 0%nat dir) as [Hdir Hcount].
  split; [| exact Hcount].
  intros file. rewrite Hdir.
  destruct (dir !! file) as [content |] eqn:Hlook; [| reflexivity].
  rewrite bool_decide_eq_true_2; [reflexivity |].
  apply list_elem_of_fmap. exists (file, content). split; [reflexivity |].
  apply elem_of_map_to_list, Hlook.
Qed.
End HousekeepingMore.

(** ** Context tracker: the context window of a runner *)

Section RunnerMore.
Import RunnerContext.

Lemma prefix_cons (a : Ascii.ascii) (s key : string) :
  String.prefix (String a s) key = true ->
  exists rest, key = String a rest /\ String.prefix s rest = true.
Proof.
  destruct key as [| b rest]; cbn [String.prefix]; [discriminate |].
  destruct (Ascii.ascii_dec a b) as [<- | _]; [| discriminate].
  intros H. exists rest. split; [reflexivity | exact H].
Qed.

Lemma eqb_cons (a b : Ascii.ascii) (s t : string) :
  String.eqb (String a s) (String b t) = Ascii.eqb a b && String.eqb s t.
Proof. cbn [String.eqb]. destruct (Ascii.eqb a b); reflexivity. Qed.

Lemma prefix_cons_cons (a b : Ascii.ascii) (s t : string) :
  String.prefix (String a s) (String b t) = Ascii.eqb a b && String.prefix s t.
Proof.
  cbn [String.prefix]. destruct (Ascii.ascii_dec a b) as [-> | Hne].
  - rewrite Ascii.eqb_refl. reflexivity.
  - apply Ascii.eqb_neq in Hne. rewrite Hne. reflexivity.
Qed.

Lemma prefix_empty (s : string) : String.prefix EmptyString s = true.
Proof. destruct s; reflexivity. Qed.

(** X24 — runner names are matched by family: once lower-cased and with
    blanks and underscores turned into dashes, every name that starts with
    [gemini] gets the window of 1,000,000 tokens, every name that starts
    with [claude] 200,000 and every name that starts with [copilot]
    128,000, whatever follows. *)
Theorem getMaxContextForRunner_families (runner : string) :
  (String.prefix "gemini" (key_of runner) = true ->
   getMaxContextForRunner runner = Tokens 1000000)
  /\ (String.prefix "claude" (key_of runner) = true ->
      getMaxContextForRunner runner = Tokens 200000)
  /\ (String.prefix "copilot" (key_of runner) = true ->
      getMaxContextForRunner runner = Tokens 128000).
Proof.
  unfold getMaxContextForRunner. cbv zeta. generalize (key_of runner). intros key.
  repeat split; intros H;
    repeat (apply prefix_cons in H as (? & -> & H)); clear H;
    unfold table_get, related;
    cbn [List.find RUNNER_CONTEXT_WINDOWS fst];
    rewrite ?eqb_cons, ?prefix_cons_cons;
    repeat match goal with
           | |- context [Ascii.eqb ?a ?b] =>
               let v := eval vm_compute in (Ascii.eqb a b) in
               change (Ascii.eqb a b) with v
           end;
    cbn [andb orb];
    repeat match goal with
           | |- context [String.eqb ?a ?b] => destruct (String.eqb a b)
           end;
    try reflexivity;
    rewrite ?prefix_empty;
    repeat match goal with
           | |- context [String.prefix ?a ?b] => destruct (String.prefix a b)
           end;
    reflexivity.
Qed.

Lemma getMaxContextForRunner_families_witness :
  getMaxContextForRunner "Gemini 2.5" = Tokens 1000000.
Proof.
  apply (proj1 (getMaxContextForRunner_families "Gemini 2.5")). reflexivity.
Defined.
End RunnerMore.

(** ** Decision log: ids *)

Section DecisionMore.
Import DecisionLog.

Lemma number_of_decimal (n : nat) : number_of (decimal n) = Some n.
Proof.
  unfold number_of, decimal. rewrite DecimalString.NilEmpty.usu. cbn [option_map].
  rewrite DecimalNat.Unsigned.of_to. reflexivity.
Qed.

Lemma number_of_fill (k : nat) (s : string) (n : nat) :
  number_of s = Some n ->
  number_of (fill k (Ascii.ascii_of_nat 48) ++ s)%string = Some n.
Proof.
  intros Hs. induction k as [| k IH]; [exact Hs |].
  change (fill (S k) (Ascii.ascii_of_nat 48) ++ s)%string
    with (String (Ascii.ascii_of_nat 48) (fill k (Ascii.ascii_of_nat 48) ++ s)%string).
  unfold number_of in *. cbn [DecimalString.NilEmpty.uint_of_string].
  destruct (DecimalString.NilEmpty.uint_of_string
              (fill k (Ascii.ascii_of_nat 48) ++ s)%string) as [d |];
    [| discriminate].
  cbn [option_map] in IH. injection IH as <-. reflexivity.
Qed.

Lemma append_inj_l (p a b : string) : (p ++ a = p ++ b)%string -> a = b.
Proof.
  induction p as [| c p IH]; intros H; [exact H |].
  apply IH. change (String c (p ++ a)%string = String c (p ++ b)%string) in H.
  congruence.
Qed.

Lemma id_of_inj (i j : nat) : id_of i = id_of j -> i = j.
Proof.
  unfold id_of. intros H. apply append_inj_l in H.
  assert (Hn : forall n, number_of (padStart 3 (Ascii.ascii_of_nat 48) (decimal (n + 1)))
                         = Some (n + 1)%nat).
  { intros n. unfold padStart. apply number_of_fill, number_of_decimal. }
  pose proof (Hn i) as Hi. rewrite H, Hn in Hi. injection Hi. lia.
Qed.

(** X25 — [record] numbers the decisions: on a log whose entries carry
    their ids in order, the new decision gets the id of the next number,
    the log stays numbered, and no two of its decisions share an id. *)
Theorem record_numbers_decisions (log : list Recorded) (now : Z)
    (entry : WorkflowEngine.Decision) :
  numbered log ->
  let result := record (Some log) now entry in
  rec_id result.1 = id_of (length log)
  /\ result.2 = Some (log ++ [result.1])
  /\ numbered (log ++ [result.1])
  /\ NoDup (map rec_id (log ++ [result.1])).
Proof.
  intros Hlog result. subst result. unfold record, list_decisions. cbn [default fst snd rec_id].
  set (d := mkRecorded _ now entry).
  assert (Hnum : numbered (log ++ [d])).
  { intros i x Hx. apply lookup_app_Some in Hx as [Hx | [Hge Hx]].
    - apply Hlog, Hx.
    - destruct (i - length log)%nat as [| k] eqn:E; [| destruct k; discriminate].
      cbn in Hx. injection Hx as <-.
      replace i with (length log) by lia. reflexivity. }
  repeat split; try assumption.
  apply NoDup_alt. intros i j x Hi Hj.
  rewrite list_lookup_fmap in Hi, Hj.
  destruct ((log ++ [d]) !! i) as [a |] eqn:Ha; [| discriminate].
  destruct ((log ++ [d]) !! j) as [b |] eqn:Hb; [| discriminate].
  cbn in Hi, Hj. injection Hi as <-. injection Hj as Hj.
  rewrite (Hnum i a Ha), (Hnum j b Hb) in Hj. symmetry. apply id_of_inj, Hj.
Qed.

Lemma record_numbers_decisions_witness :
  rec_id (record (Some []) 0
            (WorkflowEngine.mkDecision "Gate" "ctx" "Paused" "dev" "s1" None)).1
  = "DEC-001".
Proof.
  apply (proj1 (record_numbers_decisions [] 0
                  (WorkflowEngine.mkDecision "Gate" "ctx" "Paused" "dev" "s1" None)
                  ltac:(intros i d Hd; rewrite lookup_nil in Hd; discriminate))).
Defined.
End DecisionMore.
